(** * flat-candies: the per-tick engine of [src/js/Game.js]

    A shallow embedding of class [Game]: its collections are JavaScript
    arrays of object references, so the model keeps a store of objects per
    entity class and lists of references into it.  Numbers (sizes, frame
    counts, intervals) are taken on the integers. *)

From stdpp Require Import gmap list strings.
From Stdlib Require Import ZArith Lia.

Local Open Scope Z_scope.

(** ** Object references and entity records *)

(** A reference stands for the identity of a JavaScript object. *)
Abbreviation ref := nat.

(** Modelled from the spec: class Sprite is not among the sources; the
    fields are those of the data model (position, nominal [size], current
    [actualSize], and the [value] credited to whoever eats the sprite). *)
Module Sprite.
Record t : Type := mk
  { x : Z; y : Z; size : Z; actualSize : Z; value : Z }.

Definition set_actualSize (a : Z) (s : t) : t :=
  mk (x s) (y s) (size s) a (value s).

Definition set_value (v : Z) (s : t) : t :=
  mk (x s) (y s) (size s) (actualSize s) v.
End Sprite.

(** Modelled from the spec: class Pellet is not among the sources; a
    pellet has a position, a size, a fill colour and a value, all fixed once
    it is placed. *)
Module Pellet.
Record t : Type := mk
  { x : Z; y : Z; size : Z; fill : Z; value : Z }.

(** Modelled from the spec: [new Pellet( size, fill, value )], not yet
    placed, and the placement, which assigns the position. *)
Definition new (sz c v : Z) : t := mk 0 0 sz c v.

Definition place (px py : Z) (p : t) : t :=
  mk px py (size p) (fill p) (value p).
End Pellet.

(** Modelled from the spec: class BlackHole is not among the sources; a
    hazard has a position, a size, a power and a remaining life span, and is
    dead once the life span is exhausted. *)
Module BlackHole.
Record t : Type := mk
  { x : Z; y : Z; size : Z; power : Z; lifeSpan : Z }.

(** Modelled from the spec: [new BlackHole( size, power, lifeSpan )],
    not yet spawned, and [spawn( x, y )], which assigns the position. *)
Definition new (sz pw ls : Z) : t := mk 0 0 sz pw ls.

Definition spawn (px py : Z) (b : t) : t :=
  mk px py (size b) (power b) (lifeSpan b).

Definition set_lifeSpan (n : Z) (b : t) : t :=
  mk (x b) (y b) (size b) (power b) n.

(** Modelled from the spec: [BlackHole.isDead( blackHole )], a pure
    predicate, true once the life span is exhausted. *)
Definition isDead (b : t) : bool := lifeSpan b <=? 0.
End BlackHole.

(** ** The configuration object (GameData)

    GameData.js is not among the sources; [Game] reads the fields below,
    which are therefore parameters of the model. *)

(** A configuration field that is either a number or a function
    ([typeof size !== "function"]).  A function of no argument may draw
    random numbers, so it reads the generator's state. *)
Inductive sizeField :=
| SizeNumber (n : Z)
| SizeFunction (f : nat → Z).

Inductive valueField :=
| ValueNumber (n : Z)
| ValueFunction (f : Z → Z).

Module SpritesData.
Record t : Type := mk
  { canEatPellet : Sprite.t → Pellet.t → bool;
    canEatSprite : Sprite.t → Sprite.t → bool;
    value : Z → Z }.
End SpritesData.

Module PelletsData.
Record t : Type := mk
  { size : sizeField;
    value : valueField;
    colors : list Z;
    newQuantity : Z;
    newPelletsInterval : Z }.
End PelletsData.

Module BlackHolesData.
Record t : Type := mk
  { size : Z; power : Z; lifeSpan : Z;
    spawnInterval : Z;
    canSuckPellet : BlackHole.t → Pellet.t → bool;
    canSuckSprite : BlackHole.t → Sprite.t → bool }.
End BlackHolesData.

Module GameData.
Record t : Type := mk
  { sprites : SpritesData.t;
    pellets : PelletsData.t;
    blackHoles : BlackHolesData.t }.
End GameData.

(** ** Calls observed during a tick

    The state carries the list of the calls [run] has made, in order.  It
    is a ghost field: nothing reads it, it only lets the theorems speak of
    what happened during a tick. *)
Inductive event :=
| Spawned (b : ref)
    (* spawnBlackHole pushed the new hazard [b] *)
| SuckedPellet (b p : ref)
    (* blackHole.suckPellet( pellet, eatenPellets ) *)
| SuckedSprite (b s : ref) (left : Z)
    (* blackHole.suckSprite( player ); [left] is actualSize on return *)
| StagedSprite (s : ref)
    (* eatenSprites.push( player ) of the hazard step *)
| StagedHole (b : ref)
    (* deadBlackHoles.push( blackHole ) *)
| AtePellet (s p : ref) (before after : Z)
    (* player.eatPellet( pellet, eatenPellets ), actualSize around it *)
| ValueSet (s : ref) (victim : Sprite.t) (v : Z)
    (* victim.value = data.sprites.value( victim.size ); [victim] is the
       record just before the assignment *)
| AteSprite (winner victim : ref)
    (* winner.eatOtherSprite( victim, eatenSprites ) *).

(** ** The game object and its surroundings *)

Record State : Type := mkState
  { (* fields of the Game object *)
    env_width : Z;
    env_height : Z;
    data : GameData.t;
    players : list ref;
    pellets : list ref;
    blackHoles : list ref;
    eatenPellets : list ref;
    eatenSprites : list ref;
    deadBlackHoles : list ref;
    framesElapsed : Z;
    started : option bool;   (* None: the constructor leaves it undefined *)
    paused : option bool;
    (* the objects the collections refer to *)
    spriteObj : gmap ref Sprite.t;
    pelletObj : gmap ref Pellet.t;
    holeObj : gmap ref BlackHole.t;
    nextRef : ref;
    (* the page around the game *)
    frameCount : Z;          (* the animation loop's global frame counter *)
    seed : nat;              (* state of the random number generator *)
    console : list string;   (* what console.warn printed *)
    trace : list event }.

(** Field updates. *)
Definition set_players (l : list ref) (w : State) : State :=
  mkState (env_width w) (env_height w) (data w) l (pellets w) (blackHoles w)
    (eatenPellets w) (eatenSprites w) (deadBlackHoles w) (framesElapsed w)
    (started w) (paused w) (spriteObj w) (pelletObj w) (holeObj w)
    (nextRef w) (frameCount w) (seed w) (console w) (trace w).

Definition set_pellets (l : list ref) (w : State) : State :=
  mkState (env_width w) (env_height w) (data w) (players w) l (blackHoles w)
    (eatenPellets w) (eatenSprites w) (deadBlackHoles w) (framesElapsed w)
    (started w) (paused w) (spriteObj w) (pelletObj w) (holeObj w)
    (nextRef w) (frameCount w) (seed w) (console w) (trace w).

Definition set_blackHoles (l : list ref) (w : State) : State :=
  mkState (env_width w) (env_height w) (data w) (players w) (pellets w) l
    (eatenPellets w) (eatenSprites w) (deadBlackHoles w) (framesElapsed w)
    (started w) (paused w) (spriteObj w) (pelletObj w) (holeObj w)
    (nextRef w) (frameCount w) (seed w) (console w) (trace w).

Definition set_eatenPellets (l : list ref) (w : State) : State :=
  mkState (env_width w) (env_height w) (data w) (players w) (pellets w)
    (blackHoles w) l (eatenSprites w) (deadBlackHoles w) (framesElapsed w)
    (started w) (paused w) (spriteObj w) (pelletObj w) (holeObj w)
    (nextRef w) (frameCount w) (seed w) (console w) (trace w).

Definition set_eatenSprites (l : list ref) (w : State) : State :=
  mkState (env_width w) (env_height w) (data w) (players w) (pellets w)
    (blackHoles w) (eatenPellets w) l (deadBlackHoles w) (framesElapsed w)
    (started w) (paused w) (spriteObj w) (pelletObj w) (holeObj w)
    (nextRef w) (frameCount w) (seed w) (console w) (trace w).

Definition set_deadBlackHoles (l : list ref) (w : State) : State :=
  mkState (env_width w) (env_height w) (data w) (players w) (pellets w)
    (blackHoles w) (eatenPellets w) (eatenSprites w) l (framesElapsed w)
    (started w) (paused w) (spriteObj w) (pelletObj w) (holeObj w)
    (nextRef w) (frameCount w) (seed w) (console w) (trace w).

Definition set_framesElapsed (n : Z) (w : State) : State :=
  mkState (env_width w) (env_height w) (data w) (players w) (pellets w)
    (blackHoles w) (eatenPellets w) (eatenSprites w) (deadBlackHoles w) n
    (started w) (paused w) (spriteObj w) (pelletObj w) (holeObj w)
    (nextRef w) (frameCount w) (seed w) (console w) (trace w).

Definition set_started (b : option bool) (w : State) : State :=
  mkState (env_width w) (env_height w) (data w) (players w) (pellets w)
    (blackHoles w) (eatenPellets w) (eatenSprites w) (deadBlackHoles w)
    (framesElapsed w) b (paused w) (spriteObj w) (pelletObj w) (holeObj w)
    (nextRef w) (frameCount w) (seed w) (console w) (trace w).

Definition set_paused (b : option bool) (w : State) : State :=
  mkState (env_width w) (env_height w) (data w) (players w) (pellets w)
    (blackHoles w) (eatenPellets w) (eatenSprites w) (deadBlackHoles w)
    (framesElapsed w) (started w) b (spriteObj w) (pelletObj w) (holeObj w)
    (nextRef w) (frameCount w) (seed w) (console w) (trace w).

Definition set_spriteObj (m : gmap ref Sprite.t) (w : State) : State :=
  mkState (env_width w) (env_height w) (data w) (players w) (pellets w)
    (blackHoles w) (eatenPellets w) (eatenSprites w) (deadBlackHoles w)
    (framesElapsed w) (started w) (paused w) m (pelletObj w) (holeObj w)
    (nextRef w) (frameCount w) (seed w) (console w) (trace w).

Definition set_pelletObj (m : gmap ref Pellet.t) (w : State) : State :=
  mkState (env_width w) (env_height w) (data w) (players w) (pellets w)
    (blackHoles w) (eatenPellets w) (eatenSprites w) (deadBlackHoles w)
    (framesElapsed w) (started w) (paused w) (spriteObj w) m (holeObj w)
    (nextRef w) (frameCount w) (seed w) (console w) (trace w).

Definition set_holeObj (m : gmap ref BlackHole.t) (w : State) : State :=
  mkState (env_width w) (env_height w) (data w) (players w) (pellets w)
    (blackHoles w) (eatenPellets w) (eatenSprites w) (deadBlackHoles w)
    (framesElapsed w) (started w) (paused w) (spriteObj w) (pelletObj w) m
    (nextRef w) (frameCount w) (seed w) (console w) (trace w).

Definition set_nextRef (n : ref) (w : State) : State :=
  mkState (env_width w) (env_height w) (data w) (players w) (pellets w)
    (blackHoles w) (eatenPellets w) (eatenSprites w) (deadBlackHoles w)
    (framesElapsed w) (started w) (paused w) (spriteObj w) (pelletObj w)
    (holeObj w) n (frameCount w) (seed w) (console w) (trace w).

Definition set_seed (n : nat) (w : State) : State :=
  mkState (env_width w) (env_height w) (data w) (players w) (pellets w)
    (blackHoles w) (eatenPellets w) (eatenSprites w) (deadBlackHoles w)
    (framesElapsed w) (started w) (paused w) (spriteObj w) (pelletObj w)
    (holeObj w) (nextRef w) (frameCount w) n (console w) (trace w).

Definition set_console (l : list string) (w : State) : State :=
  mkState (env_width w) (env_height w) (data w) (players w) (pellets w)
    (blackHoles w) (eatenPellets w) (eatenSprites w) (deadBlackHoles w)
    (framesElapsed w) (started w) (paused w) (spriteObj w) (pelletObj w)
    (holeObj w) (nextRef w) (frameCount w) (seed w) l (trace w).

Definition set_trace (l : list event) (w : State) : State :=
  mkState (env_width w) (env_height w) (data w) (players w) (pellets w)
    (blackHoles w) (eatenPellets w) (eatenSprites w) (deadBlackHoles w)
    (framesElapsed w) (started w) (paused w) (spriteObj w) (pelletObj w)
    (holeObj w) (nextRef w) (frameCount w) (seed w) (console w) l.

Definition emit (e : event) (w : State) : State :=
  set_trace (trace w ++ [e]) w.

(** ** JavaScript arrays and numbers *)

(** [l.indexOf( x )]: the first position holding the reference [x], or -1. *)
Fixpoint indexOfFrom (x : ref) (l : list ref) (i : Z) : Z :=
  match l with
  | [] => -1
  | y :: l' => if decide (x = y) then i else indexOfFrom x l' (i + 1)
  end.

Definition indexOf (x : ref) (l : list ref) : Z := indexOfFrom x l 0.

(** [l.splice( start, 1 )]: a negative [start] counts from the end, a
    [start] past the end removes nothing. *)
Definition splice1 {A} (start : Z) (l : list A) : list A :=
  let len := Z.of_nat (length l) in
  let from := if start <? 0 then Z.max (len + start) 0 else Z.min start len in
  delete (Z.to_nat from) l.

(** [l.forEach( body )] for a body that leaves [l] itself alone. *)
Definition forEach {A} (l : list A) (body : A → State → State)
    (w : State) : State :=
  foldl (λ w x, body x w) w l.

(** [l.forEach( ( x, i ) => body )], counting from [i]. *)
Fixpoint forEachFrom {A} (i : nat) (l : list A)
    (body : A → nat → State → State) (w : State) : State :=
  match l with
  | [] => w
  | x :: l' => forEachFrom (S i) l' body (body x i w)
  end.

(** [a % b === 0] on integers: the remainder has the sign of [a], and
    [a % 0] is NaN, which equals nothing. *)
Definition remIsZero (a b : Z) : bool :=
  negb (b =? 0) && (Z.rem a b =? 0).

(** A flag used as a condition: [undefined] is falsy. *)
Definition truthy (o : option bool) : bool :=
  match o with Some true => true | _ => false end.

Section Engine.

(** What the entity classes and the page do, none of it in the sources. *)
Context
  (random : nat → Z → Z)
    (* round( random( n ) ) in generator state [seed] *)
  (control : Sprite.t → Sprite.t)
    (* player.control(): moves the sprite after the keys pressed *)
  (displayHole : BlackHole.t → BlackHole.t)
    (* blackHole.display(): the one call every live hazard gets every
       tick, whatever it does to the hazard *)
  (growth : Z → Z)
    (* the growth eatPellet derives from a pellet's value *)
  (drain : Z → Z).
    (* the amount suckSprite derives from a hazard's power *)

Definition roundRandom (n : Z) (w : State) : Z * State :=
  (random (seed w) n, set_seed (S (seed w)) w).

(** *** Entity methods *)

(** Modelled from the spec: Sprite.eatPellet( pellet, eatenSet ) is not
    among the sources; it increases actualSize by a function of the
    pellet's value and appends the pellet to eatenSet, which is
    this.eatenPellets at the one call site. *)
Definition Sprite_eatPellet (s p : ref) (w : State) : State :=
  match spriteObj w !! s, pelletObj w !! p with
  | Some sp, Some pl =>
      let sp' :=
        Sprite.set_actualSize (Sprite.actualSize sp + growth (Pellet.value pl)) sp in
      set_eatenPellets (eatenPellets w ++ [p])
        (set_spriteObj (<[s := sp']> (spriteObj w)) w)
  | _, _ => w
  end.

(** Modelled from the spec: Sprite.eatOtherSprite( otherSprite, eatenSet )
    is not among the sources; same pattern, it grows by otherSprite.value
    and appends otherSprite to eatenSet (this.eatenSprites). *)
Definition Sprite_eatOtherSprite (s o : ref) (w : State) : State :=
  match spriteObj w !! s, spriteObj w !! o with
  | Some sp, Some ot =>
      let sp' :=
        Sprite.set_actualSize (Sprite.actualSize sp + Sprite.value ot) sp in
      set_eatenSprites (eatenSprites w ++ [o])
        (set_spriteObj (<[s := sp']> (spriteObj w)) w)
  | _, _ => w
  end.

(** Modelled from the spec: BlackHole.suckPellet( pellet, eatenSet ) is
    not among the sources; it stages the pellet, unconditionally. *)
Definition BlackHole_suckPellet (b p : ref) (w : State) : State :=
  set_eatenPellets (eatenPellets w ++ [p]) w.

(** Modelled from the spec: BlackHole.suckSprite( sprite ) is not among
    the sources; it reduces the sprite's actualSize by an amount derived
    from the hazard's power and removes nothing. *)
Definition BlackHole_suckSprite (b s : ref) (w : State) : State :=
  match holeObj w !! b, spriteObj w !! s with
  | Some bh, Some sp =>
      let sp' :=
        Sprite.set_actualSize (Sprite.actualSize sp - drain (BlackHole.power bh)) sp in
      set_spriteObj (<[s := sp']> (spriteObj w)) w
  | _, _ => w
  end.

(** *** Game.placePellets, Game.placeNewPellets *)

Definition clamp (v bound : Z) : Z := Z.max 0 (Z.min v (bound - 1)).

(** One turn of the loop of placePellets. *)
Definition placePellet (w : State) : State :=
  let cfg := GameData.pellets (data w) in
  let '(_size, w) :=
    match PelletsData.size cfg with
    | SizeNumber n => (n, w)
    | SizeFunction f => (f (seed w), set_seed (S (seed w)) w)
    end in
  let _value :=
    match PelletsData.value cfg with
    | ValueNumber n => n
    | ValueFunction f => f _size
    end in
  let '(c, w) := roundRandom (Z.of_nat (length (PelletsData.colors cfg))) w in
  let newPellet :=
    Pellet.new _size (default 0 (PelletsData.colors cfg !! Z.to_nat c)) _value in
  let p := nextRef w in
  let w := set_nextRef (S p) (set_pelletObj (<[p := newPellet]> (pelletObj w)) w) in
  let w := set_pellets (pellets w ++ [p]) w in
  (* newPellet.place( width, height ): a random position on the canvas *)
  let '(px, w) := roundRandom (env_width w) w in
  let '(py, w) := roundRandom (env_height w) w in
  set_pelletObj
    (alter (Pellet.place (clamp px (env_width w)) (clamp py (env_height w))) p
       (pelletObj w)) w.

Definition placePellets (qty : Z) (w : State) : State :=
  Nat.iter (Z.to_nat qty) placePellet w.

Definition placeNewPellets (qty : Z) (w : State) : State :=
  if remIsZero (framesElapsed w)
       (PelletsData.newPelletsInterval (GameData.pellets (data w)))
  then placePellets qty w
  else w.

(** *** Game.spawnBlackHole

    The test reads the free variable [frameCount], the counter of the
    animation loop, not this.framesElapsed. *)
Definition spawnBlackHole (interval : Z) (w : State) : State :=
  if remIsZero (frameCount w) interval then
    let cfg := GameData.blackHoles (data w) in
    let newBlackHole :=
      BlackHole.new (BlackHolesData.size cfg) (BlackHolesData.power cfg)
        (BlackHolesData.lifeSpan cfg) in
    let b := nextRef w in
    let w := set_nextRef (S b) (set_holeObj (<[b := newBlackHole]> (holeObj w)) w) in
    let w := emit (Spawned b) (set_blackHoles (blackHoles w ++ [b]) w) in
    let '(px, w) := roundRandom (env_width w) w in
    let '(py, w) := roundRandom (env_height w) w in
    set_holeObj (alter (BlackHole.spawn px py) b (holeObj w)) w
  else w.

(** *** Game.start, Game.update, Game.pause, Game.continue *)

Definition warning : string :=
  "Please add players and pellets before starting the game.".

Definition start (w : State) : State :=
  if bool_decide (0 < length (players w))%nat
     && bool_decide (0 < length (pellets w))%nat
  then set_paused (Some false) (set_started (Some true) w)
  else set_console (console w ++ [warning]) w.

Definition update (frameCount : Z) (w : State) : State :=
  set_framesElapsed frameCount w.

Definition pause (w : State) : State := set_paused (Some true) w.

Definition continue (w : State) : State := set_paused (Some false) w.

(** *** Game.run *)

(** Lines 259-263: the body of the loop over the pellets. *)
Definition suckPelletIfCan (b p : ref) (w : State) : State :=
  match holeObj w !! b, pelletObj w !! p with
  | Some bh, Some pl =>
      if BlackHolesData.canSuckPellet (GameData.blackHoles (data w)) bh pl
      then emit (SuckedPellet b p) (BlackHole_suckPellet b p w)
      else w
  | _, _ => w
  end.

(** Lines 257-265: one hazard against every live pellet. *)
Definition suckPellets (b : ref) (w : State) : State :=
  forEach (pellets w) (suckPelletIfCan b) w.

(** Lines 269-278: the body of the loop over the players. *)
Definition suckSpriteIfCan (b s : ref) (w : State) : State :=
  match holeObj w !! b, spriteObj w !! s with
  | Some bh, Some sp =>
      if BlackHolesData.canSuckSprite (GameData.blackHoles (data w)) bh sp
      then
        let w := BlackHole_suckSprite b s w in
        let left := from_option Sprite.actualSize 0 (spriteObj w !! s) in
        let w := emit (SuckedSprite b s left) w in
        if left <=? 0
        then emit (StagedSprite s) (set_eatenSprites (eatenSprites w ++ [s]) w)
        else w
      else w
  | _, _ => w
  end.

(** Lines 267-280: one hazard against every live player. *)
Definition suckSprites (b : ref) (w : State) : State :=
  forEach (players w) (suckSpriteIfCan b) w.

(** Lines 253-288: the body of the loop over the hazards. *)
Definition controlBlackHole (b : ref) (w : State) : State :=
  let w := set_holeObj (alter displayHole b (holeObj w)) w in
  let w := suckPellets b w in
  let w := suckSprites b w in
  match holeObj w !! b with
  | Some bh =>
      if BlackHole.isDead bh
      then emit (StagedHole b) (set_deadBlackHoles (deadBlackHoles w ++ [b]) w)
      else w
  | None => w
  end.

Definition controlBlackHoles (w : State) : State :=
  forEach (blackHoles w) controlBlackHole w.

(** Lines 292-298.  The index spliced out of blackHoles is the one the
    hazard has in deadBlackHoles. *)
Definition removeDeadBlackHoles (w : State) : State :=
  let w :=
    forEach (deadBlackHoles w) (λ b w,
      set_blackHoles
        (splice1 (indexOf b (deadBlackHoles w)) (blackHoles w)) w) w in
  set_deadBlackHoles [] w.

(** Lines 302-308 and 336-342. *)
Definition removeEatenPellets (w : State) : State :=
  let w :=
    forEach (eatenPellets w) (λ p w,
      set_pellets (splice1 (indexOf p (pellets w)) (pellets w)) w) w in
  set_eatenPellets [] w.

(** Lines 312-316. *)
Definition controlSprites (w : State) : State :=
  forEach (players w) (λ s w,
    set_spriteObj (alter control s (spriteObj w)) w) w.

(** Lines 324-328: the body of the inner loop. *)
Definition eatPelletIfCan (s p : ref) (w : State) : State :=
  match spriteObj w !! s, pelletObj w !! p with
  | Some sp, Some pl =>
      if SpritesData.canEatPellet (GameData.sprites (data w)) sp pl
      then
        let w' := Sprite_eatPellet s p w in
        emit (AtePellet s p (Sprite.actualSize sp)
                (from_option Sprite.actualSize 0 (spriteObj w' !! s))) w'
      else w
  | _, _ => w
  end.

(** Lines 320-332. *)
Definition spritesEatPellets (w : State) : State :=
  forEach (players w) (λ s w, forEach (pellets w) (eatPelletIfCan s) w) w.

(** Lines 352-353 and 357-358: the two statements of either branch, the
    value assignment followed by eatOtherSprite. *)
Definition valueThenEat (winner victim : ref) (w : State) : State :=
  match spriteObj w !! victim with
  | Some v =>
      let val := SpritesData.value (GameData.sprites (data w)) (Sprite.size v) in
      let w :=
        emit (ValueSet victim v val)
          (set_spriteObj (<[victim := Sprite.set_value val v]> (spriteObj w)) w) in
      emit (AteSprite winner victim) (Sprite_eatOtherSprite winner victim w)
  | None => w
  end.

(** Lines 350-360: the body of the inner loop. *)
Definition eatOrBeEaten (player otherPlayer : ref) (w : State) : State :=
  match spriteObj w !! player, spriteObj w !! otherPlayer with
  | Some sp, Some ot =>
      let canEatSprite := SpritesData.canEatSprite (GameData.sprites (data w)) in
      if canEatSprite sp ot then valueThenEat player otherPlayer w
      else if canEatSprite ot sp then valueThenEat otherPlayer player w
      else w
  | _, _ => w
  end.

(** Lines 346-364. *)
Definition spritesEatSprites (w : State) : State :=
  forEachFrom 0 (players w) (λ player i w,
    forEach (drop (S i) (players w)) (eatOrBeEaten player) w) w.

(** Lines 368-374. *)
Definition removeEatenSprites (w : State) : State :=
  let w :=
    forEach (eatenSprites w) (λ s w,
      set_players (splice1 (indexOf s (players w)) (players w)) w) w in
  set_eatenSprites [] w.

(** The part of a tick after the guard.  The display() calls on players
    and pellets (lines 378-390) only draw and are left out. *)
Definition tick (w : State) : State :=
  let w :=
    spawnBlackHole (BlackHolesData.spawnInterval (GameData.blackHoles (data w))) w in
  let w := controlBlackHoles w in
  let w := removeDeadBlackHoles w in
  let w := removeEatenPellets w in
  let w := controlSprites w in
  let w := spritesEatPellets w in
  let w := removeEatenPellets w in
  let w := spritesEatSprites w in
  let w := removeEatenSprites w in
  placeNewPellets (PelletsData.newQuantity (GameData.pellets (data w))) w.

Definition run (w : State) : State :=
  if negb (truthy (started w)) || truthy (paused w) then w else tick w.

End Engine.

(** ** Reading the trace *)

(** The pellet an event stages into eatenPellets, if any. *)
Definition pelletOf (e : event) : option ref :=
  match e with
  | SuckedPellet _ p => Some p
  | AtePellet _ p _ _ => Some p
  | _ => None
  end.

(** The sprite an event stages into eatenSprites, if any. *)
Definition spriteOf (e : event) : option ref :=
  match e with
  | StagedSprite s => Some s
  | AteSprite _ victim => Some victim
  | _ => None
  end.

(** The hazard an event stages into deadBlackHoles, if any. *)
Definition holeOf (e : event) : option ref :=
  match e with
  | StagedHole b => Some b
  | _ => None
  end.

(** The hazard an event pushes onto blackHoles, if any. *)
Definition spawnOf (e : event) : option ref :=
  match e with
  | Spawned b => Some b
  | _ => None
  end.

(** Who ate whom: (winner, victim). *)
Definition mealOf (e : event) : option (ref * ref) :=
  match e with
  | AteSprite winner victim => Some (winner, victim)
  | _ => None
  end.

Definition meals (evs : list event) : list (ref * ref) := omap mealOf evs.

(** How many times the events stage pellet [p]. *)
Definition stagings (p : ref) (evs : list event) : nat :=
  count_occ Nat.eq_dec (omap pelletOf evs) p.

(** The events a step added to the trace. *)
Definition newEvents (w w' : State) : list event :=
  drop (length (trace w)) (trace w').

(** ** The loops as functions on lists *)

(** One staged removal, [live.splice( live.indexOf( x ), 1 )], and the
    flush loop made of them. *)
Definition removeByIndexOf (live : list ref) (x : ref) : list ref :=
  splice1 (indexOf x live) live.

Definition flush (staged live : list ref) : list ref :=
  foldl removeByIndexOf live staged.

(** The flush of lines 292-296, which looks the hazard up in [staged]. *)
Definition flushByStagedIndex (staged live : list ref) : list ref :=
  foldl (λ live x, splice1 (indexOf x staged) live) live staged.

(** The pairs (player, otherPlayer) the nested loops of lines 346-364
    visit, in order. *)
Fixpoint pairs (l : list ref) : list (ref * ref) :=
  match l with
  | [] => []
  | a :: l' => (pair a <$> l') ++ pairs l'
  end.

(** An unordered pair, written smaller reference first. *)
Definition unordered (p : ref * ref) : ref * ref :=
  if (p.1 <=? p.2)%nat then p else (p.2, p.1).

(** The game is in the running state. *)
Definition running (w : State) : Prop :=
  truthy (started w) = true ∧ truthy (paused w) = false.

(** ** The shape of the events of a step *)

(** Events of the hazard step: a suckSprite call that leaves actualSize at
    or below 0 is followed at once by the staging of that sprite, and
    nothing else stages a sprite. *)
Inductive hazardLog : list event → Prop :=
| hl_nil : hazardLog []
| hl_pellet b p evs :
    hazardLog evs → hazardLog (SuckedPellet b p :: evs)
| hl_sprite b s left evs :
    0 < left → hazardLog evs → hazardLog (SuckedSprite b s left :: evs)
| hl_drained b s left evs :
    left ≤ 0 → hazardLog evs →
    hazardLog (SuckedSprite b s left :: StagedSprite s :: evs)
| hl_dead b evs :
    hazardLog evs → hazardLog (StagedHole b :: evs).

(** Events of the sprite-eats-pellet step: every one is an eatPellet call
    that grew the sprite by the growth of the pellet's value. *)
Definition pelletMeal (growth : Z → Z) (po : gmap ref Pellet.t)
    (e : event) : Prop :=
  ∃ s p pl before,
    po !! p = Some pl ∧
    e = AtePellet s p before (before + growth (Pellet.value pl)).

(** Events of the sprite-eats-sprite step over the visited pairs: a pair
    adds nothing, or the value assignment to the victim followed by the
    winner's eatOtherSprite, in one direction or the other. *)
Inductive mealLog (value : Z → Z) : list (ref * ref) → list event → Prop :=
| ml_nil : mealLog value [] []
| ml_none a b ps evs :
    mealLog value ps evs → mealLog value ((a, b) :: ps) evs
| ml_first a b vic ps evs :
    mealLog value ps evs →
    mealLog value ((a, b) :: ps)
      (ValueSet b vic (value (Sprite.size vic)) :: AteSprite a b :: evs)
| ml_second a b vic ps evs :
    mealLog value ps evs →
    mealLog value ((a, b) :: ps)
      (ValueSet a vic (value (Sprite.size vic)) :: AteSprite b a :: evs).

(** ** How the event-making steps change the state *)

(** The state after one call: the trace holds it, and the collection it
    pushes onto has grown. *)
Definition log1 (e : event) (w : State) : State :=
  emit e
    match e with
    | Spawned b => set_blackHoles (blackHoles w ++ [b]) w
    | SuckedPellet _ p | AtePellet _ p _ _ =>
        set_eatenPellets (eatenPellets w ++ [p]) w
    | StagedSprite s | AteSprite _ s =>
        set_eatenSprites (eatenSprites w ++ [s]) w
    | StagedHole b => set_deadBlackHoles (deadBlackHoles w ++ [b]) w
    | SuckedSprite _ _ _ | ValueSet _ _ _ => w
    end.

(** The state after the calls [evs]. *)
Definition logged (evs : list event) (w : State) : State :=
  foldl (λ w e, log1 e w) w evs.

(** The state with other sprite and hazard objects, allocator and
    generator state. *)
Definition touched (so : gmap ref Sprite.t) (ho : gmap ref BlackHole.t)
    (n : ref) (sd : nat) (w : State) : State :=
  set_seed sd (set_nextRef n (set_holeObj ho (set_spriteObj so w))).

(** What those steps never write. *)
Definition core (w : State) :=
  (env_width w, env_height w, data w, players w, pellets w,
   framesElapsed w, started w, paused w, pelletObj w, frameCount w, console w).

(** [w'] is [w] after calls whose events satisfy [Q]; references are
    handed out in increasing order. *)
Definition Shape (Q : list event → Prop) (w w' : State) : Prop :=
  ∃ evs so ho n sd,
    w' = logged evs (touched so ho n sd w) ∧ (nextRef w ≤ n)%nat ∧ Q evs.

(** The events of the hazard step, all staging pellets of [pl]. *)
Definition hazardQ (pl : list ref) (evs : list event) : Prop :=
  hazardLog evs ∧ omap pelletOf evs ⊆ pl.

(** The events of the sprite-eats-pellet step, all staging pellets of [pl]. *)
Definition pelletQ (growth : Z → Z) (po : gmap ref Pellet.t) (pl : list ref)
    (evs : list event) : Prop :=
  Forall (pelletMeal growth po) evs ∧ omap pelletOf evs ⊆ pl.

(** The one turn of the loops of lines 346-364, on a visited pair. *)
Definition pairTurn (w : State) (p : ref * ref) : State :=
  eatOrBeEaten p.1 p.2 w.

(** The state with a longer pellet collection and another pellet store,
    allocator and generator state: what placePellets leaves. *)
Definition supplied (fresh : list ref) (po : gmap ref Pellet.t) (n : ref)
    (sd : nat) (w : State) : State :=
  set_seed sd (set_nextRef n (set_pelletObj po (set_pellets (pellets w ++ fresh) w))).

(** Every field but the sprite and hazard stores, the allocator and the
    generator. *)
Definition summary (w : State) :=
  (env_width w, env_height w, data w, players w, pellets w, blackHoles w,
   eatenPellets w, eatenSprites w, deadBlackHoles w, framesElapsed w,
   started w, paused w, pelletObj w, frameCount w, console w, trace w).

(** The sprite a suckSprite call drained, with the actualSize it left. *)
Definition drainOf (e : event) : option (ref * Z) :=
  match e with
  | SuckedSprite _ s after => Some (s, after)
  | _ => None
  end.

(** Every event of kind [target] comes right after an event that stands
    in relation [ok] to it. *)
Definition eachPreceded (target : event → Prop) (ok : event → event → Prop)
    (evs : list event) : Prop :=
  ∀ pre e post, evs = pre ++ e :: post → target e →
    ∃ pre' e0, pre = pre' ++ [e0] ∧ ok e0 e.

(** An eatOtherSprite call, and the value assignment it needs before it:
    the victim's value becomes the value-function of the victim's [size]
    field. *)
Definition isMeal (e : event) : Prop := ∃ winner victim, e = AteSprite winner victim.

Definition valuedBySize (value : Z → Z) (e0 e : event) : Prop :=
  ∃ winner victim vic,
    e = AteSprite winner victim ∧
    e0 = ValueSet victim vic (value (Sprite.size vic)).

(** The same with the victim's actualSize, as the specification words it. *)
Definition valuedByActualSize (value : Z → Z) (e0 e : event) : Prop :=
  ∃ winner victim vic,
    e = AteSprite winner victim ∧
    e0 = ValueSet victim vic (value (Sprite.actualSize vic)).

(** A staging of the hazard step, and the suckSprite call it needs before
    it: one on the same sprite that left actualSize at or below 0. *)
Definition isHazardStaging (e : event) : Prop := ∃ s, e = StagedSprite s.

Definition drainedBy (e0 e : event) : Prop :=
  ∃ b s left, e = StagedSprite s ∧ e0 = SuckedSprite b s left ∧ left ≤ 0.

(** ** The specification's claims, as worded, on states *)

(** C2 as worded: during the tick no pellet is staged more than once, and
    a live pellet that was never staged is still live afterwards. *)
Definition pelletRemovedOnce (w w' : State) : Prop :=
  (∀ p, (stagings p (newEvents w w') ≤ 1)%nat) ∧
  (∀ q, q ∈ pellets w → stagings q (newEvents w w') = 0%nat → q ∈ pellets w').

(** C3 as worded, second part: a live sprite whose actualSize is positive
    before and after the tick, and after every suckSprite call on it, is
    still live afterwards. *)
Definition staysPositive (w w' : State) (s : ref) : Prop :=
  (∃ sp, spriteObj w !! s = Some sp ∧ 0 < Sprite.actualSize sp) ∧
  (∃ sp, spriteObj w' !! s = Some sp ∧ 0 < Sprite.actualSize sp) ∧
  (∀ after, (s, after) ∈ omap drainOf (newEvents w w') → 0 < after).

Definition onlyDrainedRemoved (w w' : State) : Prop :=
  ∀ s, s ∈ players w → staysPositive w w' s → s ∈ players w'.

(** ** A concrete game

    A configuration in the style of the specification's scenarios:
    proximity predicates, the identity as value function, a hazard
    countdown run by display(), growth by the pellet's value and drain by
    the hazard's power. *)
Module Demo.

Definition near (x1 y1 x2 y2 r : Z) : bool :=
  (x1 - x2) * (x1 - x2) + (y1 - y2) * (y1 - y2) <? r * r.

Definition spritesData : SpritesData.t :=
  SpritesData.mk
    (λ s p, near (Sprite.x s) (Sprite.y s) (Pellet.x p) (Pellet.y p)
              (Sprite.size s))
    (λ a b, near (Sprite.x a) (Sprite.y a) (Sprite.x b) (Sprite.y b)
              (Sprite.actualSize a)
            && (Sprite.actualSize b <? Sprite.actualSize a))
    (λ sz, sz).

Definition pelletsData : PelletsData.t :=
  PelletsData.mk (SizeNumber 5) (ValueNumber 1) [7] 1 1000.

Definition blackHolesData : BlackHolesData.t :=
  BlackHolesData.mk 30 100 3 60
    (λ b p, near (BlackHole.x b) (BlackHole.y b) (Pellet.x p) (Pellet.y p)
              (BlackHole.size b))
    (λ b s, near (BlackHole.x b) (BlackHole.y b) (Sprite.x s) (Sprite.y s)
              (BlackHole.size b)).

Definition gameData : GameData.t :=
  GameData.mk spritesData pelletsData blackHolesData.

Definition random (sd : nat) (n : Z) : Z := 0.
Definition control (s : Sprite.t) : Sprite.t := s.
Definition countdown (b : BlackHole.t) : BlackHole.t :=
  BlackHole.set_lifeSpan (BlackHole.lifeSpan b - 1) b.
Definition growth (v : Z) : Z := v.
Definition drain (power : Z) : Z := power.

Abbreviation run := (run random control countdown growth drain).

(** A state with the given collections and objects on an 800 x 600 canvas,
    nothing staged, frame [fc] of the animation loop. *)
Definition game (ps pl bh : list ref)
    (so : list (ref * Sprite.t)) (po : list (ref * Pellet.t))
    (ho : list (ref * BlackHole.t)) (nxt : ref) (fe fc : Z)
    (st pa : option bool) : State :=
  mkState 800 600 gameData ps pl bh [] [] [] fe st pa
    (list_to_map so) (list_to_map po) (list_to_map ho) nxt fc 0%nat [] [].

(** One player and one far pellet, before start(). *)
Definition ready : State :=
  game [0%nat] [0%nat] []
    [(0%nat, Sprite.mk 400 300 20 20 0)] [(0%nat, Pellet.mk 700 100 5 7 1)] []
    1%nat 0 1 None None.

(** No pellet yet. *)
Definition noPellets : State :=
  game [0%nat] [] [] [(0%nat, Sprite.mk 400 300 20 20 0)] [] []
    1%nat 0 1 None None.

(** Started, then paused. *)
Definition pausedGame : State :=
  game [0%nat] [0%nat] []
    [(0%nat, Sprite.mk 400 300 20 20 0)] [(0%nat, Pellet.mk 700 100 5 7 1)] []
    1%nat 7 7 (Some true) (Some true).

(** Two hazards away from everything: hazard 0 has five ticks to live,
    hazard 1 one. *)
Definition twoHazards : State :=
  game [0%nat] [0%nat] [0%nat; 1%nat]
    [(0%nat, Sprite.mk 500 500 20 20 0)] [(0%nat, Pellet.mk 700 100 5 7 1)]
    [(0%nat, BlackHole.mk 100 100 30 100 5);
     (1%nat, BlackHole.mk 300 300 30 100 1)]
    2%nat 1 1 (Some true) (Some false).

(** The game's counter stands at 120, a multiple of the spawn interval
    60, while the animation loop's counter stands at 121. *)
Definition countersApart : State :=
  game [0%nat] [0%nat] []
    [(0%nat, Sprite.mk 400 300 20 20 0)] [(0%nat, Pellet.mk 700 100 5 7 1)] []
    1%nat 120 121 (Some true) (Some false).

(** Two sprites side by side: sprite 0 (nominal size 20, grown to 50) can
    eat sprite 1 (nominal size 10, grown to 30). *)
Definition duel : State :=
  game [0%nat; 1%nat] [0%nat] []
    [(0%nat, Sprite.mk 400 300 20 50 0); (1%nat, Sprite.mk 410 300 10 30 0)]
    [(0%nat, Pellet.mk 700 100 5 7 1)] []
    2%nat 1 1 (Some true) (Some false).

(** Two sprites on top of pellet 0; pellet 1 far from both. *)
Definition feast : State :=
  game [0%nat; 1%nat] [0%nat; 1%nat] []
    [(0%nat, Sprite.mk 400 300 20 20 0); (1%nat, Sprite.mk 400 300 20 20 0)]
    [(0%nat, Pellet.mk 400 300 5 7 1); (1%nat, Pellet.mk 700 100 5 7 1)] []
    2%nat 1 1 (Some true) (Some false).

(** The specification's second scenario: a hazard of power 100 with one
    tick to live next to a sprite of actualSize 50. *)
Definition drained : State :=
  game [0%nat] [0%nat] [0%nat]
    [(0%nat, Sprite.mk 400 300 20 50 0)] [(0%nat, Pellet.mk 700 100 5 7 1)]
    [(0%nat, BlackHole.mk 405 300 30 100 1)]
    1%nat 1 1 (Some true) (Some false).

(** The specification's first scenario: one player of nominal size 20
    and one pellet of size 5 and value 1 at the player's position. *)
Definition onPellet : State :=
  game [0%nat] [0%nat] []
    [(0%nat, Sprite.mk 400 300 20 20 0)] [(0%nat, Pellet.mk 400 300 5 7 1)] []
    1%nat 1 1 (Some true) (Some false).

End Demo.

(** ** The rest of class Game: construction and setup *)

(** [new Game( canvas, data )] (lines 23-43) in a page [page]: the canvas
    size and the configuration are taken over, the six collections start
    empty, framesElapsed at 0, and started and paused are not assigned.
    The objects, the animation loop's counter, the generator and the
    console belong to the page. *)
Definition Game_new (canvas_width canvas_height : Z) (d : GameData.t)
    (page : State) : State :=
  mkState canvas_width canvas_height d [] [] [] [] [] [] 0 None None
    (spriteObj page) (pelletObj page) (holeObj page) (nextRef page)
    (frameCount page) (seed page) (console page) (trace page).

(** The animation loop moves on to frame [n]. *)
Definition set_frameCount (n : Z) (w : State) : State :=
  mkState (env_width w) (env_height w) (data w) (players w) (pellets w)
    (blackHoles w) (eatenPellets w) (eatenSprites w) (deadBlackHoles w)
    (framesElapsed w) (started w) (paused w) (spriteObj w) (pelletObj w)
    (holeObj w) (nextRef w) n (seed w) (console w) (trace w).

(** How a call that may throw ends, with the state it leaves. *)
Inductive outcome :=
| Returned (w : State)
| Threw (w : State).

(** Modelled from the spec: Sprite.place( x, y, boundsWidth, boundsHeight )
    is not among the sources; it assigns the position, clamped to the
    bounds, and nothing else. *)
Definition Sprite_place (px py boundsWidth boundsHeight : Z) (s : Sprite.t) :
    Sprite.t :=
  Sprite.mk (clamp px boundsWidth) (clamp py boundsHeight) (Sprite.size s)
    (Sprite.actualSize s) (Sprite.value s).

Section Setup.

(** [random] as before.  [chooseColors] stands for the three library calls
    of chooseColorsForSprite (shuffle, random, shuffle on the palette) and
    the two of color(): from the generator's state it gives the state they
    leave and whether they all returned. *)
Context (random : nat → Z → Z) (chooseColors : nat → nat * bool).

(** Lines 52-58.  The fill and stroke the method assigns are not fields of
    the model; what it does to the page is to draw from the generator, and
    to throw when a library call throws. *)
Definition chooseColorsForSprite (sprite : ref) (w : State) : outcome :=
  let '(sd, returned) := chooseColors (seed w) in
  if returned then Returned (set_seed sd w) else Threw (set_seed sd w).

(** Lines 90-102.  [coloured] tells whether player.fill and player.stroke
    are both set when the method is called; players is always an array
    here, so the first guard never fires. *)
Definition addPlayer (coloured : bool) (player : ref) (w : State) : outcome :=
  if coloured then Returned (set_players (players w ++ [player]) w)
  else
    match chooseColorsForSprite player w with
    | Returned w => Returned (set_players (players w ++ [player]) w)
    | Threw w => Threw w
    end.

(** Lines 109-118. *)
Definition placePlayer (player : ref) (w : State) : State :=
  let '(px, w) := roundRandom random (env_width w) w in
  let '(py, w) := roundRandom random (env_height w) w in
  set_spriteObj
    (alter (Sprite_place px py (env_width w) (env_height w)) player
       (spriteObj w)) w.

(** Lines 124-132. *)
Definition placePlayers (w : State) : State :=
  forEach (players w) placePlayer w.

End Setup.

(** ** A game set up through the methods *)

Module Play.

(** The page before the game is made: two sprites exist, the animation
    loop stands at frame 0. *)
Definition page : State :=
  mkState 0 0 Demo.gameData [] [] [] [] [] [] 0 None None
    (list_to_map [(0%nat, Sprite.mk 400 300 20 20 0);
                  (1%nat, Sprite.mk 100 100 20 20 0)])
    ∅ ∅ 0%nat 0 0%nat [] [].

(** Choosing colours draws three numbers and returns. *)
Definition chooseColors (sd : nat) : nat * bool := ((sd + 3)%nat, true).

(** [new Game], then [addPlayer] of sprite 0, which has no colours yet,
    then [placePellets( 2 )], then [start]. *)
Definition fresh : State := Game_new 800 600 Demo.gameData page.

Definition joined : State :=
  match addPlayer chooseColors false 0%nat fresh with
  | Returned w | Threw w => w
  end.

Definition stocked : State := placePellets Demo.random 2 joined.

Definition begun : State := start stocked.

(** A game in the middle of a tick: pellet 0 staged twice, sprite 1
    staged, hazards 7 and 0 staged in that order. *)
Definition midTick : State :=
  mkState 800 600 Demo.gameData [0%nat; 1%nat] [0%nat; 1%nat; 2%nat]
    [0%nat; 1%nat; 2%nat] [0%nat; 0%nat] [1%nat] [7%nat; 0%nat] 1
    (Some true) (Some false) ∅ ∅ ∅ 8%nat 1 0%nat [] [].

(** The page with two sprites side by side, the first able to eat the
    second, at frame 1 of the animation loop. *)
Definition arena : State :=
  mkState 0 0 Demo.gameData [] [] [] [] [] [] 0 None None
    (list_to_map [(0%nat, Sprite.mk 400 300 20 50 0);
                  (1%nat, Sprite.mk 410 300 10 30 0)])
    ∅ ∅ 0%nat 1 0%nat [] [].

(** [addPlayer] of a sprite that has its colours. *)
Definition added (player : ref) (w : State) : State :=
  match addPlayer chooseColors true player w with
  | Returned w | Threw w => w
  end.

(** Sprite 0 added, then sprite 1, then sprite 0 once more; one pellet
    placed; started. *)
Definition doubled : State :=
  start
    (placePellets Demo.random 1
       (added 0%nat (added 1%nat (added 0%nat
          (Game_new 800 600 Demo.gameData arena))))).

(** The configuration of [Demo] with a life span of 0 for the hazards, and
    a game made with it: sprite 0 added, two pellets placed, started. *)
Definition briefData : GameData.t :=
  GameData.mk Demo.spritesData Demo.pelletsData
    (BlackHolesData.mk 30 100 0 60
       (BlackHolesData.canSuckPellet Demo.blackHolesData)
       (BlackHolesData.canSuckSprite Demo.blackHolesData)).

Definition brief : State :=
  start
    (placePellets Demo.random 2
       (added 0%nat (Game_new 800 600 briefData page))).

End Play.

(** ** Invariants of the game *)

(** What no step of a tick writes: the canvas, the configuration, the
    counters, the flags and the console. *)
Definition fixed (w : State) :=
  (env_width w, env_height w, data w, framesElapsed w, started w, paused w,
   frameCount w, console w).

(** What the loops of a tick leave alone besides: the three live
    collections, the pellet objects, the allocator and the generator. *)
Definition steady (w : State) :=
  (fixed w, players w, pellets w, blackHoles w, pelletObj w, nextRef w, seed w).

(** No collection holds an object twice, and the pellets and hazards of
    the game are older than the next object to be made. *)
Definition tidy (w : State) : Prop :=
  NoDup (players w) ∧ NoDup (pellets w) ∧ NoDup (blackHoles w) ∧
  (∀ p, p ∈ pellets w → (p < nextRef w)%nat) ∧
  (∀ b, b ∈ blackHoles w → (b < nextRef w)%nat).

(** From [w] to [w'] nothing was made and nothing drawn: the collections
    only lost members, in place. *)
Definition shrunk (w w' : State) : Prop :=
  fixed w' = fixed w ∧ pelletObj w' = pelletObj w ∧
  nextRef w' = nextRef w ∧ seed w' = seed w ∧
  players w' `sublist_of` players w ∧ pellets w' `sublist_of` pellets w ∧
  blackHoles w' `sublist_of` blackHoles w.

(** [everyOther k l]: [k] times over, drop one element of [l] and keep the
    next; the rest of [l] is kept. *)
Fixpoint everyOther (k : nat) (l : list ref) : list ref :=
  match k, l with
  | S k, _ :: b :: l => b :: everyOther k l
  | S _, _ => []
  | O, l => l
  end.

(** The hazard [b] is out of life once display() has been called on it. *)
Definition diesNow (displayHole : BlackHole.t → BlackHole.t)
    (ho : gmap ref BlackHole.t) (b : ref) : bool :=
  match ho !! b with
  | Some bh => BlackHole.isDead (displayHole bh)
  | None => false
  end.

(** Nothing is waiting to be flushed. *)
Definition flushed (w : State) : Prop :=
  eatenPellets w = [] ∧ eatenSprites w = [] ∧ deadBlackHoles w = [].

(** A pellet as placePellets makes it: the configured value, or the value
    function applied to the pellet's own size; the configured size when it
    is a number. *)
Definition asConfigured (cfg : PelletsData.t) (pl : Pellet.t) : Prop :=
  Pellet.value pl
  = match PelletsData.value cfg with
    | ValueNumber n => n
    | ValueFunction f => f (Pellet.size pl)
    end ∧
  ∀ n, PelletsData.size cfg = SizeNumber n → Pellet.size pl = n.

(** How many pellets a tick supplies. *)
Definition supply (w : State) : nat :=
  if remIsZero (framesElapsed w)
       (PelletsData.newPelletsInterval (GameData.pellets (data w)))
  then Z.to_nat (PelletsData.newQuantity (GameData.pellets (data w)))
  else 0%nat.

(** The hazard a tick spawns, if any. *)
Definition spawned (w : State) : list ref :=
  if remIsZero (frameCount w)
       (BlackHolesData.spawnInterval (GameData.blackHoles (data w)))
  then [nextRef w] else [].

Section Reach.

Context
  (random : nat → Z → Z) (chooseColors : nat → nat * bool)
  (control : Sprite.t → Sprite.t)
  (displayHole : BlackHole.t → BlackHole.t) (growth drain : Z → Z).

(** The states a driver can bring a game to: it constructs the game, adds
    sprites that are not yet players, places players and pellets, starts,
    pauses and continues, lets the animation loop count, passes the count
    on, and calls run(). *)
Inductive reachable : State → Prop :=
| reach_new cw ch d page : reachable (Game_new cw ch d page)
| reach_addPlayer coloured player w w' :
    reachable w → player ∉ players w →
    addPlayer chooseColors coloured player w = Returned w' → reachable w'
| reach_addPlayer_threw coloured player w w' :
    reachable w →
    addPlayer chooseColors coloured player w = Threw w' → reachable w'
| reach_placePlayers w : reachable w → reachable (placePlayers random w)
| reach_placePellets qty w :
    reachable w → reachable (placePellets random qty w)
| reach_start w : reachable w → reachable (start w)
| reach_pause w : reachable w → reachable (pause w)
| reach_continue w : reachable w → reachable (continue w)
| reach_frame n w : reachable w → reachable (set_frameCount n w)
| reach_update n w : reachable w → reachable (update n w)
| reach_run w :
    reachable w → reachable (run random control displayHole growth drain w).

End Reach.

(** ** Hazards over the life of a game *)

(** display() with the countdown of the specification in it: one off the
    life span, once per tick the hazard is live. *)
Definition countsDown (displayHole : BlackHole.t → BlackHole.t) : Prop :=
  ∀ bh, BlackHole.lifeSpan (displayHole bh) = BlackHole.lifeSpan bh - 1.

(** The life span spawnBlackHole gives a new hazard. *)
Definition lifeSpanOf (w : State) : Z :=
  BlackHolesData.lifeSpan (GameData.blackHoles (data w)).

(** The hazards of [l] have their objects, and life spans that increase
    along [l], all above [lo] and below [hi]. *)
Fixpoint ascending (ho : gmap ref BlackHole.t) (lo hi : Z) (l : list ref) :
    Prop :=
  match l with
  | [] => True
  | b :: l =>
      ∃ bh, ho !! b = Some bh ∧
            lo < BlackHole.lifeSpan bh < hi ∧
            ascending ho (BlackHole.lifeSpan bh) hi l
  end.

(** The hazards between two calls: none held twice, all older than the
    next object, none staged, the oldest first with the least life left,
    every one with life left and less than a new hazard gets. *)
Definition orderly (w : State) : Prop :=
  NoDup (blackHoles w) ∧
  (∀ b, b ∈ blackHoles w → (b < nextRef w)%nat) ∧
  deadBlackHoles w = [] ∧
  ascending (holeObj w) 0 (lifeSpanOf w) (blackHoles w).

(** The hazard [b] is among those the loop of lines 253-288 visits when
    run() is called on [w]. *)
Definition takesPart (b : ref) (w : State) : bool :=
  truthy (started w) && negb (truthy (paused w))
  && bool_decide (b ∈ blackHoles w ++ spawned w).

(** C6 as worded: in the tick from [w] to [w'] there is at most one meal
    between any two distinct live sprites, in either direction. *)
Definition pairwiseExclusive (w w' : State) : Prop :=
  ∀ a b, a ∈ players w → b ∈ players w → a ≠ b →
    (length (filter (λ m, m = (a, b) ∨ m = (b, a)) (meals (newEvents w w')))
     ≤ 1)%nat.

Section Driver.

Context
  (random : nat → Z → Z) (chooseColors : nat → nat * bool)
  (control : Sprite.t → Sprite.t)
  (displayHole : BlackHole.t → BlackHole.t) (growth drain : Z → Z).

(** One call of a method other than run(), or the animation loop moving
    on to another frame. *)
Inductive call : State → State → Prop :=
| call_addPlayer coloured player w w' :
    addPlayer chooseColors coloured player w = Returned w' → call w w'
| call_addPlayer_threw coloured player w w' :
    addPlayer chooseColors coloured player w = Threw w' → call w w'
| call_placePlayers w : call w (placePlayers random w)
| call_placePellets qty w : call w (placePellets random qty w)
| call_start w : call w (start w)
| call_pause w : call w (pause w)
| call_continue w : call w (continue w)
| call_frame n w : call w (set_frameCount n w)
| call_update n w : call w (update n w).

(** The games a driver brings about: the constructor, then any calls
    and any calls of run(). *)
Inductive driven : State → Prop :=
| driven_new cw ch d page : driven (Game_new cw ch d page)
| driven_call w w' : driven w → call w w' → driven w'
| driven_run w :
    driven w → driven (run random control displayHole growth drain w).

(** [played k w w']: the driver takes the game from [w] to [w'], and
    exactly [k] of its calls of run() got past the guard. *)
Inductive played : nat → State → State → Prop :=
| played_none w : played 0 w w
| played_call k w w1 w2 : played k w w1 → call w1 w2 → played k w w2
| played_idle k w w1 :
    played k w w1 → ¬ running w1 →
    played k w (run random control displayHole growth drain w1)
| played_tick k w w1 :
    played k w w1 → running w1 →
    played (S k) w (run random control displayHole growth drain w1).

(** In how many of [n] calls of run() in a row, from [w] on, the hazard
    [b] takes part. *)
Fixpoint ticksPresent (b : ref) (n : nat) (w : State) : nat :=
  match n with
  | O => O
  | S n =>
      ((if takesPart b w then 1 else 0)
       + ticksPresent b n (run random control displayHole growth drain w))%nat
  end.

(** C1 as worded, its last part: a hazard spawned in the tick on [w] takes
    part in as many ticks as its life span says, however long run() goes
    on being called. *)
Definition presentForLifeSpan (w : State) : Prop :=
  ∀ b, running w → spawned w = [b] →
    ∃ n0, ∀ n, (n0 ≤ n)%nat → Z.of_nat (ticksPresent b n w) = lifeSpanOf w.

End Driver.

(** ** Proof steps on states *)

(** Unfold the field updates, innermost first. *)
Ltac state_cbv :=
  cbv [logged log1 foldl touched emit set_trace set_blackHoles
    set_deadBlackHoles set_eatenSprites set_eatenPellets set_seed set_nextRef
    set_holeObj set_spriteObj set_pelletObj set_pellets set_players
    set_console set_started set_paused set_framesElapsed
    core summary supplied
    env_width env_height data players pellets blackHoles eatenPellets
    eatenSprites deadBlackHoles framesElapsed started paused spriteObj
    pelletObj holeObj nextRef frameCount seed console trace].

Ltac state_refl := state_cbv; reflexivity.

(** * Properties *)

Section Properties.

Context
  (random : nat → Z → Z) (control : Sprite.t → Sprite.t)
  (displayHole : BlackHole.t → BlackHole.t) (growth drain : Z → Z).

Local Abbreviation Run := (run random control displayHole growth drain).
Local Abbreviation Tick := (tick random control displayHole growth drain).

(** ** Arrays: indexOf, splice and the flush loops *)

Section Arrays.

Implicit Types (l live staged : list ref) (x y : ref).

Lemma indexOfFrom_notin x l i : x ∉ l → indexOfFrom x l i = -1.
Proof.
  revert i. induction l as [|y l IH]; intros i Hx; simpl; [done|].
  apply not_elem_of_cons in Hx as [Hxy Hx].
  destruct (decide (x = y)); [done|]. by apply IH.
Qed.

Lemma indexOfFrom_in x l i :
  x ∈ l →
  ∃ n : nat, indexOfFrom x l i = i + Z.of_nat n ∧ l !! n = Some x.
Proof.
  revert i. induction l as [|y l IH]; intros i Hx; simpl.
  - by apply elem_of_nil in Hx.
  - destruct (decide (x = y)) as [->|Hne].
    + exists 0%nat. split; [lia|done].
    + apply elem_of_cons in Hx as [?|Hx]; [done|].
      destruct (IH (i + 1) Hx) as (n & Hn & Hl).
      exists (S n). split; [lia|done].
Qed.

Lemma splice1_nat {A} (n : nat) (k : list A) :
  splice1 (Z.of_nat n) k = delete n k.
Proof.
  unfold splice1. destruct (Z.ltb_spec (Z.of_nat n) 0) as [?|_]; [lia|].
  destruct (decide (n ≤ length k)%nat) as [Hle|Hgt].
  - by rewrite Z.min_l, Nat2Z.id by lia.
  - rewrite Z.min_r, Nat2Z.id by lia.
    rewrite !delete_take_drop, !take_ge, !drop_ge by lia. done.
Qed.

(** A lookup that fails makes splice drop the last element. *)
Lemma splice1_minus1 {A} (k : list A) :
  splice1 (-1) k = take (length k - 1) k.
Proof.
  unfold splice1. simpl.
  destruct k as [|a k]; [done|].
  rewrite Z.max_l by (simpl length; lia).
  replace (Z.to_nat (Z.of_nat (length (a :: k)) + -1)) with (length k)
    by (simpl length; lia).
  rewrite delete_take_drop, (drop_ge _ (S (length k))) by (simpl; lia).
  rewrite app_nil_r. f_equal. simpl. lia.
Qed.

Lemma splice1_sublist {A} (i : Z) (k : list A) : splice1 i k `sublist_of` k.
Proof. apply sublist_delete. Qed.

Lemma removeByIndexOf_sublist live x :
  removeByIndexOf live x `sublist_of` live.
Proof. apply splice1_sublist. Qed.

Lemma removeByIndexOf_found live x (n : nat) :
  indexOf x live = Z.of_nat n → removeByIndexOf live x = delete n live.
Proof. unfold removeByIndexOf. intros ->. apply splice1_nat. Qed.

Lemma delete_NoDup_gone live x (n : nat) :
  NoDup live → live !! n = Some x → x ∉ delete n live.
Proof.
  intros Hnd Hn. rewrite delete_take_drop.
  rewrite <- (take_drop_middle live n x Hn) in Hnd.
  apply NoDup_app in Hnd as (_ & Hdis & Hnd).
  apply NoDup_cons in Hnd as [Hx _].
  apply not_elem_of_app. split; [|done].
  intros Hin. apply (Hdis x Hin). left.
Qed.

Lemma removeByIndexOf_gone live x :
  NoDup live → x ∉ removeByIndexOf live x.
Proof.
  intros Hnd. destruct (decide (x ∈ live)) as [Hin|Hout].
  - destruct (indexOfFrom_in x live 0 Hin) as (n & Hn & Hl).
    rewrite (removeByIndexOf_found live x n) by (unfold indexOf; lia).
    by apply delete_NoDup_gone.
  - intros Hin. apply Hout.
    eapply elem_of_sublist; [done|apply removeByIndexOf_sublist].
Qed.

Lemma flush_sublist staged live : flush staged live `sublist_of` live.
Proof.
  unfold flush. revert live.
  induction staged as [|x staged IH]; intros live; simpl; [done|].
  etrans; [apply IH|apply removeByIndexOf_sublist].
Qed.

(** Whatever is staged is gone from a duplicate-free collection once the
    flush is over, however often it was staged. *)
Lemma flush_gone staged live x :
  NoDup live → x ∈ staged → x ∉ flush staged live.
Proof.
  unfold flush. revert live.
  induction staged as [|y staged IH]; intros live Hnd Hx; simpl.
  - by apply elem_of_nil in Hx.
  - assert (NoDup (removeByIndexOf live y)) as Hnd'
      by (eapply sublist_NoDup; [done|apply removeByIndexOf_sublist]).
    apply elem_of_cons in Hx as [->|Hx]; [|by apply IH].
    intros Hin. apply (removeByIndexOf_gone live y Hnd).
    eapply elem_of_sublist; [done|apply (flush_sublist staged)].
Qed.

Lemma filter_ne_middle l1 l2 x :
  x ∉ l1 → x ∉ l2 → filter (λ y, y ≠ x) (l1 ++ x :: l2) = l1 ++ l2.
Proof.
  assert (∀ l, x ∉ l → filter (λ y, y ≠ x) l = l) as Hid.
  { induction l as [|z l IH]; intros Hz; [done|].
    apply not_elem_of_cons in Hz as [Hne Hz].
    rewrite filter_cons_True by congruence. by rewrite IH. }
  intros H1 H2. rewrite filter_app, filter_cons_False by (intros ?; done).
  by rewrite !Hid.
Qed.

Lemma removeByIndexOf_filter live x :
  NoDup live → x ∈ live →
  removeByIndexOf live x = filter (λ y, y ≠ x) live.
Proof.
  intros Hnd Hin.
  destruct (indexOfFrom_in x live 0 Hin) as (n & Hn & Hl).
  rewrite (removeByIndexOf_found live x n) by (unfold indexOf; lia).
  rewrite delete_take_drop.
  pose proof (take_drop_middle live n x Hl) as Hmid.
  rewrite <- Hmid in Hnd.
  apply NoDup_app in Hnd as (_ & Hdis & Hnd).
  apply NoDup_cons in Hnd as [Hx _].
  rewrite <- Hmid at 3.
  rewrite filter_ne_middle; [done| |done].
  intros Hin'. apply (Hdis x Hin'). left.
Qed.

(** When nothing is staged twice and everything staged is live, the flush
    removes the staged references and nothing else. *)
Lemma flush_exact staged live :
  NoDup live → NoDup staged → staged ⊆ live →
  flush staged live = filter (λ y, y ∉ staged) live.
Proof.
  unfold flush. revert live.
  induction staged as [|x staged IH]; intros live Hnd Hst Hsub; simpl.
  - clear. induction live as [|z live IHl]; [done|].
    rewrite filter_cons_True by apply not_elem_of_nil.
    by rewrite <- IHl.
  - apply NoDup_cons in Hst as [Hx Hst].
    assert (x ∈ live) as Hin by (apply Hsub; left).
    rewrite removeByIndexOf_filter by done.
    rewrite IH.
    + rewrite list_filter_filter. apply list_filter_iff.
      intros y. rewrite not_elem_of_cons. tauto.
    + by apply NoDup_filter.
    + done.
    + intros y Hy. apply list_elem_of_filter. split.
      * intros ->. done.
      * apply Hsub. by right.
Qed.

(** Staged but no longer live: the splice takes the last live reference
    instead. *)
Lemma removeByIndexOf_missing live x :
  x ∉ live → removeByIndexOf live x = take (length live - 1) live.
Proof.
  intros Hx. unfold removeByIndexOf, indexOf.
  rewrite indexOfFrom_notin by done. apply splice1_minus1.
Qed.

End Arrays.

(** ** The event-making steps *)

Lemma touched_same w :
  touched (spriteObj w) (holeObj w) (nextRef w) (seed w) w = w.
Proof. by destruct w. Qed.

Lemma touched_log1 so ho n sd e w :
  touched so ho n sd (log1 e w) = log1 e (touched so ho n sd w).
Proof. destruct e; state_refl. Qed.

Lemma logged_cons e evs w : logged (e :: evs) w = logged evs (log1 e w).
Proof. unfold logged. reflexivity. Qed.

Lemma touched_logged so ho n sd evs w :
  touched so ho n sd (logged evs w) = logged evs (touched so ho n sd w).
Proof.
  revert w. induction evs as [|e evs IH]; intros w; [reflexivity|].
  rewrite !logged_cons, IH, touched_log1. reflexivity.
Qed.

Lemma logged_app e1 e2 w : logged (e1 ++ e2) w = logged e2 (logged e1 w).
Proof. apply foldl_app. Qed.

Lemma logged_touched e1 e2 so1 ho1 n1 sd1 so2 ho2 n2 sd2 w :
  logged e2 (touched so2 ho2 n2 sd2 (logged e1 (touched so1 ho1 n1 sd1 w)))
  = logged (e1 ++ e2) (touched so2 ho2 n2 sd2 w).
Proof. rewrite touched_logged, logged_app. f_equal. Qed.

Lemma core_logged evs w : core (logged evs w) = core w.
Proof.
  revert w. induction evs as [|e evs IH]; intros w; [reflexivity|].
  rewrite logged_cons, IH. destruct e; state_refl.
Qed.

Lemma nextRef_logged evs w : nextRef (logged evs w) = nextRef w.
Proof.
  revert w. induction evs as [|e evs IH]; intros w; [reflexivity|].
  rewrite logged_cons, IH. destruct e; state_refl.
Qed.

Lemma Shape_intro (Q : list event → Prop) w w' evs so ho n sd :
  w' = logged evs (touched so ho n sd w) → (nextRef w ≤ n)%nat → Q evs →
  Shape Q w w'.
Proof. intros. exists evs, so, ho, n, sd. auto. Qed.

Lemma Shape_refl (Q : list event → Prop) w : Q [] → Shape Q w w.
Proof.
  intros HQ. exists [], (spriteObj w), (holeObj w), (nextRef w), (seed w).
  rewrite touched_same. split; [reflexivity|]. split; [lia|done].
Qed.

Lemma Shape_trans (Q : list event → Prop) w1 w2 w3 :
  (∀ e1 e2, Q e1 → Q e2 → Q (e1 ++ e2)) →
  Shape Q w1 w2 → Shape Q w2 w3 → Shape Q w1 w3.
Proof.
  intros Happ (e1 & so1 & ho1 & n1 & sd1 & -> & N1 & H1)
    (e2 & so2 & ho2 & n2 & sd2 & -> & N2 & H2).
  exists (e1 ++ e2), so2, ho2, n2, sd2. split; [apply logged_touched|].
  split; [|auto]. rewrite nextRef_logged in N2.
  change (nextRef (touched so1 ho1 n1 sd1 w1)) with n1 in N2. lia.
Qed.

Lemma Shape_weaken (Q Q' : list event → Prop) w w' :
  (∀ evs, Q evs → Q' evs) → Shape Q w w' → Shape Q' w w'.
Proof.
  intros HQ (evs & so & ho & n & sd & -> & N & H). exists evs, so, ho, n, sd.
  auto.
Qed.

Lemma Shape_core Q w w' : Shape Q w w' → core w' = core w.
Proof.
  intros (evs & so & ho & n & sd & -> & _). rewrite core_logged. state_refl.
Qed.

Lemma Shape_nextRef Q w w' : Shape Q w w' → (nextRef w ≤ nextRef w')%nat.
Proof.
  intros (evs & so & ho & n & sd & -> & N & _). by rewrite nextRef_logged.
Qed.

Lemma core_data w w' : core w' = core w → data w' = data w.
Proof. unfold core. by intros [=]. Qed.

Lemma core_players w w' : core w' = core w → players w' = players w.
Proof. unfold core. by intros [=]. Qed.

Lemma core_pellets w w' : core w' = core w → pellets w' = pellets w.
Proof. unfold core. by intros [=]. Qed.

Lemma core_pelletObj w w' : core w' = core w → pelletObj w' = pelletObj w.
Proof. unfold core. by intros [=]. Qed.

(** A loop whose every turn has shape [Q] has shape [Q]. *)
Lemma forEach_Shape {A} (Q : list event → Prop) (l : list A)
    (body : A → State → State) w0 :
  Q [] → (∀ e1 e2, Q e1 → Q e2 → Q (e1 ++ e2)) →
  (∀ x w, x ∈ l → core w = core w0 → Shape Q w (body x w)) →
  Shape Q w0 (forEach l body w0).
Proof.
  intros Hnil Happ Hbody. unfold forEach.
  assert (∀ w, core w = core w0 → Shape Q w (foldl (λ w x, body x w) w l))
    as Hgen; [|by apply Hgen].
  induction l as [|x l IH]; intros w Hw; simpl.
  - by apply Shape_refl.
  - assert (Shape Q w (body x w)) as Hx by (apply Hbody; [left|done]).
    eapply Shape_trans; [done|exact Hx|].
    apply IH.
    + intros y w' Hy. apply Hbody. by right.
    + by rewrite (Shape_core _ _ _ Hx).
Qed.

Lemma hazardLog_app e1 e2 : hazardLog e1 → hazardLog e2 → hazardLog (e1 ++ e2).
Proof.
  intros H1 H2. induction H1; simpl.
  - done.
  - by apply hl_pellet.
  - by apply hl_sprite.
  - by apply hl_drained.
  - by apply hl_dead.
Qed.

Lemma mealLog_app value ps1 ps2 e1 e2 :
  mealLog value ps1 e1 → mealLog value ps2 e2 →
  mealLog value (ps1 ++ ps2) (e1 ++ e2).
Proof.
  intros H1 H2. induction H1; simpl.
  - done.
  - by apply ml_none.
  - by apply ml_first.
  - by apply ml_second.
Qed.

Lemma hazardQ_nil pl : hazardQ pl [].
Proof. split; [constructor|]. simpl. apply list_subseteq_nil. Qed.

Lemma hazardQ_app pl e1 e2 : hazardQ pl e1 → hazardQ pl e2 → hazardQ pl (e1 ++ e2).
Proof.
  intros [H1 S1] [H2 S2]. split; [by apply hazardLog_app|].
  rewrite omap_app. intros x Hx. apply elem_of_app in Hx as [?|?]; auto.
Qed.

Lemma suckPellets_Shape b w :
  Shape (hazardQ (pellets w)) w (suckPellets b w).
Proof.
  unfold suckPellets.
  apply forEach_Shape; [apply hazardQ_nil|apply hazardQ_app|].
  intros p w' Hp Hcore. unfold suckPelletIfCan.
  destruct (holeObj w' !! b) as [bh|]; [|apply Shape_refl, hazardQ_nil].
  destruct (pelletObj w' !! p) as [pl|]; [|apply Shape_refl, hazardQ_nil].
  destruct (BlackHolesData.canSuckPellet _ bh pl);
    [|apply Shape_refl, hazardQ_nil].
  apply (Shape_intro _ _ _ [SuckedPellet b p] (spriteObj w') (holeObj w')
           (nextRef w') (seed w')); [|lia|].
  - unfold BlackHole_suckPellet. state_refl.
  - split; [repeat constructor|]. simpl.
    intros x Hx. apply list_elem_of_singleton in Hx as ->. done.
Qed.

Lemma suckSprites_Shape b w :
  Shape (hazardQ (pellets w)) w (suckSprites drain b w).
Proof.
  unfold suckSprites.
  apply forEach_Shape; [apply hazardQ_nil|apply hazardQ_app|].
  intros s w' Hs Hcore. unfold suckSpriteIfCan, BlackHole_suckSprite.
  destruct (holeObj w' !! b) as [bh|]; [|apply Shape_refl, hazardQ_nil].
  destruct (spriteObj w' !! s) as [sp|]; [|apply Shape_refl, hazardQ_nil].
  destruct (BlackHolesData.canSuckSprite _ bh sp);
    [|apply Shape_refl, hazardQ_nil].
  simpl. rewrite lookup_insert_eq. simpl.
  set (left := Sprite.actualSize sp - drain (BlackHole.power bh)).
  set (so := <[s:=Sprite.set_actualSize left sp]> (spriteObj w')).
  destruct (Z.leb_spec left 0) as [Hle|Hgt].
  - apply (Shape_intro _ _ _ [SuckedSprite b s left; StagedSprite s] so
             (holeObj w') (nextRef w') (seed w')); [|lia|].
    + state_refl.
    + split; [by repeat constructor|]. simpl. apply list_subseteq_nil.
  - apply (Shape_intro _ _ _ [SuckedSprite b s left] so (holeObj w')
             (nextRef w') (seed w')); [|lia|].
    + state_refl.
    + split; [by repeat constructor|]. simpl. apply list_subseteq_nil.
Qed.

Lemma controlBlackHole_Shape b w :
  Shape (hazardQ (pellets w)) w (controlBlackHole displayHole drain b w).
Proof.
  unfold controlBlackHole.
  set (w1 := set_holeObj _ w).
  assert (Shape (hazardQ (pellets w)) w w1) as H1.
  { apply (Shape_intro _ _ _ [] (spriteObj w)
             (alter displayHole b (holeObj w)) (nextRef w) (seed w));
      [|lia|apply hazardQ_nil].
    subst w1. state_refl. }
  pose proof (suckPellets_Shape b w1) as H2.
  replace (pellets w1) with (pellets w) in H2 by done.
  set (w2 := suckPellets b w1) in *.
  pose proof (suckSprites_Shape b w2) as H3.
  replace (pellets w2) with (pellets w) in H3
    by (symmetry; apply core_pellets;
        rewrite (Shape_core _ _ _ H2); apply (Shape_core _ _ _ H1)).
  set (w3 := suckSprites drain b w2) in *.
  assert (Shape (hazardQ (pellets w)) w w3) as H123.
  { eapply Shape_trans; [apply hazardQ_app| |exact H3].
    eapply Shape_trans; [apply hazardQ_app|exact H1|exact H2]. }
  destruct (holeObj w3 !! b) as [bh|]; [|done].
  destruct (BlackHole.isDead bh); [|done].
  eapply Shape_trans; [apply hazardQ_app|exact H123|].
  apply (Shape_intro _ _ _ [StagedHole b] (spriteObj w3) (holeObj w3)
           (nextRef w3) (seed w3)); [|lia|].
  - state_refl.
  - split; [repeat constructor|]. simpl. apply list_subseteq_nil.
Qed.

Lemma controlBlackHoles_Shape w :
  Shape (hazardQ (pellets w)) w (controlBlackHoles displayHole drain w).
Proof.
  unfold controlBlackHoles.
  apply forEach_Shape; [apply hazardQ_nil|apply hazardQ_app|].
  intros b w' _ Hcore. rewrite <- (core_pellets _ _ Hcore).
  apply controlBlackHole_Shape.
Qed.

Lemma spawnBlackHole_Shape i w :
  Shape (λ evs,
           evs = if remIsZero (frameCount w) i then [Spawned (nextRef w)] else [])
    w (spawnBlackHole random i w).
Proof.
  unfold spawnBlackHole.
  destruct (remIsZero (frameCount w) i); [|by apply Shape_refl].
  eapply (Shape_intro _ _ _ [Spawned (nextRef w)] (spriteObj w) _
            (S (nextRef w)) _); [|lia|done].
  unfold roundRandom. state_refl.
Qed.

Lemma controlSprites_Shape w :
  Shape (λ evs, evs = []) w (controlSprites control w).
Proof.
  unfold controlSprites. apply forEach_Shape; [done|by intros ?? -> ->|].
  intros s w' _ _.
  apply (Shape_intro _ _ _ [] (alter control s (spriteObj w')) (holeObj w')
           (nextRef w') (seed w')); [|lia|done].
  state_refl.
Qed.

Lemma pelletQ_nil po pl : pelletQ growth po pl [].
Proof. split; [constructor|]. simpl. apply list_subseteq_nil. Qed.

Lemma pelletQ_app po pl e1 e2 :
  pelletQ growth po pl e1 → pelletQ growth po pl e2 →
  pelletQ growth po pl (e1 ++ e2).
Proof.
  intros [H1 S1] [H2 S2]. split; [by apply Forall_app|].
  rewrite omap_app. intros x Hx. apply elem_of_app in Hx as [?|?]; auto.
Qed.

Lemma spritesEatPellets_Shape w :
  Shape (pelletQ growth (pelletObj w) (pellets w)) w
    (spritesEatPellets growth w).
Proof.
  unfold spritesEatPellets.
  apply forEach_Shape; [apply pelletQ_nil|apply pelletQ_app|].
  intros s w1 _ Hcore1.
  rewrite (core_pellets _ _ Hcore1).
  eapply Shape_weaken; [|apply (forEach_Shape
    (pelletQ growth (pelletObj w) (pellets w)));
      [apply pelletQ_nil|apply pelletQ_app|]]; [done|].
  intros p w2 Hp Hcore2. unfold eatPelletIfCan, Sprite_eatPellet.
  destruct (spriteObj w2 !! s) as [sp|]; [|apply Shape_refl, pelletQ_nil].
  destruct (pelletObj w2 !! p) as [pl|] eqn:Hpl;
    [|apply Shape_refl, pelletQ_nil].
  destruct (SpritesData.canEatPellet _ sp pl);
    [|apply Shape_refl, pelletQ_nil].
  simpl. rewrite lookup_insert_eq. simpl.
  eapply (Shape_intro _ _ _
            [AtePellet s p (Sprite.actualSize sp)
               (Sprite.actualSize sp + growth (Pellet.value pl))]
            _ (holeObj w2) (nextRef w2) (seed w2)); [|lia|].
  - state_refl.
  - split.
    + constructor; [|constructor]. exists s, p, pl, (Sprite.actualSize sp).
      split; [|done].
      rewrite <- (core_pelletObj _ _ Hcore1), <- (core_pelletObj _ _ Hcore2).
      done.
    + simpl. intros x Hx. apply list_elem_of_singleton in Hx as ->. done.
Qed.

Lemma valueThenEat_logged winner victim w vic :
  is_Some (spriteObj w !! winner) →
  spriteObj w !! victim = Some vic →
  ∃ so,
    valueThenEat winner victim w
    = logged [ValueSet victim vic
                (SpritesData.value (GameData.sprites (data w)) (Sprite.size vic));
              AteSprite winner victim]
        (touched so (holeObj w) (nextRef w) (seed w) w).
Proof.
  intros [sw Hsw] Hvic. unfold valueThenEat, Sprite_eatOtherSprite.
  rewrite Hvic. simpl. rewrite lookup_insert_eq.
  destruct (decide (victim = winner)) as [->|Hne].
  - rewrite lookup_insert_eq. eexists.
    state_refl.
  - rewrite lookup_insert_ne, Hsw by done. eexists.
    state_refl.
Qed.

Lemma eatOrBeEaten_Shape a b w :
  Shape (mealLog (SpritesData.value (GameData.sprites (data w))) [(a, b)])
    w (eatOrBeEaten a b w).
Proof.
  unfold eatOrBeEaten.
  destruct (spriteObj w !! a) as [sa|] eqn:Ha;
    [|apply Shape_refl, ml_none, ml_nil].
  destruct (spriteObj w !! b) as [sb|] eqn:Hb;
    [|apply Shape_refl, ml_none, ml_nil].
  simpl.
  destruct (SpritesData.canEatSprite _ sa sb).
  - destruct (valueThenEat_logged a b w sb) as [so ->]; [by eexists|done|].
    eapply Shape_intro; [reflexivity|lia|]. apply ml_first, ml_nil.
  - destruct (SpritesData.canEatSprite _ sb sa).
    + destruct (valueThenEat_logged b a w sa) as [so ->]; [by eexists|done|].
      eapply Shape_intro; [reflexivity|lia|]. apply ml_second, ml_nil.
    + apply Shape_refl, ml_none, ml_nil.
Qed.

Lemma pairTurns_Shape ps w :
  Shape (mealLog (SpritesData.value (GameData.sprites (data w))) ps)
    w (foldl pairTurn w ps).
Proof.
  revert w. induction ps as [|[a b] ps IH]; intros w.
  - apply Shape_refl. constructor.
  - change (foldl pairTurn w ((a, b) :: ps))
      with (foldl pairTurn (pairTurn w (a, b)) ps).
    assert (Shape (mealLog (SpritesData.value (GameData.sprites (data w)))
                     [(a, b)]) w (pairTurn w (a, b))) as H1
      by apply eatOrBeEaten_Shape.
    pose proof (IH (pairTurn w (a, b))) as H2.
    rewrite (core_data _ _ (Shape_core _ _ _ H1)) in H2.
    pose proof (Shape_nextRef _ _ _ H1) as N.
    destruct H1 as (e1 & so1 & ho1 & n1 & sd1 & E1 & N1 & Q1).
    destruct H2 as (e2 & so2 & ho2 & n2 & sd2 & E2 & N2 & Q2).
    apply (Shape_intro _ _ _ (e1 ++ e2) so2 ho2 n2 sd2); [|lia|].
    + rewrite E2, E1. apply logged_touched.
    + apply (mealLog_app _ [(a, b)] ps); done.
Qed.

Lemma forEach_pairTurn a l w :
  forEach l (eatOrBeEaten a) w = foldl pairTurn w (pair a <$> l).
Proof.
  unfold forEach. revert w. induction l as [|b l IH]; intros w; simpl; [done|].
  apply IH.
Qed.

Lemma pairTurns_players ps w : players (foldl pairTurn w ps) = players w.
Proof. apply core_players, (Shape_core _ _ _ (pairTurns_Shape ps w)). Qed.

(** The nested loops visit the pairs of [pairs], in that order. *)
Lemma spritesEatSprites_pairs w :
  spritesEatSprites w = foldl pairTurn w (pairs (players w)).
Proof.
  unfold spritesEatSprites.
  assert (∀ l2 l1 w',
    players w' = l1 ++ l2 →
    forEachFrom (length l1) l2
      (λ player i w, forEach (drop (S i) (players w)) (eatOrBeEaten player) w) w'
    = foldl pairTurn w' (pairs l2)) as Hgen.
  { induction l2 as [|a l2 IH]; intros l1 w' Hpl; simpl; [done|].
    rewrite Hpl.
    assert (drop (S (length l1)) (l1 ++ a :: l2) = l2) as ->.
    { rewrite (cons_middle a l1 l2), app_assoc. apply drop_app_length'.
      rewrite length_app. simpl. lia. }
    rewrite forEach_pairTurn, foldl_app.
    replace (S (length l1)) with (length (l1 ++ [a]))
      by (rewrite length_app; simpl; lia).
    apply IH. rewrite pairTurns_players, Hpl, <- app_assoc. done. }
  apply (Hgen (players w) [] w). done.
Qed.

Lemma spritesEatSprites_Shape w :
  Shape (mealLog (SpritesData.value (GameData.sprites (data w)))
           (pairs (players w)))
    w (spritesEatSprites w).
Proof. rewrite spritesEatSprites_pairs. apply pairTurns_Shape. Qed.

(** ** The flushes and the pellet supply *)

Lemma logged_eq evs w :
  logged evs w
  = set_trace (trace w ++ evs)
      (set_blackHoles (blackHoles w ++ omap spawnOf evs)
         (set_deadBlackHoles (deadBlackHoles w ++ omap holeOf evs)
            (set_eatenSprites (eatenSprites w ++ omap spriteOf evs)
               (set_eatenPellets (eatenPellets w ++ omap pelletOf evs) w)))).
Proof.
  revert w. induction evs as [|e evs IH]; intros w.
  - destruct w. state_cbv. simpl. rewrite !app_nil_r. reflexivity.
  - rewrite logged_cons, IH.
    destruct e; destruct w; state_cbv; simpl; rewrite <- ?app_assoc;
      reflexivity.
Qed.

Lemma removeEatenPellets_eq w :
  removeEatenPellets w
  = set_eatenPellets [] (set_pellets (flush (eatenPellets w) (pellets w)) w).
Proof.
  unfold removeEatenPellets, forEach. cbv zeta.
  assert (∀ l w0,
    foldl (λ w p, set_pellets (splice1 (indexOf p (pellets w)) (pellets w)) w) w0 l
    = set_pellets (flush l (pellets w0)) w0) as ->.
  { induction l as [|p l IH]; intros w0.
    - destruct w0. reflexivity.
    - change (foldl ?f w0 (p :: l)) with (foldl f (f w0 p) l).
      cbv beta. rewrite IH. destruct w0. state_refl. }
  destruct w. state_refl.
Qed.

Lemma removeEatenSprites_eq w :
  removeEatenSprites w
  = set_eatenSprites [] (set_players (flush (eatenSprites w) (players w)) w).
Proof.
  unfold removeEatenSprites, forEach. cbv zeta.
  assert (∀ l w0,
    foldl (λ w s, set_players (splice1 (indexOf s (players w)) (players w)) w) w0 l
    = set_players (flush l (players w0)) w0) as ->.
  { induction l as [|p l IH]; intros w0.
    - destruct w0. reflexivity.
    - change (foldl ?f w0 (p :: l)) with (foldl f (f w0 p) l).
      cbv beta. rewrite IH. destruct w0. state_refl. }
  destruct w. state_refl.
Qed.

(** The hazards are spliced out at the index they have in deadBlackHoles. *)
Lemma removeDeadBlackHoles_eq w :
  removeDeadBlackHoles w
  = set_deadBlackHoles []
      (set_blackHoles
         (flushByStagedIndex (deadBlackHoles w) (blackHoles w)) w).
Proof.
  unfold removeDeadBlackHoles, forEach, flushByStagedIndex. cbv zeta.
  generalize (deadBlackHoles w) at 1 3 as l.
  assert (∀ l w0,
    foldl (λ w b, set_blackHoles
                    (splice1 (indexOf b (deadBlackHoles w)) (blackHoles w)) w) w0 l
    = set_blackHoles
        (foldl (λ live x, splice1 (indexOf x (deadBlackHoles w0)) live)
           (blackHoles w0) l) w0) as Hgen.
  { induction l as [|p l IH]; intros w0.
    - destruct w0. reflexivity.
    - change (foldl ?f w0 (p :: l)) with (foldl f (f w0 p) l).
      cbv beta. rewrite IH. destruct w0. state_refl. }
  intros l. rewrite Hgen. destruct w. state_refl.
Qed.

Lemma placePellet_eq w :
  ∃ po sd,
    placePellet random w = supplied [nextRef w] po (S (nextRef w)) sd w.
Proof.
  unfold placePellet, roundRandom, supplied.
  destruct (PelletsData.size (GameData.pellets (data w)));
    eexists _, _; state_refl.
Qed.

Lemma placePellets_eq qty w :
  ∃ fresh po n sd,
    placePellets random qty w = supplied fresh po n sd w ∧
    Forall (λ p, (nextRef w ≤ p)%nat) fresh ∧ (nextRef w ≤ n)%nat.
Proof.
  unfold placePellets. induction (Z.to_nat qty) as [|k IH].
  - exists [], (pelletObj w), (nextRef w), (seed w). split; [|split; [done|lia]].
    simpl. destruct w. unfold supplied. state_cbv. by rewrite app_nil_r.
  - destruct IH as (fresh & po & n & sd & E & Hfresh & Hn).
    change (Nat.iter (S k) (placePellet random) w)
      with (placePellet random (Nat.iter k (placePellet random) w)).
    rewrite E.
    destruct (placePellet_eq (supplied fresh po n sd w)) as (po' & sd' & ->).
    exists (fresh ++ [n]), po', (S n), sd'. split; [|split].
    + destruct w. unfold supplied. state_cbv. by rewrite <- app_assoc.
    + apply Forall_app. split; [done|]. by repeat constructor.
    + lia.
Qed.

Lemma placeNewPellets_eq qty w :
  ∃ fresh po n sd,
    placeNewPellets random qty w = supplied fresh po n sd w ∧
    Forall (λ p, (nextRef w ≤ p)%nat) fresh ∧ (nextRef w ≤ n)%nat.
Proof.
  unfold placeNewPellets. destruct (remIsZero _ _).
  - apply placePellets_eq.
  - exists [], (pelletObj w), (nextRef w), (seed w). split; [|split; [done|lia]].
    destruct w. unfold supplied. state_cbv. by rewrite app_nil_r.
Qed.

(** ** What the events of each step can push *)

Lemma hazardLog_pushes evs :
  hazardLog evs → omap spawnOf evs = [] ∧ omap mealOf evs = [].
Proof. induction 1; simpl; auto. Qed.

Lemma pelletMeal_pushes po evs :
  Forall (pelletMeal growth po) evs →
  omap spawnOf evs = [] ∧ omap spriteOf evs = [] ∧ omap holeOf evs = [] ∧
  omap mealOf evs = [].
Proof.
  induction 1 as [|e evs (s & p & pl & before & _ & ->) _ IH]; simpl; auto.
Qed.

Lemma mealLog_pushes value ps evs :
  mealLog value ps evs →
  omap spawnOf evs = [] ∧ omap pelletOf evs = [] ∧ omap holeOf evs = [].
Proof. induction 1; simpl; auto. Qed.

(** ** One tick, step by step *)

Lemma summary_logged evs so ho n sd w :
  summary (logged evs (touched so ho n sd w))
  = let '(ew, eh, d, pls, pes, bhs, eps, ess, dbs, fe, st, pa, po, fc, co, tr) :=
      summary w in
    (ew, eh, d, pls, pes, bhs ++ omap spawnOf evs, eps ++ omap pelletOf evs,
     ess ++ omap spriteOf evs, dbs ++ omap holeOf evs, fe, st, pa, po, fc, co,
     tr ++ evs).
Proof. rewrite logged_eq. destruct w. unfold summary. state_refl. Qed.

Lemma summary_removeDeadBlackHoles w :
  summary (removeDeadBlackHoles w)
  = let '(ew, eh, d, pls, pes, bhs, eps, ess, dbs, fe, st, pa, po, fc, co, tr) :=
      summary w in
    (ew, eh, d, pls, pes, flushByStagedIndex dbs bhs, eps, ess, [], fe, st, pa,
     po, fc, co, tr).
Proof.
  rewrite removeDeadBlackHoles_eq. destruct w. unfold summary. state_refl.
Qed.

Lemma summary_removeEatenPellets w :
  summary (removeEatenPellets w)
  = let '(ew, eh, d, pls, pes, bhs, eps, ess, dbs, fe, st, pa, po, fc, co, tr) :=
      summary w in
    (ew, eh, d, pls, flush eps pes, bhs, [], ess, dbs, fe, st, pa, po, fc, co, tr).
Proof.
  rewrite removeEatenPellets_eq. destruct w. unfold summary. state_refl.
Qed.

Lemma summary_removeEatenSprites w :
  summary (removeEatenSprites w)
  = let '(ew, eh, d, pls, pes, bhs, eps, ess, dbs, fe, st, pa, po, fc, co, tr) :=
      summary w in
    (ew, eh, d, flush ess pls, pes, bhs, eps, [], dbs, fe, st, pa, po, fc, co, tr).
Proof.
  rewrite removeEatenSprites_eq. destruct w. unfold summary. state_refl.
Qed.

Lemma summary_supplied fresh po' n sd w :
  summary (supplied fresh po' n sd w)
  = let '(ew, eh, d, pls, pes, bhs, eps, ess, dbs, fe, st, pa, po, fc, co, tr) :=
      summary w in
    (ew, eh, d, pls, pes ++ fresh, bhs, eps, ess, dbs, fe, st, pa, po', fc, co, tr).
Proof. destruct w. unfold summary, supplied. state_refl. Qed.

Lemma summary_fields w ew eh d pls pes bhs eps ess dbs fe st pa po fc co tr :
  summary w
  = (ew, eh, d, pls, pes, bhs, eps, ess, dbs, fe, st, pa, po, fc, co, tr) →
  data w = d ∧ players w = pls ∧ pellets w = pes ∧ pelletObj w = po ∧
  ∃ so ho n sd,
    w = mkState ew eh d pls pes bhs eps ess dbs fe st pa so po ho n fc sd co tr.
Proof.
  destruct w. unfold summary. state_cbv. intros [= -> -> -> -> -> -> -> -> -> -> -> -> -> -> -> ->].
  repeat split. by eexists _, _, _, _.
Qed.

(** The state a tick leaves, in terms of the events of its four
    event-making steps: the spawn, the hazard step, sprite-eats-pellet
    and sprite-eats-sprite. *)
Lemma tick_eq w :
  ∃ e_h e_p e_m so po ho n sd fresh,
    let e_s :=
      if remIsZero (frameCount w)
           (BlackHolesData.spawnInterval (GameData.blackHoles (data w)))
      then [Spawned (nextRef w)] else [] in
    let pellets1 :=
      flush (eatenPellets w ++ omap pelletOf e_h) (pellets w) in
    hazardQ (pellets w) e_h ∧
    pelletQ growth (pelletObj w) pellets1 e_p ∧
    mealLog (SpritesData.value (GameData.sprites (data w)))
      (pairs (players w)) e_m ∧
    Forall (λ p, (nextRef w ≤ p)%nat) fresh ∧
    tick random control displayHole growth drain w
    = mkState (env_width w) (env_height w) (data w)
        (flush (eatenSprites w ++ omap spriteOf e_h ++ omap spriteOf e_m)
           (players w))
        (flush (omap pelletOf e_p) pellets1 ++ fresh)
        (flushByStagedIndex (deadBlackHoles w ++ omap holeOf e_h)
           (blackHoles w ++ omap spawnOf e_s))
        [] [] [] (framesElapsed w) (started w) (paused w)
        so po ho n (frameCount w) sd (console w)
        (trace w ++ e_s ++ e_h ++ e_p ++ e_m).
Proof.
  unfold tick. cbv zeta.
  set (i := BlackHolesData.spawnInterval (GameData.blackHoles (data w))).
  assert (summary w = summary w) as S0 by reflexivity.
  unfold summary at 2 in S0.
  (* the spawn *)
  pose proof (spawnBlackHole_Shape i w) as H1.
  pose proof (Shape_nextRef _ _ _ H1) as N1.
  destruct H1 as (e_s & so1 & ho1 & n1 & sd1 & E1 & _ & Q1).
  set (W1 := spawnBlackHole random i w) in *.
  assert (summary W1 = _) as S1
    by (rewrite E1, summary_logged, S0; reflexivity).
  clearbody W1. clear E1.
  (* the hazards *)
  pose proof (controlBlackHoles_Shape W1) as H2.
  pose proof (Shape_nextRef _ _ _ H2) as N2.
  destruct H2 as (e_h & so2 & ho2 & n2 & sd2 & E2 & _ & Q2).
  set (W2 := controlBlackHoles displayHole drain W1) in *.
  assert (summary W2 = _) as S2
    by (rewrite E2, summary_logged, S1; reflexivity).
  destruct (summary_fields _ _ _ _ _ _ _ _ _ _ _ _ _ _ _ _ _ S1)
    as (_ & _ & P1 & _).
  rewrite P1 in Q2. clearbody W2. clear E2 S1 P1.
  (* the two flushes *)
  set (W3 := removeDeadBlackHoles W2) in *.
  assert (summary W3 = _) as S3
    by (subst W3; rewrite summary_removeDeadBlackHoles, S2; reflexivity).
  assert (nextRef W3 = nextRef W2) as N3
    by (subst W3; rewrite removeDeadBlackHoles_eq; reflexivity).
  clearbody W3. clear S2.
  set (W4 := removeEatenPellets W3) in *.
  assert (summary W4 = _) as S4
    by (subst W4; rewrite summary_removeEatenPellets, S3; reflexivity).
  assert (nextRef W4 = nextRef W3) as N4
    by (subst W4; rewrite removeEatenPellets_eq; reflexivity).
  clearbody W4. clear S3.
  (* control *)
  pose proof (controlSprites_Shape W4) as H5.
  pose proof (Shape_nextRef _ _ _ H5) as N5.
  destruct H5 as (e_c & so5 & ho5 & n5 & sd5 & E5 & _ & ->).
  set (W5 := controlSprites control W4) in *.
  assert (summary W5 = _) as S5
    by (rewrite E5, summary_logged, S4; reflexivity).
  clearbody W5. clear E5 S4.
  (* sprites eat pellets *)
  pose proof (spritesEatPellets_Shape W5) as H6.
  pose proof (Shape_nextRef _ _ _ H6) as N6.
  destruct H6 as (e_p & so6 & ho6 & n6 & sd6 & E6 & _ & Q6).
  set (W6 := spritesEatPellets growth W5) in *.
  assert (summary W6 = _) as S6
    by (rewrite E6, summary_logged, S5; reflexivity).
  destruct (summary_fields _ _ _ _ _ _ _ _ _ _ _ _ _ _ _ _ _ S5)
    as (_ & _ & P5 & O5 & _).
  rewrite P5, O5 in Q6. clearbody W6. clear E6 S5 P5 O5.
  set (W7 := removeEatenPellets W6) in *.
  assert (summary W7 = _) as S7
    by (subst W7; rewrite summary_removeEatenPellets, S6; reflexivity).
  assert (nextRef W7 = nextRef W6) as N7
    by (subst W7; rewrite removeEatenPellets_eq; reflexivity).
  clearbody W7. clear S6.
  (* sprites eat sprites *)
  pose proof (spritesEatSprites_Shape W7) as H8.
  pose proof (Shape_nextRef _ _ _ H8) as N8.
  destruct H8 as (e_m & so8 & ho8 & n8 & sd8 & E8 & _ & Q8).
  set (W8 := spritesEatSprites W7) in *.
  assert (summary W8 = _) as S8
    by (rewrite E8, summary_logged, S7; reflexivity).
  destruct (summary_fields _ _ _ _ _ _ _ _ _ _ _ _ _ _ _ _ _ S7)
    as (D7 & P7 & _).
  rewrite D7, P7 in Q8. clearbody W8. clear E8 S7 D7 P7.
  set (W9 := removeEatenSprites W8) in *.
  assert (summary W9 = _) as S9
    by (subst W9; rewrite summary_removeEatenSprites, S8; reflexivity).
  assert (nextRef W9 = nextRef W8) as N9
    by (subst W9; rewrite removeEatenSprites_eq; reflexivity).
  clearbody W9. clear S8.
  (* new pellets *)
  destruct (placeNewPellets_eq
              (PelletsData.newQuantity (GameData.pellets (data W9))) W9)
    as (fresh & po & n10 & sd10 & E10 & F10 & _).
  rewrite E10.
  assert (summary (supplied fresh po n10 sd10 W9) = _) as S10
    by (rewrite summary_supplied, S9; reflexivity).
  destruct (summary_fields _ _ _ _ _ _ _ _ _ _ _ _ _ _ _ _ _ S10)
    as (_ & _ & _ & _ & so & ho & n & sd & ->).
  clear S10 E10 S9 S0.
  (* tidy the lists *)
  destruct Q2 as [L2 P2]. destruct Q6 as [L6 P6].
  destruct (hazardLog_pushes _ L2) as (Hs2 & Hm2).
  destruct (pelletMeal_pushes _ _ L6) as (Hs6 & Hp6 & Hh6 & Hm6).
  destruct (mealLog_pushes _ _ _ Q8) as (Hs8 & Hp8 & Hh8).
  assert (omap pelletOf e_s = [] ∧ omap spriteOf e_s = [] ∧
          omap holeOf e_s = []) as (Hp1 & Hsp1 & Hh1)
    by (rewrite Q1; destruct (remIsZero (frameCount w) i); done).
  rewrite ?Hs2, ?Hs6, ?Hp6, ?Hh6, ?Hs8, ?Hp8, ?Hh8, ?Hp1, ?Hsp1, ?Hh1 in *.
  cbn [omap list_omap] in *. rewrite ?app_nil_r in *.
  exists e_h, e_p, e_m, so, po, ho, n, sd, fresh.
  split; [by split|]. split; [by split|]. split; [done|]. split.
  { eapply Forall_impl; [exact F10|]. intros p Hp. simpl in Hp. lia. }
  rewrite <- Q1, <- !app_assoc. reflexivity.
Qed.

(** * The claims *)

Lemma start_ok w :
  players w ≠ [] → pellets w ≠ [] →
  start w = set_paused (Some false) (set_started (Some true) w).
Proof.
  intros Hp Hq. unfold start.
  destruct (players w); [done|]. destruct (pellets w); [done|].
  rewrite !bool_decide_eq_true_2 by (simpl; lia). done.
Qed.

Lemma start_refused w :
  players w = [] ∨ pellets w = [] →
  start w = set_console (console w ++ [warning]) w.
Proof.
  intros H. unfold start.
  destruct H as [-> | ->]; simpl.
  - done.
  - by rewrite andb_false_r.
Qed.

(** C7: start() sets the game running exactly when there is at least one
    player and at least one pellet; then started becomes true and paused
    false.  With no player or no pellet it prints the warning and leaves
    every field of the game as it was, so on a game not yet started the
    started flag is true afterwards if and only if both collections are
    non-empty. *)
Theorem start_iff_players_and_pellets w :
  (players w ≠ [] ∧ pellets w ≠ [] →
     started (start w) = Some true ∧ paused (start w) = Some false ∧
     console (start w) = console w) ∧
  (players w = [] ∨ pellets w = [] →
     start w = set_console (console w ++ [warning]) w ∧
     started (start w) = started w ∧ paused (start w) = paused w) ∧
  (started w ≠ Some true →
     (started (start w) = Some true ↔ players w ≠ [] ∧ pellets w ≠ [])).
Proof.
  split; [|split].
  - intros [Hp Hq]. by rewrite start_ok.
  - intros H. by rewrite start_refused.
  - intros Hns. split.
    + intros Hst.
      destruct (players w) eqn:Ep; [|destruct (pellets w) eqn:Eq].
      * rewrite start_refused in Hst by (by left). done.
      * rewrite start_refused in Hst by (by right). done.
      * done.
    + intros [Hp Hq]. by rewrite start_ok.
Qed.

(** C10: when there is at least one player and one pellet, start() sets
    paused to false whatever it was; on a game already started it does
    exactly what continue() does. *)
Theorem start_resumes_paused_game w :
  players w ≠ [] → pellets w ≠ [] →
  paused (start w) = Some false ∧
  (started w = Some true → start w = continue w).
Proof.
  intros Hp Hq. rewrite start_ok by done. split; [done|].
  intros Hst. destruct w. simpl in Hst. subst. reflexivity.
Qed.

(** C8: called on a game that is not started, or that is paused, run()
    returns the state it was given: every collection, every staging set
    and framesElapsed are as before. *)
Theorem run_unchanged_unless_running w :
  truthy (started w) = false ∨ truthy (paused w) = true →
  Run w = w ∧
  players (Run w) = players w ∧ pellets (Run w) = pellets w ∧
  blackHoles (Run w) = blackHoles w ∧
  eatenPellets (Run w) = eatenPellets w ∧
  eatenSprites (Run w) = eatenSprites w ∧
  deadBlackHoles (Run w) = deadBlackHoles w ∧
  framesElapsed (Run w) = framesElapsed w.
Proof.
  intros H. assert (Run w = w) as ->; [|done].
  unfold run. destruct H as [-> | ->]; [done|].
  by rewrite orb_true_r.
Qed.

Lemma run_running w : running w → Run w = Tick w.
Proof. intros [Hs Hp]. unfold run. by rewrite Hs, Hp. Qed.

Lemma run_cases w : Run w = w ∨ (running w ∧ Run w = Tick w).
Proof.
  unfold run, running.
  destruct (truthy (started w)), (truthy (paused w)); simpl; auto.
Qed.

(** C9: if the three staging sets are empty when run() is called, they
    are empty when it returns, whatever the eligibility predicates
    answer; after a tick that ran they are empty in any case. *)
Theorem staging_sets_empty_after_run w :
  (eatenPellets w = [] → eatenSprites w = [] → deadBlackHoles w = [] →
     eatenPellets (Run w) = [] ∧ eatenSprites (Run w) = [] ∧
     deadBlackHoles (Run w) = []) ∧
  (running w →
     eatenPellets (Run w) = [] ∧ eatenSprites (Run w) = [] ∧
     deadBlackHoles (Run w) = []).
Proof.
  assert (running w →
          eatenPellets (Run w) = [] ∧ eatenSprites (Run w) = [] ∧
          deadBlackHoles (Run w) = []) as Hrun.
  { intros Hr. rewrite (run_running w Hr).
    destruct (tick_eq w)
      as (e_h & e_p & e_m & so & po & ho & n & sd & fresh & _ & _ & _ & _ & ->).
    done. }
  split; [|done].
  intros H1 H2 H3. destruct (run_cases w) as [-> | [Hr _]]; auto.
Qed.

(** ** Pairs of sprites *)

Section Pairs.

Implicit Types (l : list ref) (a b : ref) (p : ref * ref).

Lemma pairs_elem l a b :
  (a, b) ∈ pairs l ↔
  ∃ i j : nat, (i < j)%nat ∧ l !! i = Some a ∧ l !! j = Some b.
Proof.
  induction l as [|x l IH]; simpl.
  - split; [intros H; by apply elem_of_nil in H|].
    intros (i & j & _ & H & _). done.
  - rewrite elem_of_app, list_elem_of_fmap, IH. split.
    + intros [(y & [= -> ->] & Hy)|(i & j & Hij & Hi & Hj)].
      * apply list_elem_of_lookup in Hy as [j Hj].
        exists 0%nat, (S j). split; [lia|done].
      * exists (S i), (S j). split; [lia|done].
    + intros (i & j & Hij & Hi & Hj).
      destruct j as [|j]; [lia|]. destruct i as [|i]; simpl in *.
      * left. exists b. split; [congruence|].
        by apply list_elem_of_lookup_2 in Hj.
      * right. exists i, j. split; [lia|done].
Qed.

Lemma pairs_members l a b : (a, b) ∈ pairs l → a ∈ l ∧ b ∈ l.
Proof.
  intros (i & j & _ & Hi & Hj)%pairs_elem.
  split; eapply list_elem_of_lookup_2; done.
Qed.

Lemma pairs_distinct l a b : NoDup l → (a, b) ∈ pairs l → a ≠ b.
Proof.
  intros Hnd (i & j & Hij & Hi & Hj)%pairs_elem ->.
  pose proof (NoDup_lookup l i j b Hnd Hi Hj). lia.
Qed.

(** Two distinct live sprites are visited, in one order or the other. *)
Lemma pairs_total l a b :
  a ∈ l → b ∈ l → a ≠ b → (a, b) ∈ pairs l ∨ (b, a) ∈ pairs l.
Proof.
  intros [i Hi]%list_elem_of_lookup [j Hj]%list_elem_of_lookup Hne.
  destruct (Nat.lt_total i j) as [Hlt|[->|Hgt]].
  - left. apply pairs_elem. by exists i, j.
  - congruence.
  - right. apply pairs_elem. by exists j, i.
Qed.

Lemma unordered_swap a b : unordered (b, a) = unordered (a, b).
Proof.
  unfold unordered. simpl.
  destruct (Nat.leb_spec a b), (Nat.leb_spec b a); try done;
    f_equal; lia.
Qed.

Lemma unordered_cases p : unordered p = p ∨ unordered p = (p.2, p.1).
Proof. unfold unordered. destruct (p.1 <=? p.2)%nat; auto. Qed.

Lemma unordered_eq a b c d :
  unordered (a, b) = unordered (c, d) →
  (a = c ∧ b = d) ∨ (a = d ∧ b = c).
Proof.
  destruct (unordered_cases (a, b)) as [-> | ->],
    (unordered_cases (c, d)) as [-> | ->]; simpl; intros [= -> ->]; auto.
Qed.

(** The loops visit no unordered pair of a duplicate-free collection
    twice. *)
Lemma pairs_unordered_NoDup l : NoDup l → NoDup (unordered <$> pairs l).
Proof.
  induction l as [|x l IH]; intros Hnd; simpl; [constructor|].
  apply NoDup_cons in Hnd as [Hx Hnd].
  rewrite fmap_app. apply NoDup_app. split; [|split].
  - rewrite <- list_fmap_compose. apply NoDup_fmap_2_strong; [|done].
    intros y z _ _ H. simpl in H.
    apply unordered_eq in H as [[_ ?]|[-> <-]]; done.
  - intros p (q & -> & (y & -> & Hy)%list_elem_of_fmap)%list_elem_of_fmap.
    intros ([c d] & H & Hcd)%list_elem_of_fmap.
    apply pairs_members in Hcd as [Hc Hd].
    apply unordered_eq in H as [[-> _]|[-> _]]; done.
  - by apply IH.
Qed.

Lemma NoDup_fmap_eq {A B} (f : A → B) (k : list A) x y :
  NoDup (f <$> k) → x ∈ k → y ∈ k → f x = f y → x = y.
Proof.
  induction k as [|z k IH]; simpl; intros Hnd Hx Hy Hf.
  - by apply elem_of_nil in Hx.
  - apply NoDup_cons in Hnd as [Hz Hnd].
    apply elem_of_cons in Hx as [->|Hx], Hy as [->|Hy]; auto.
    + exfalso. apply Hz. rewrite Hf. by apply list_elem_of_fmap_2.
    + exfalso. apply Hz. rewrite <- Hf. by apply list_elem_of_fmap_2.
Qed.

Lemma mealLog_sublist value ps evs :
  mealLog value ps evs →
  (unordered <$> meals evs) `sublist_of` (unordered <$> ps).
Proof.
  unfold meals. induction 1; simpl.
  - constructor.
  - by apply sublist_cons.
  - by apply sublist_skip.
  - rewrite unordered_swap. by apply sublist_skip.
Qed.

Lemma mealLog_visited value ps evs a b :
  mealLog value ps evs → (a, b) ∈ meals evs → (a, b) ∈ ps ∨ (b, a) ∈ ps.
Proof.
  unfold meals. induction 1; simpl; intros Hin.
  - by apply elem_of_nil in Hin.
  - destruct (IHmealLog Hin); [left|right]; by right.
  - apply elem_of_cons in Hin as [[= -> ->]|Hin]; [left; left|].
    destruct (IHmealLog Hin); [left|right]; by right.
  - apply elem_of_cons in Hin as [[= -> ->]|Hin]; [right; left|].
    destruct (IHmealLog Hin); [left|right]; by right.
Qed.

(** A log in which no visited pair came to a meal. *)
Lemma mealLog_nothing value ps : mealLog value ps [].
Proof. induction ps as [|[a b] ps IH]; [apply ml_nil|by apply ml_none]. Qed.

End Pairs.

(** ** What one call of run() does *)

Lemma newEvents_app w w' evs : trace w' = trace w ++ evs → newEvents w w' = evs.
Proof. unfold newEvents. intros ->. apply drop_app_length. Qed.

Lemma newEvents_same w : newEvents w w = [].
Proof. apply newEvents_app. by rewrite app_nil_r. Qed.

Lemma trace_logged evs so ho n sd w :
  trace (logged evs (touched so ho n sd w)) = trace w ++ evs.
Proof. rewrite logged_eq. state_refl. Qed.

(** The events of the steps of a tick, and the players and pellets they
    leave. *)
Lemma tick_facts w :
  ∃ e_h e_p e_m fresh,
    let e_s :=
      if remIsZero (frameCount w)
           (BlackHolesData.spawnInterval (GameData.blackHoles (data w)))
      then [Spawned (nextRef w)] else [] in
    let pellets1 :=
      flush (eatenPellets w ++ omap pelletOf e_h) (pellets w) in
    hazardQ (pellets w) e_h ∧
    pelletQ growth (pelletObj w) pellets1 e_p ∧
    mealLog (SpritesData.value (GameData.sprites (data w)))
      (pairs (players w)) e_m ∧
    Forall (λ p, (nextRef w ≤ p)%nat) fresh ∧
    newEvents w (Tick w) = e_s ++ e_h ++ e_p ++ e_m ∧
    players (Tick w)
    = flush (eatenSprites w ++ omap spriteOf e_h ++ omap spriteOf e_m)
        (players w) ∧
    pellets (Tick w) = flush (omap pelletOf e_p) pellets1 ++ fresh.
Proof.
  destruct (tick_eq w)
    as (e_h & e_p & e_m & so & po & ho & n & sd & fresh
        & Q2 & Q6 & Q8 & F & ->).
  exists e_h, e_p, e_m, fresh. cbv zeta.
  split; [done|]. split; [done|]. split; [done|]. split; [done|].
  split; [|split; reflexivity]. apply newEvents_app. reflexivity.
Qed.

(** Either run() returned at its guard, or it went through the steps of
    a tick. *)
Lemma run_facts w :
  (Run w = w ∧ newEvents w (Run w) = []) ∨
  (running w ∧
   ∃ e_h e_p e_m fresh,
     let e_s :=
       if remIsZero (frameCount w)
            (BlackHolesData.spawnInterval (GameData.blackHoles (data w)))
       then [Spawned (nextRef w)] else [] in
     let pellets1 :=
       flush (eatenPellets w ++ omap pelletOf e_h) (pellets w) in
     hazardQ (pellets w) e_h ∧
     pelletQ growth (pelletObj w) pellets1 e_p ∧
     mealLog (SpritesData.value (GameData.sprites (data w)))
       (pairs (players w)) e_m ∧
     Forall (λ p, (nextRef w ≤ p)%nat) fresh ∧
     newEvents w (Run w) = e_s ++ e_h ++ e_p ++ e_m ∧
     players (Run w)
     = flush (eatenSprites w ++ omap spriteOf e_h ++ omap spriteOf e_m)
         (players w) ∧
     pellets (Run w) = flush (omap pelletOf e_p) pellets1 ++ fresh).
Proof.
  destruct (run_cases w)
    as [E | [Hr E]].
  - left. split; [done|]. rewrite E. apply newEvents_same.
  - right. split; [done|]. rewrite E. apply tick_facts.
Qed.

(** Meals happen in the sprite-eats-sprite step only, pair by pair. *)
Lemma run_meals w :
  ∃ e0 e_m,
    newEvents w (Run w) = e0 ++ e_m ∧ meals e0 = [] ∧
    mealLog (SpritesData.value (GameData.sprites (data w)))
      (pairs (players w)) e_m.
Proof.
  destruct (run_facts w) as [[_ E] | [_ H]].
  { exists [], []. split; [done|]. split; [done|]. apply mealLog_nothing. }
  cbv zeta in H. set (e_s := if remIsZero _ _ then _ else _) in H.
  destruct H as (e_h & e_p & e_m & fresh & [L2 _] & [L6 _] & Q8 & _ & E & _).
  exists (e_s ++ e_h ++ e_p), e_m. split; [|split; [|done]].
  - rewrite E. by rewrite <- !(app_assoc _ _ _).
  - unfold meals. rewrite !omap_app.
    destruct (hazardLog_pushes _ L2) as (_ & ->).
    destruct (pelletMeal_pushes _ _ L6) as (_ & _ & _ & ->).
    subst e_s. by destruct (remIsZero _ _).
Qed.

(** Meals that no two of which are between the same two sprites: between
    two given sprites there is at most one. *)
Lemma NoDup_unordered_once (ms : list (ref * ref)) a b :
  NoDup (unordered <$> ms) →
  (length (filter (λ m, m = (a, b) ∨ m = (b, a)) ms) ≤ 1)%nat.
Proof.
  intros Hnd.
  assert (NoDup (unordered <$> filter (λ m, m = (a, b) ∨ m = (b, a)) ms))
    as HF
    by (eapply sublist_NoDup; [exact Hnd|apply fmap_sublist, sublist_filter]).
  assert (∀ m, m ∈ filter (λ m, m = (a, b) ∨ m = (b, a)) ms →
               unordered m = unordered (a, b)) as Hall.
  { intros m [[-> | ->] _]%list_elem_of_filter; [done|apply unordered_swap]. }
  destruct (filter (λ m, m = (a, b) ∨ m = (b, a)) ms) as [|x [|y l]];
    simpl; [lia|lia|].
  exfalso. simpl in HF. apply NoDup_cons in HF as [Hx _]. apply Hx.
  rewrite (Hall x) by left. rewrite <- (Hall y) by (right; left). left.
Qed.

(** C6 (amended): the nested loops visit every pair of positions i < j of
    players exactly once, index i against the indices above i; each visit
    adds at most one meal, the player eating the other player or the
    reverse; and when canEatSprite(A, B) holds for the visited pair
    (A, B), A eats B, whatever canEatSprite(B, A) says.  When players
    holds no sprite twice, which addPlayer does not see to, every
    unordered pair of distinct live sprites is visited once, and there
    is at most one meal between the two in a tick, "A eats B" or
    "B eats A". *)
Theorem one_meal_per_pair w :
  spritesEatSprites w = foldl pairTurn w (pairs (players w)) ∧
  (∀ a b, (a, b) ∈ pairs (players w) ↔
          ∃ i j : nat, (i < j)%nat ∧
            players w !! i = Some a ∧ players w !! j = Some b) ∧
  (∃ e0 e_m,
     newEvents w (Run w) = e0 ++ e_m ∧ meals e0 = [] ∧
     mealLog (SpritesData.value (GameData.sprites (data w)))
       (pairs (players w)) e_m) ∧
  (∀ w' a b sa sb,
     spriteObj w' !! a = Some sa → spriteObj w' !! b = Some sb →
     SpritesData.canEatSprite (GameData.sprites (data w')) sa sb = true →
     meals (newEvents w' (eatOrBeEaten a b w')) = [(a, b)]) ∧
  (NoDup (players w) →
     NoDup (unordered <$> pairs (players w)) ∧
     (∀ a b, a ∈ players w → b ∈ players w → a ≠ b →
             (a, b) ∈ pairs (players w) ∨ (b, a) ∈ pairs (players w)) ∧
     NoDup (unordered <$> meals (newEvents w (Run w))) ∧
     (∀ a b, (a, b) ∈ meals (newEvents w (Run w)) →
             a ≠ b ∧ (b, a) ∉ meals (newEvents w (Run w))) ∧
     pairwiseExclusive w (Run w)).
Proof.
  split; [apply spritesEatSprites_pairs|].
  split; [intros a b; apply pairs_elem|].
  split; [apply run_meals|].
  split.
  { intros w' a b sa sb Ha Hb Hcan. unfold eatOrBeEaten.
    rewrite Ha, Hb. simpl. rewrite Hcan.
    destruct (valueThenEat_logged a b w' sb) as [so ->]; [by eexists|done|].
    rewrite (newEvents_app _ _ _ (trace_logged _ _ _ _ _ _)). done. }
  intros Hnd.
  split; [by apply pairs_unordered_NoDup|].
  split; [intros a b; apply pairs_total|].
  assert (NoDup (unordered <$> meals (newEvents w (Run w))) ∧
          ∀ a b, (a, b) ∈ meals (newEvents w (Run w)) →
                 (a, b) ∈ pairs (players w) ∨ (b, a) ∈ pairs (players w))
    as [Hmeals Hvis].
  { destruct (run_meals w) as (e0 & e_m & -> & H0 & HL).
    unfold meals in *. rewrite omap_app, H0. simpl. split.
    - eapply sublist_NoDup; [by apply pairs_unordered_NoDup|].
      by eapply mealLog_sublist.
    - intros a b. by eapply mealLog_visited. }
  split; [done|].
  split; [|intros a b _ _ _; by apply NoDup_unordered_once].
  intros a b Hab.
  assert (a ≠ b) as Hne.
  { destruct (Hvis a b Hab) as [H|H];
      apply (pairs_distinct _ _ _ Hnd) in H; congruence. }
  split; [done|]. intros Hba. apply Hne.
  assert ((a, b) = (b, a)) as [= ->]; [|done].
  eapply NoDup_fmap_eq; [exact Hmeals|done|done|].
  by rewrite unordered_swap.
Qed.

(** ** Events and what precedes them *)

Section Preceded.

Context (target : event → Prop) (ok : event → event → Prop).

Lemma eachPreceded_none l :
  Forall (λ e, ¬ target e) l → eachPreceded target ok l.
Proof.
  intros HF pre e post -> Ht. exfalso.
  apply Forall_app in HF as [_ HF]. apply Forall_cons in HF as [HF _]. done.
Qed.

Lemma eachPreceded_two e0 e :
  ¬ target e0 → ok e0 e → eachPreceded target ok [e0; e].
Proof.
  intros H0 Hok pre e' post E Ht.
  destruct pre as [|x [|y pre]]; simpl in E.
  - injection E as E _. by subst e'.
  - injection E as Ex Ee _. subst x e'. by exists [], e0.
  - injection E as _ _ E. by destruct pre.
Qed.

Lemma eachPreceded_app l1 l2 :
  eachPreceded target ok l1 → eachPreceded target ok l2 →
  eachPreceded target ok (l1 ++ l2).
Proof.
  intros H1 H2 pre e post E Ht.
  apply List.app_eq_app in E as [k [[E1 E2]|[E1 E2]]].
  - destruct k as [|e' k]; simpl in E2.
    + destruct (H2 [] e post) as (pre' & e0 & Hp & _); [done|done|].
      by destruct pre'.
    + injection E2 as <- ->. apply (H1 pre e k); [|done].
      by rewrite E1.
  - destruct (H2 k e post E2 Ht) as (pre' & e0 & -> & Hok).
    exists (l1 ++ pre'), e0. split; [|done]. by rewrite E1, app_assoc.
Qed.

End Preceded.

Lemma no_meal_events l : omap mealOf l = [] → Forall (λ e, ¬ isMeal e) l.
Proof.
  induction l as [|e l IH]; intros H; constructor.
  - intros (a & b & ->). done.
  - apply IH. by destruct e.
Qed.

Lemma no_staging_events l :
  omap spriteOf l = [] → Forall (λ e, ¬ isHazardStaging e) l.
Proof.
  induction l as [|e l IH]; intros H; constructor.
  - intros (s & ->). done.
  - apply IH. by destruct e.
Qed.

Lemma mealLog_valued value ps evs :
  mealLog value ps evs → eachPreceded isMeal (valuedBySize value) evs.
Proof.
  induction 1 as [|a b ps evs _ IH|a b vic ps evs _ IH|a b vic ps evs _ IH].
  - by apply eachPreceded_none.
  - done.
  - apply (eachPreceded_app _ _ [_; _]); [|done].
    apply eachPreceded_two; [by intros (?&?&?)|]. by exists a, b, vic.
  - apply (eachPreceded_app _ _ [_; _]); [|done].
    apply eachPreceded_two; [by intros (?&?&?)|]. by exists b, a, vic.
Qed.

Lemma mealLog_no_staging value ps evs :
  mealLog value ps evs →
  Forall (λ e, ¬ isHazardStaging e) evs ∧ omap drainOf evs = [].
Proof.
  induction 1 as [|a b ps evs _ [IH1 IH2]|a b vic ps evs _ [IH1 IH2]
                 |a b vic ps evs _ [IH1 IH2]]; simpl; split; try done;
    repeat constructor; try done; by intros (?&?).
Qed.

Lemma pelletMeal_no_drain po evs :
  Forall (pelletMeal growth po) evs → omap drainOf evs = [].
Proof.
  induction 1 as [|e evs (s & p & pl & before & _ & ->) _ IH]; simpl; auto.
Qed.

Lemma hazardLog_staged evs :
  hazardLog evs → eachPreceded isHazardStaging drainedBy evs.
Proof.
  induction 1 as [|b p evs _ IH|b s after evs Hpos _ IH
                 |b s after evs Hle _ IH|b evs _ IH].
  - by apply eachPreceded_none.
  - apply (eachPreceded_app _ _ [_]); [|done].
    apply eachPreceded_none. repeat constructor. by intros (?&?).
  - apply (eachPreceded_app _ _ [_]); [|done].
    apply eachPreceded_none. repeat constructor. by intros (?&?).
  - apply (eachPreceded_app _ _ [_; _]); [|done].
    apply eachPreceded_two; [by intros (?&?)|]. by exists b, s, after.
  - apply (eachPreceded_app _ _ [_]); [|done].
    apply eachPreceded_none. repeat constructor. by intros (?&?).
Qed.

(** A suckSprite call that leaves actualSize at or below 0 stages the
    sprite. *)
Lemma hazardLog_drained evs s after :
  hazardLog evs → (s, after) ∈ omap drainOf evs → after ≤ 0 →
  s ∈ omap spriteOf evs.
Proof.
  induction 1 as [|b p evs _ IH|b s' after' evs Hpos _ IH
                 |b s' after' evs Hle _ IH|b evs _ IH]; simpl; intros Hin Hneg.
  - by apply elem_of_nil in Hin.
  - by apply IH.
  - apply elem_of_cons in Hin as [[= -> ->]|Hin]; [lia|by apply IH].
  - apply elem_of_cons in Hin as [[= -> ->]|Hin]; [left|right; by apply IH].
  - by apply IH.
Qed.

Lemma hazardLog_no_eat evs s p before after :
  hazardLog evs → AtePellet s p before after ∉ evs.
Proof.
  induction 1; rewrite ?not_elem_of_cons; repeat split;
    try done; apply not_elem_of_nil.
Qed.

Lemma mealLog_no_eat value ps evs s p before after :
  mealLog value ps evs → AtePellet s p before after ∉ evs.
Proof.
  induction 1; rewrite ?not_elem_of_cons; repeat split;
    try done; apply not_elem_of_nil.
Qed.

(** C5, amended: every eatOtherSprite call of a tick comes right after
    the assignment of the victim's value, and the value assigned is the
    configured value-function of the victim's [size] field as it stands
    then (not of its actualSize); eatOtherSprite runs on a state in which
    the victim carries that value. *)
Theorem value_assigned_from_size_before_meal w :
  eachPreceded isMeal
    (valuedBySize (SpritesData.value (GameData.sprites (data w))))
    (newEvents w (Run w)) ∧
  (∀ w' winner victim vic,
     spriteObj w' !! victim = Some vic →
     ∃ w1,
       valueThenEat winner victim w'
       = emit (AteSprite winner victim)
           (Sprite_eatOtherSprite winner victim w1) ∧
       spriteObj w1 !! victim
       = Some (Sprite.set_value
                 (SpritesData.value (GameData.sprites (data w'))
                    (Sprite.size vic)) vic)).
Proof.
  split.
  - destruct (run_meals w)
      as (e0 & e_m & -> & H0 & HL).
    apply eachPreceded_app.
    + by apply eachPreceded_none, no_meal_events.
    + by eapply mealLog_valued.
  - intros w' winner victim vic Hvic. unfold valueThenEat. rewrite Hvic.
    eexists. split; [reflexivity|]. simpl. apply lookup_insert_eq.
Qed.

(** The sprites the events of a tick stage are those of the hazard step
    and of the sprite-eats-sprite step, and the flush takes them out of
    a duplicate-free players collection. *)
Lemma staged_sprites_gone w s :
  NoDup (players w) →
  s ∈ omap spriteOf (newEvents w (Run w)) → s ∉ players (Run w).
Proof.
  intros Hnd.
  destruct (run_facts w)
    as [[_ ->] | [_ H]]; [intros H; by apply elem_of_nil in H|].
  cbv zeta in H. set (e_s := if remIsZero _ _ then _ else _) in H.
  destruct H as (e_h & e_p & e_m & fresh & _ & [L6 _] & _ & _ & -> & -> & _).
  rewrite !omap_app.
  destruct (pelletMeal_pushes _ _ L6) as (_ & -> & _).
  assert (omap spriteOf e_s = []) as ->
    by (subst e_s; by destruct (remIsZero _ _)).
  simpl. intros Hin. apply flush_gone; [done|].
  apply elem_of_app. by right.
Qed.

(** C3, amended: a sprite whose actualSize is at or below 0 when a
    suckSprite call returns is gone from players (a collection holding no
    sprite twice) when the tick ends; the hazard step stages a sprite
    only right after such a call; and the flush of eatenSprites also
    removes the sprites eaten in the sprite-eats-sprite step, whatever
    their actualSize. *)
Theorem drained_sprite_removed_by_end_of_tick w :
  NoDup (players w) →
  (∀ b s after,
     SuckedSprite b s after ∈ newEvents w (Run w) → after ≤ 0 →
     s ∉ players (Run w)) ∧
  eachPreceded isHazardStaging drainedBy (newEvents w (Run w)) ∧
  (∀ winner victim,
     AteSprite winner victim ∈ newEvents w (Run w) →
     victim ∉ players (Run w)).
Proof.
  intros Hnd. split; [|split].
  - intros b s after Hin Hle. apply staged_sprites_gone; [done|].
    assert ((s, after) ∈ omap drainOf (newEvents w (Run w))) as Hd
      by (apply list_elem_of_omap; by exists (SuckedSprite b s after)).
    clear Hin. revert Hd.
    destruct (run_facts w)
      as [[_ ->] | [_ H]]; [intros H; by apply elem_of_nil in H|].
    cbv zeta in H. set (e_s := if remIsZero _ _ then _ else _) in H.
    destruct H as (e_h & e_p & e_m & fresh & [L2 _] & [L6 _] & Q8 & _ & -> & _).
    rewrite !omap_app.
    rewrite (pelletMeal_no_drain _ _ L6).
    destruct (mealLog_no_staging _ _ _ Q8) as [_ ->].
    assert (omap drainOf e_s = []) as ->
      by (subst e_s; by destruct (remIsZero _ _)).
    rewrite app_nil_r. simpl. intros Hd.
    apply elem_of_app. right. apply elem_of_app. left.
    by eapply hazardLog_drained.
  - destruct (run_facts w)
      as [[_ ->] | [_ H]]; [by apply eachPreceded_none|].
    cbv zeta in H. set (e_s := if remIsZero _ _ then _ else _) in H.
    destruct H as (e_h & e_p & e_m & fresh & [L2 _] & [L6 _] & Q8 & _ & -> & _).
    apply eachPreceded_app; [|apply eachPreceded_app; [|apply eachPreceded_app]].
    + apply eachPreceded_none, no_staging_events.
      subst e_s. by destruct (remIsZero _ _).
    + by apply hazardLog_staged.
    + apply eachPreceded_none, no_staging_events.
      by destruct (pelletMeal_pushes _ _ L6) as (_ & -> & _).
    + apply eachPreceded_none. by destruct (mealLog_no_staging _ _ _ Q8).
  - intros winner victim Hin. apply staged_sprites_gone; [done|].
    apply list_elem_of_omap. by exists (AteSprite winner victim).
Qed.


(** ** Where the code departs from the specification *)

(** With one hazard staged, the flush splices index 0 out of blackHoles,
    whichever hazard was staged: [deadBlackHoles.indexOf] is the position
    in the staging set. *)
Lemma removeDeadBlackHoles_single w b :
  deadBlackHoles w = [b] →
  blackHoles (removeDeadBlackHoles w) = drop 1 (blackHoles w).
Proof.
  intros Hd. rewrite removeDeadBlackHoles_eq, Hd.
  assert (∀ l v, blackHoles (set_deadBlackHoles v (set_blackHoles l w)) = l)
    as -> by (intros; destruct w; reflexivity).
  unfold flushByStagedIndex, indexOf. cbn [foldl indexOfFrom].
  rewrite decide_True by done.
  rewrite (splice1_nat 0). by destruct (blackHoles w).
Qed.

(** A tick spawns one hazard exactly when the animation loop's
    frameCount is a multiple of the spawn interval; framesElapsed plays
    no part. *)
Lemma spawned_iff_frameCount_divides w :
  running w →
  omap spawnOf (newEvents w (Run w))
  = if remIsZero (frameCount w)
         (BlackHolesData.spawnInterval (GameData.blackHoles (data w)))
    then [nextRef w] else [].
Proof.
  intros Hr.
  rewrite (run_running w Hr).
  destruct (tick_facts w)
    as (e_h & e_p & e_m & fresh & [L2 _] & [L6 _] & Q8 & _ & -> & _).
  rewrite !omap_app.
  destruct (hazardLog_pushes _ L2) as (-> & _).
  destruct (pelletMeal_pushes _ _ L6) as (-> & _).
  destruct (mealLog_pushes _ _ _ Q8) as (-> & _).
  rewrite !app_nil_r. by destruct (remIsZero _ _).
Qed.

(** * Further properties of the game *)

(** ** What the loops of a tick leave alone *)

Lemma forEach_keeps {A B} (f : State → B) (l : list A)
    (body : A → State → State) w :
  (∀ x w, f (body x w) = f w) → f (forEach l body w) = f w.
Proof.
  intros H. unfold forEach. revert w.
  induction l as [|x l IH]; intros w; simpl; [done|]. by rewrite IH.
Qed.

Lemma forEachFrom_keeps {A B} (f : State → B) (l : list A)
    (body : A → nat → State → State) i w :
  (∀ x i w, f (body x i w) = f w) → f (forEachFrom i l body w) = f w.
Proof.
  intros H. revert i w.
  induction l as [|x l IH]; intros i w; simpl; [done|]. by rewrite IH.
Qed.

Lemma suckPelletIfCan_steady b p w : steady (suckPelletIfCan b p w) = steady w.
Proof.
  unfold suckPelletIfCan, BlackHole_suckPellet. repeat case_match; reflexivity.
Qed.

Lemma suckPellets_steady b w : steady (suckPellets b w) = steady w.
Proof.
  unfold suckPellets. apply forEach_keeps. intros. apply suckPelletIfCan_steady.
Qed.

Lemma suckSpriteIfCan_steady b s w :
  steady (suckSpriteIfCan drain b s w) = steady w.
Proof.
  unfold suckSpriteIfCan, BlackHole_suckSprite. cbv zeta.
  repeat case_match; reflexivity.
Qed.

Lemma suckSprites_steady b w : steady (suckSprites drain b w) = steady w.
Proof.
  unfold suckSprites. apply forEach_keeps. intros. apply suckSpriteIfCan_steady.
Qed.

Lemma controlBlackHole_steady b w :
  steady (controlBlackHole displayHole drain b w) = steady w.
Proof.
  unfold controlBlackHole. cbv zeta.
  set (w1 := set_holeObj _ w).
  assert (steady (suckSprites drain b (suckPellets b w1)) = steady w) as H
    by (rewrite suckSprites_steady, suckPellets_steady; reflexivity).
  repeat case_match; try done; rewrite <- H; reflexivity.
Qed.

Lemma controlBlackHoles_steady w :
  steady (controlBlackHoles displayHole drain w) = steady w.
Proof.
  unfold controlBlackHoles. apply forEach_keeps. intros.
  apply controlBlackHole_steady.
Qed.

Lemma controlSprites_steady w : steady (controlSprites control w) = steady w.
Proof. unfold controlSprites. apply forEach_keeps. reflexivity. Qed.

Lemma eatPelletIfCan_steady s p w :
  steady (eatPelletIfCan growth s p w) = steady w.
Proof.
  unfold eatPelletIfCan, Sprite_eatPellet. cbv zeta.
  repeat case_match; reflexivity.
Qed.

Lemma spritesEatPellets_steady w :
  steady (spritesEatPellets growth w) = steady w.
Proof.
  unfold spritesEatPellets. apply forEach_keeps. intros.
  apply forEach_keeps. intros. apply eatPelletIfCan_steady.
Qed.

Lemma valueThenEat_steady winner victim w :
  steady (valueThenEat winner victim w) = steady w.
Proof.
  unfold valueThenEat, Sprite_eatOtherSprite. cbv zeta.
  repeat case_match; reflexivity.
Qed.

Lemma eatOrBeEaten_steady a b w : steady (eatOrBeEaten a b w) = steady w.
Proof.
  unfold eatOrBeEaten. cbv zeta.
  repeat case_match; try reflexivity; apply valueThenEat_steady.
Qed.

Lemma spritesEatSprites_steady w : steady (spritesEatSprites w) = steady w.
Proof.
  unfold spritesEatSprites. apply forEachFrom_keeps. intros.
  apply forEach_keeps. intros. apply eatOrBeEaten_steady.
Qed.

(** ** Steps that only remove *)

Lemma shrunk_refl w : shrunk w w.
Proof. by repeat split. Qed.

Lemma shrunk_trans w1 w2 w3 : shrunk w1 w2 → shrunk w2 w3 → shrunk w1 w3.
Proof.
  intros (F1 & O1 & N1 & S1 & A1 & B1 & C1) (F2 & O2 & N2 & S2 & A2 & B2 & C2).
  repeat split; try congruence; by etrans.
Qed.

Lemma steady_shrunk w w' : steady w' = steady w → shrunk w w'.
Proof.
  unfold steady. intros H.
  repeat match type of H with
         | (_, _) = (_, _) => apply pair_equal_spec in H as [H ?]
         end.
  repeat split; try done;
    by match goal with E : ?a = _ |- ?a `sublist_of` _ => rewrite E end.
Qed.

Lemma flushByStagedIndex_sublist staged live :
  flushByStagedIndex staged live `sublist_of` live.
Proof.
  unfold flushByStagedIndex. generalize staged at 1 as key. intros key.
  revert live. induction staged as [|x staged IH]; intros live; simpl; [done|].
  etrans; [apply IH|apply splice1_sublist].
Qed.

Lemma removeDeadBlackHoles_shrunk w : shrunk w (removeDeadBlackHoles w).
Proof.
  rewrite removeDeadBlackHoles_eq.
  repeat split; try reflexivity. apply flushByStagedIndex_sublist.
Qed.

Lemma removeEatenPellets_shrunk w : shrunk w (removeEatenPellets w).
Proof.
  rewrite removeEatenPellets_eq.
  repeat split; try reflexivity. apply flush_sublist.
Qed.

Lemma removeEatenSprites_shrunk w : shrunk w (removeEatenSprites w).
Proof.
  rewrite removeEatenSprites_eq.
  repeat split; try reflexivity. apply flush_sublist.
Qed.

(** ** The two steps that make objects *)

Lemma spawnBlackHole_made w :
  let W :=
    spawnBlackHole random
      (BlackHolesData.spawnInterval (GameData.blackHoles (data w))) w in
  fixed W = fixed w ∧ pelletObj W = pelletObj w ∧
  players W = players w ∧ pellets W = pellets w ∧
  blackHoles W = blackHoles w ++ spawned w ∧
  nextRef W = (nextRef w + length (spawned w))%nat.
Proof.
  unfold spawnBlackHole, spawned, roundRandom. cbv zeta.
  destruct (remIsZero _ _); repeat split; simpl.
  - lia.
  - by rewrite app_nil_r.
  - lia.
Qed.

Lemma supplied_nil w : supplied [] (pelletObj w) (nextRef w) (seed w) w = w.
Proof. destruct w. unfold supplied. state_cbv. by rewrite app_nil_r. Qed.

Lemma supplied_supplied fresh1 po1 n1 sd1 fresh2 po2 n2 sd2 w :
  supplied fresh2 po2 n2 sd2 (supplied fresh1 po1 n1 sd1 w)
  = supplied (fresh1 ++ fresh2) po2 n2 sd2 w.
Proof. destruct w. unfold supplied. state_cbv. by rewrite app_assoc. Qed.

(** One turn of the loop of placePellets makes one pellet, under the next
    free reference, with the configured attributes. *)
Lemma placePellet_exact w :
  ∃ pl sd,
    placePellet random w
    = supplied [nextRef w] (<[nextRef w := pl]> (pelletObj w))
        (S (nextRef w)) sd w ∧
    asConfigured (GameData.pellets (data w)) pl.
Proof.
  unfold placePellet, roundRandom, supplied, asConfigured.
  destruct (PelletsData.size (GameData.pellets (data w))) as [n|f] eqn:Hsize;
    cbv zeta; state_cbv; rewrite alter_insert_eq by done;
    (eexists _, _; split; [reflexivity|]); simpl;
    (split; [by destruct (PelletsData.value _)|]); by intros ? [= ->].
Qed.

Lemma placePellets_exact qty w :
  ∃ po sd,
    placePellets random qty w
    = supplied (seq (nextRef w) (Z.to_nat qty)) po
        (nextRef w + Z.to_nat qty)%nat sd w ∧
    (∀ p, p ∉ seq (nextRef w) (Z.to_nat qty) → po !! p = pelletObj w !! p) ∧
    (∀ p, p ∈ seq (nextRef w) (Z.to_nat qty) →
       ∃ pl, po !! p = Some pl ∧ asConfigured (GameData.pellets (data w)) pl).
Proof.
  unfold placePellets. induction (Z.to_nat qty) as [|k IH].
  - exists (pelletObj w), (seed w). simpl. rewrite Nat.add_0_r, supplied_nil.
    split; [done|]. split; [done|]. intros p Hp. by apply elem_of_nil in Hp.
  - destruct IH as (po & sd & E & Hold & Hnew).
    change (Nat.iter (S k) (placePellet random) w)
      with (placePellet random (Nat.iter k (placePellet random) w)).
    rewrite E.
    destruct (placePellet_exact (supplied (seq (nextRef w) k) po
                                   (nextRef w + k)%nat sd w))
      as (pl & sd' & -> & Hpl).
    rewrite supplied_supplied.
    assert (nextRef (supplied (seq (nextRef w) k) po (nextRef w + k)%nat sd w)
            = (nextRef w + k)%nat) as -> by (destruct w; reflexivity).
    assert (pelletObj (supplied (seq (nextRef w) k) po (nextRef w + k)%nat sd w)
            = po) as -> by (destruct w; reflexivity).
    assert (data (supplied (seq (nextRef w) k) po (nextRef w + k)%nat sd w)
            = data w) as Hd by (destruct w; reflexivity).
    rewrite Hd in Hpl.
    exists (<[(nextRef w + k)%nat := pl]> po), sd'.
    rewrite seq_S. split; [f_equal; lia|]. split.
    + intros p Hp. apply not_elem_of_app in Hp as [Hp1 Hp2].
      rewrite lookup_insert_ne; [by apply Hold|].
      intros <-. apply Hp2. left.
    + intros p Hp. apply elem_of_app in Hp as [Hp|Hp].
      * destruct (decide (p = (nextRef w + k)%nat)) as [->|Hne].
        -- exists pl. by rewrite lookup_insert_eq.
        -- rewrite lookup_insert_ne by done. by apply Hnew.
      * apply list_elem_of_singleton in Hp as ->.
        exists pl. by rewrite lookup_insert_eq.
Qed.

Lemma placeNewPellets_exact w :
  ∃ po sd,
    placeNewPellets random
      (PelletsData.newQuantity (GameData.pellets (data w))) w
    = supplied (seq (nextRef w) (supply w)) po (nextRef w + supply w)%nat sd w ∧
    (∀ p, p ∉ seq (nextRef w) (supply w) → po !! p = pelletObj w !! p) ∧
    (∀ p, p ∈ seq (nextRef w) (supply w) →
       ∃ pl, po !! p = Some pl ∧ asConfigured (GameData.pellets (data w)) pl).
Proof.
  unfold placeNewPellets, supply. destruct (remIsZero _ _).
  - apply placePellets_exact.
  - exists (pelletObj w), (seed w). simpl. rewrite Nat.add_0_r, supplied_nil.
    split; [done|]. split; [done|]. intros p Hp. by apply elem_of_nil in Hp.
Qed.

(** ** A tick as a spawn, steps that only remove, and a supply *)

Lemma tick_split w :
  ∃ W9,
    shrunk
      (spawnBlackHole random
         (BlackHolesData.spawnInterval (GameData.blackHoles (data w))) w) W9 ∧
    Tick w
    = placeNewPellets random
        (PelletsData.newQuantity (GameData.pellets (data W9))) W9.
Proof.
  unfold tick. cbv zeta.
  set (W1 := spawnBlackHole random _ w).
  set (W2 := controlBlackHoles displayHole drain W1).
  set (W3 := removeDeadBlackHoles W2).
  set (W4 := removeEatenPellets W3).
  set (W5 := controlSprites control W4).
  set (W6 := spritesEatPellets growth W5).
  set (W7 := removeEatenPellets W6).
  set (W8 := spritesEatSprites W7).
  set (W9 := removeEatenSprites W8).
  exists W9. split; [|reflexivity].
  assert (shrunk W1 W2) as H2
    by apply steady_shrunk, controlBlackHoles_steady.
  assert (shrunk W2 W3) as H3 by apply removeDeadBlackHoles_shrunk.
  assert (shrunk W3 W4) as H4 by apply removeEatenPellets_shrunk.
  assert (shrunk W4 W5) as H5 by apply steady_shrunk, controlSprites_steady.
  assert (shrunk W5 W6) as H6
    by apply steady_shrunk, spritesEatPellets_steady.
  assert (shrunk W6 W7) as H7 by apply removeEatenPellets_shrunk.
  assert (shrunk W7 W8) as H8
    by apply steady_shrunk, spritesEatSprites_steady.
  assert (shrunk W8 W9) as H9 by apply removeEatenSprites_shrunk.
  clearbody W1 W2 W3 W4 W5 W6 W7 W8 W9.
  repeat (eapply shrunk_trans; [eassumption|]). apply shrunk_refl.
Qed.

Lemma fixed_data w w' : fixed w' = fixed w → data w' = data w.
Proof. unfold fixed. by intros [= _ _ -> _ _ _ _ _]. Qed.

Lemma fixed_supply w w' : fixed w' = fixed w → supply w' = supply w.
Proof. unfold fixed, supply. by intros [= _ _ -> -> _ _ _ _]. Qed.

Lemma fixed_supplied fresh po n sd w : fixed (supplied fresh po n sd w) = fixed w.
Proof. by destruct w. Qed.

(** What a tick makes and what it keeps. *)
Lemma tick_made w :
  let n := (nextRef w + length (spawned w))%nat in
  ∃ kept,
    kept `sublist_of` pellets w ∧
    pellets (Tick w) = kept ++ seq n (supply w) ∧
    players (Tick w) `sublist_of` players w ∧
    blackHoles (Tick w) `sublist_of` blackHoles w ++ spawned w ∧
    nextRef (Tick w) = (n + supply w)%nat ∧
    fixed (Tick w) = fixed w ∧
    (∀ p, p ∉ seq n (supply w) → pelletObj (Tick w) !! p = pelletObj w !! p) ∧
    (∀ p, p ∈ seq n (supply w) →
       ∃ pl, pelletObj (Tick w) !! p = Some pl ∧
             asConfigured (GameData.pellets (data w)) pl).
Proof.
  intros n. destruct (tick_split w) as (W9 & Hsh & ->).
  destruct (spawnBlackHole_made w) as (F1 & O1 & A1 & B1 & C1 & N1).
  destruct Hsh as (F & O & N & _ & A & B & C).
  rewrite F1 in F. rewrite O1 in O. rewrite N1 in N.
  rewrite A1 in A. rewrite B1 in B. rewrite C1 in C.
  fold n in N.
  destruct (placeNewPellets_exact W9) as (po & sd & -> & Hold & Hnew).
  rewrite (fixed_supply _ _ F), N, O, (fixed_data _ _ F) in *.
  exists (pellets W9).
  assert (∀ fresh m, pellets (supplied fresh po m sd W9) = pellets W9 ++ fresh
          ∧ players (supplied fresh po m sd W9) = players W9
          ∧ blackHoles (supplied fresh po m sd W9) = blackHoles W9
          ∧ nextRef (supplied fresh po m sd W9) = m
          ∧ pelletObj (supplied fresh po m sd W9) = po)
    as Hs by (intros; by destruct W9).
  destruct (Hs (seq n (supply w)) (n + supply w)%nat)
    as (-> & -> & -> & -> & ->).
  rewrite fixed_supplied. done.
Qed.

(** ** A tick never writes the settings *)

Lemma fixed_run w : fixed (Run w) = fixed w.
Proof.
  destruct (run_cases w) as [-> | [_ ->]]; [done|].
  by destruct (tick_made w) as (kept & _ & _ & _ & _ & _ & F & _).
Qed.

(** X1: run() changes neither the canvas size, the configuration,
    framesElapsed, the started and paused flags, the animation loop's
    counter nor the console, whether it ticks or returns at the guard.
    So framesElapsed only moves through update(): however many times
    run() is called in a row, the number of pellets the next tick
    supplies stays what it was. *)
Theorem run_keeps_settings w k :
  fixed (Nat.iter k Run w) = fixed w ∧ supply (Nat.iter k Run w) = supply w.
Proof.
  assert (fixed (Nat.iter k Run w) = fixed w) as H.
  { induction k as [|k IH]; [done|].
    change (Nat.iter (S k) Run w) with (Run (Nat.iter k Run w)).
    by rewrite fixed_run. }
  split; [done|]. by apply fixed_supply.
Qed.

(** ** What a tick can add and remove *)

(** X2: run() never adds a player and never reorders the players: the
    players after it are the players before it with some left out. *)
Theorem run_only_removes_players w :
  players (run random control displayHole growth drain w)
    `sublist_of` players w.
Proof.
  destruct (run_cases w) as [-> | [_ ->]]; [done|].
  by destruct (tick_made w) as (kept & _ & _ & A & _).
Qed.

(** X3: at most one hazard is added by a run(), the one spawnBlackHole
    makes on a frame the spawn interval divides, and the others keep
    their order: the hazards after run() are the hazards before it,
    followed by the spawned one, with some left out. *)
Theorem run_adds_only_the_spawned_hazard w :
  blackHoles (Run w) `sublist_of` blackHoles w ++ spawned w.
Proof.
  destruct (run_cases w) as [-> | [_ ->]]; [by apply sublist_inserts_r|].
  by destruct (tick_made w) as (kept & _ & _ & _ & C & _).
Qed.

(** X4: a tick ends with the pellets it kept, in their order, followed by
    the new ones: as many as newQuantity when framesElapsed is a multiple
    of newPelletsInterval and none otherwise, numbered in the order they
    were made after the hazard spawned in the same tick. *)
Theorem run_supplies_pellets w :
  running w →
  ∃ kept,
    kept `sublist_of` pellets w ∧
    pellets (Run w)
    = kept ++ seq (nextRef w + length (spawned w)) (supply w) ∧
    nextRef (Run w) = (nextRef w + length (spawned w) + supply w)%nat.
Proof.
  intros Hr. rewrite (run_running w Hr).
  destruct (tick_made w) as (kept & Hk & Hp & _ & _ & Hn & _).
  by exists kept.
Qed.

(** X5: run() never changes a pellet that exists: every pellet object
    made before the call is the same after it, eaten or not (eatPellet
    and suckPellet as modelled only stage the pellet). *)
Theorem run_never_alters_a_pellet w p :
  (p < nextRef w)%nat →
  pelletObj (run random control displayHole growth drain w) !! p
  = pelletObj w !! p.
Proof.
  intros Hp. destruct (run_cases w) as [-> | [_ ->]]; [done|].
  destruct (tick_made w) as (kept & _ & _ & _ & _ & _ & _ & Hold & _).
  apply Hold. rewrite elem_of_seq. lia.
Qed.

(** X6: every pellet a tick supplies carries the configured value, or the
    configured value function applied to the pellet's own size, and the
    configured size when that is a number. *)
Theorem run_supplies_configured_pellets w p :
  running w →
  p ∈ seq (nextRef w + length (spawned w)) (supply w) →
  ∃ pl, pelletObj (Run w) !! p = Some pl ∧
        asConfigured (GameData.pellets (data w)) pl.
Proof.
  intros Hr Hp. rewrite (run_running w Hr).
  destruct (tick_made w) as (kept & _ & _ & _ & _ & _ & _ & _ & Hnew).
  by apply Hnew.
Qed.

(** ** The collections stay duplicate-free *)

Lemma spawned_fresh w b : b ∈ spawned w → b = nextRef w.
Proof.
  unfold spawned. destruct (remIsZero _ _); intros Hb.
  - by apply list_elem_of_singleton in Hb.
  - by apply elem_of_nil in Hb.
Qed.

Lemma spawned_NoDup w : NoDup (spawned w).
Proof.
  unfold spawned. destruct (remIsZero _ _); [apply NoDup_singleton|constructor].
Qed.

Lemma tidy_tick w : tidy w → tidy (Tick w).
Proof.
  intros (Hps & Hpl & Hbh & Bpl & Bbh).
  destruct (tick_made w) as (kept & Hk & Hp & A & C & Hn & _).
  assert (NoDup (blackHoles w ++ spawned w)) as Hall.
  { apply NoDup_app. split; [done|]. split; [|apply spawned_NoDup].
    intros b Hb Hs. apply spawned_fresh in Hs as ->.
    specialize (Bbh _ Hb). lia. }
  unfold tidy. rewrite Hp, Hn. repeat split.
  - exact (sublist_NoDup _ _ Hps A).
  - apply NoDup_app. split; [exact (sublist_NoDup _ _ Hpl Hk)|].
    split; [|apply NoDup_seq].
    intros p Hin Hseq. apply elem_of_seq in Hseq.
    specialize (Bpl p (elem_of_sublist _ _ _ Hin Hk)). lia.
  - exact (sublist_NoDup _ _ Hall C).
  - intros p Hin. apply elem_of_app in Hin as [Hin|Hin].
    + specialize (Bpl p (elem_of_sublist _ _ _ Hin Hk)). lia.
    + apply elem_of_seq in Hin. lia.
  - intros b Hin.
    apply (elem_of_sublist _ _ _ Hin) in C.
    apply elem_of_app in C as [Hb|Hs].
    + specialize (Bbh _ Hb). lia.
    + pose proof (spawned_fresh _ _ Hs) as ->.
      assert (0 < length (spawned w))%nat
        by (destruct (spawned w); [by apply elem_of_nil in Hs|simpl; lia]).
      lia.
Qed.

(** X7: run() keeps the collections well formed: if no player, pellet or
    hazard is held twice and every pellet and hazard is older than the
    next object to be made, the same holds after the call, with the new
    pellets and the spawned hazard included. *)
Theorem run_keeps_collections_duplicate_free w : tidy w → tidy (Run w).
Proof.
  intros H. destruct (run_cases w) as [-> | [_ ->]]; [done|]. by apply tidy_tick.
Qed.

(** ** pause() and continue() *)

(** X8: a paused game stands still: however often run() is called after
    pause(), the game is what pause() left. *)
Theorem paused_game_stands_still w k : Nat.iter k Run (pause w) = pause w.
Proof.
  induction k as [|k IH]; [done|].
  change (Nat.iter (S k) Run (pause w)) with (Run (Nat.iter k Run (pause w))).
  rewrite IH. unfold run.
  change (paused (pause w)) with (Some true). simpl. by rewrite orb_true_r.
Qed.

(** X9: continue() undoes pause(): on a game that was not paused, pause()
    followed by continue() gives back the very same game, so the next
    run() does what it would have done. *)
Theorem continue_undoes_pause w :
  paused w = Some false →
  continue (pause w) = w ∧ Run (continue (pause w)) = Run w.
Proof.
  intros Hp.
  assert (continue (pause w) = w) as ->; [|done].
  destruct w. simpl in Hp. subst. reflexivity.
Qed.

(** X10: continue() does not start a game: if the game was never started,
    run() after continue() still does nothing. *)
Theorem continue_does_not_start w :
  truthy (started w) = false → Run (continue w) = continue w.
Proof.
  intros Hs. unfold run.
  change (started (continue w)) with (started w). by rewrite Hs.
Qed.

(** ** placePellets() *)

Lemma supplied_fields fresh po n sd w :
  pellets (supplied fresh po n sd w) = pellets w ++ fresh ∧
  nextRef (supplied fresh po n sd w) = n ∧
  pelletObj (supplied fresh po n sd w) = po ∧
  players (supplied fresh po n sd w) = players w ∧
  blackHoles (supplied fresh po n sd w) = blackHoles w ∧
  eatenPellets (supplied fresh po n sd w) = eatenPellets w ∧
  eatenSprites (supplied fresh po n sd w) = eatenSprites w ∧
  deadBlackHoles (supplied fresh po n sd w) = deadBlackHoles w ∧
  spriteObj (supplied fresh po n sd w) = spriteObj w ∧
  holeObj (supplied fresh po n sd w) = holeObj w ∧
  trace (supplied fresh po n sd w) = trace w.
Proof. by destruct w. Qed.

(** X11: placePellets( qty ) appends qty pellets, made one after the other,
    behind the pellets there are, and changes nothing else of the game but
    the random generator: not the pellets there are, the players, the
    hazards, the staging arrays, the flags or the counters. *)
Theorem placePellets_appends_new_pellets qty w :
  let w' := placePellets random qty w in
  pellets w' = pellets w ++ seq (nextRef w) (Z.to_nat qty) ∧
  nextRef w' = (nextRef w + Z.to_nat qty)%nat ∧
  (∀ p, (p < nextRef w)%nat → pelletObj w' !! p = pelletObj w !! p) ∧
  fixed w' = fixed w ∧
  players w' = players w ∧ blackHoles w' = blackHoles w ∧
  eatenPellets w' = eatenPellets w ∧ eatenSprites w' = eatenSprites w ∧
  deadBlackHoles w' = deadBlackHoles w ∧
  spriteObj w' = spriteObj w ∧ holeObj w' = holeObj w.
Proof.
  cbv zeta. destruct (placePellets_exact qty w) as (po & sd & -> & Hold & _).
  rewrite fixed_supplied.
  destruct (supplied_fields (seq (nextRef w) (Z.to_nat qty)) po
              (nextRef w + Z.to_nat qty)%nat sd w)
    as (-> & -> & -> & -> & -> & -> & -> & -> & -> & -> & _).
  repeat split; try done.
  intros p Hp. apply Hold. rewrite elem_of_seq. lia.
Qed.

(** X12: a quantity of 0 or less makes placePellets() a no-op: the loop
    body never runs. *)
Theorem placePellets_nonpositive qty w :
  qty ≤ 0 → placePellets random qty w = w.
Proof.
  intros Hq. unfold placePellets.
  by replace (Z.to_nat qty) with 0%nat by lia.
Qed.

(** X13: placePellets() gives every pellet it makes the configured value,
    or the configured value function applied to that pellet's own size,
    and the configured size when that is a number. *)
Theorem placePellets_configures_new_pellets qty w p :
  p ∈ seq (nextRef w) (Z.to_nat qty) →
  ∃ pl, pelletObj (placePellets random qty w) !! p = Some pl ∧
        asConfigured (GameData.pellets (data w)) pl.
Proof.
  destruct (placePellets_exact qty w) as (po & sd & -> & _ & Hnew).
  destruct (supplied_fields (seq (nextRef w) (Z.to_nat qty)) po
              (nextRef w + Z.to_nat qty)%nat sd w)
    as (_ & _ & -> & _).
  apply Hnew.
Qed.

(** X14: placing a pellets and then b pellets is placing a + b pellets at
    once. *)
Theorem placePellets_in_two_goes a b w :
  0 ≤ a → 0 ≤ b →
  placePellets random b (placePellets random a w)
  = placePellets random (a + b) w.
Proof.
  intros Ha Hb. unfold placePellets.
  rewrite Z2Nat.inj_add by done.
  rewrite (Nat.add_comm (Z.to_nat a)). by rewrite Nat.iter_add.
Qed.

(** ** The flush loops, in general *)

Lemma removeByIndexOf_length (live : list ref) x :
  length (removeByIndexOf live x) = (length live - 1)%nat.
Proof.
  destruct (decide (x ∈ live)) as [Hin|Hout].
  - destruct (indexOfFrom_in x live 0 Hin) as (n & Hn & Hl).
    rewrite (removeByIndexOf_found live x n) by (unfold indexOf; lia).
    by apply length_delete.
  - rewrite removeByIndexOf_missing by done. rewrite length_take. lia.
Qed.

Lemma flush_length (staged live : list ref) :
  length (flush staged live) = (length live - length staged)%nat.
Proof.
  unfold flush. revert live.
  induction staged as [|x staged IH]; intros live; simpl; [lia|].
  rewrite IH, removeByIndexOf_length. lia.
Qed.

Lemma flush_snoc (staged live : list ref) x :
  flush (staged ++ [x]) live = removeByIndexOf (flush staged live) x.
Proof. unfold flush. by rewrite foldl_app. Qed.

Lemma filter_ne_absent (l : list ref) x :
  x ∉ l → filter (λ y, y ≠ x) l = l.
Proof.
  induction l as [|z l IH]; intros Hz; [done|].
  apply not_elem_of_cons in Hz as [Hne Hz].
  rewrite filter_cons_True by congruence. by rewrite IH.
Qed.

(** Removing [x] from the first [k] of a duplicate-free list: [x] goes if
    it is among them, the last of them goes otherwise. *)
Lemma removeByIndexOf_take (F : list ref) x k :
  NoDup F → (k ≤ length F)%nat →
  removeByIndexOf (take k F) x = take (k - 1) (filter (λ y, y ≠ x) F).
Proof.
  intros Hnd Hk.
  assert (NoDup (take k F)) as HndT
    by (eapply sublist_NoDup; [exact Hnd|apply sublist_take]).
  destruct (decide (x ∈ F)) as [HinF|HoutF].
  - apply list_elem_of_split in HinF as (F1 & F2 & ->).
    apply NoDup_app in Hnd as (_ & Hdis & Hnd2).
    apply NoDup_cons in Hnd2 as [Hx2 _].
    assert (x ∉ F1) as Hx1 by (intros Hin; apply (Hdis x Hin); left).
    rewrite filter_ne_middle by done.
    destruct (decide (length F1 < k)%nat) as [Hlt|Hge].
    + (* x is among the first k *)
      rewrite take_app_ge by lia.
      replace (k - length F1)%nat with (S (k - length F1 - 1)) by lia.
      cbn [take].
      assert (x ∈ F1 ++ x :: take (k - length F1 - 1) F2) as Hin
        by (apply elem_of_app; right; left).
      rewrite take_app_ge in HndT by lia.
      replace (k - length F1)%nat with (S (k - length F1 - 1)) in HndT by lia.
      cbn [take] in HndT.
      rewrite (removeByIndexOf_filter _ x HndT Hin).
      rewrite filter_ne_middle; [|done|].
      * rewrite take_app_ge by lia. do 2 f_equal. lia.
      * intros Hin2. apply Hx2.
        eapply elem_of_sublist; [exact Hin2|apply sublist_take].
    + (* x lies beyond the first k *)
      rewrite take_app_le by lia.
      rewrite removeByIndexOf_missing.
      * rewrite length_take, take_take, take_app_le by lia. f_equal. lia.
      * intros Hin. apply Hx1.
        eapply elem_of_sublist; [exact Hin|apply sublist_take].
  - rewrite filter_ne_absent by done.
    rewrite removeByIndexOf_missing.
    + rewrite length_take, take_take. f_equal. lia.
    + intros Hin. apply HoutF.
      eapply elem_of_sublist; [exact Hin|apply sublist_take].
Qed.

(** On a duplicate-free collection the flush removes whatever is staged,
    and one more reference from the end for every staging that finds its
    reference gone. *)
Lemma flush_take_filter (staged live : list ref) :
  NoDup live →
  flush staged live
  = take (length live - length staged) (filter (λ y, y ∉ staged) live).
Proof.
  intros Hnd. induction staged as [|x staged IH] using rev_ind.
  - rewrite take_ge by (rewrite Nat.sub_0_r; apply length_filter).
    unfold flush. simpl. clear.
    induction live as [|z live IHl]; [done|].
    rewrite filter_cons_True by apply not_elem_of_nil. by rewrite <- IHl.
  - rewrite flush_snoc.
    pose proof (flush_length staged live) as Hlen.
    rewrite IH in Hlen |- *. rewrite length_take in Hlen.
    rewrite removeByIndexOf_take; [|by apply NoDup_filter|lia].
    rewrite length_app. simpl.
    replace (length live - (length staged + 1))%nat
      with (length live - length staged - 1)%nat by lia.
    f_equal. rewrite list_filter_filter. apply list_filter_iff.
    intros y. rewrite not_elem_of_app, not_elem_of_cons.
    split.
    + intros [Hne Hst]. split; [done|]. split; [done|apply not_elem_of_nil].
    + intros [Hst [Hne _]]. done.
Qed.

Lemma removeEatenPellets_pellets w :
  pellets (removeEatenPellets w) = flush (eatenPellets w) (pellets w).
Proof. rewrite removeEatenPellets_eq. by destruct w. Qed.

Lemma removeEatenSprites_players w :
  players (removeEatenSprites w) = flush (eatenSprites w) (players w).
Proof. rewrite removeEatenSprites_eq. by destruct w. Qed.

Lemma removeDeadBlackHoles_blackHoles w :
  blackHoles (removeDeadBlackHoles w)
  = flushByStagedIndex (deadBlackHoles w) (blackHoles w).
Proof. rewrite removeDeadBlackHoles_eq. by destruct w. Qed.

(** X15: each entry of a staging array costs exactly one live element,
    whether its reference is still live or not: the pellet flush and the
    sprite flush shorten their collection by the length of the staging
    array, down to the empty collection. *)
Theorem flush_removes_one_element_per_entry w :
  length (pellets (removeEatenPellets w))
  = (length (pellets w) - length (eatenPellets w))%nat ∧
  length (players (removeEatenSprites w))
  = (length (players w) - length (eatenSprites w))%nat.
Proof.
  rewrite removeEatenPellets_pellets, removeEatenSprites_players.
  split; apply flush_length.
Qed.

(** X16: what the pellet flush and the sprite flush leave of a
    duplicate-free collection: the staged references are gone, and for
    every entry that was staged twice or was not live, one more reference
    is taken from the end of what remains. *)
Theorem flush_takes_staged_then_from_the_end w :
  NoDup (pellets w) → NoDup (players w) →
  pellets (removeEatenPellets w)
  = take (length (pellets w) - length (eatenPellets w))
      (filter (λ p, p ∉ eatenPellets w) (pellets w)) ∧
  players (removeEatenSprites w)
  = take (length (players w) - length (eatenSprites w))
      (filter (λ s, s ∉ eatenSprites w) (players w)).
Proof.
  intros Hp Hs. rewrite removeEatenPellets_pellets, removeEatenSprites_players.
  split; by apply flush_take_filter.
Qed.

(** ** The hazards of a tick *)

Lemma indexOfFrom_NoDup (pre rest : list ref) x i :
  x ∉ pre → indexOfFrom x (pre ++ x :: rest) i = i + Z.of_nat (length pre).
Proof.
  revert i. induction pre as [|y pre IH]; intros i Hx; simpl.
  - rewrite decide_True by done. lia.
  - apply not_elem_of_cons in Hx as [Hne Hx].
    rewrite decide_False by done. rewrite IH by done. lia.
Qed.

Lemma delete_beyond {A} (l : list A) j : (length l ≤ j)%nat → delete j l = l.
Proof.
  intros H. rewrite delete_take_drop, take_ge, drop_ge by lia.
  by rewrite app_nil_r.
Qed.

Lemma indexOf_key (done_ rest : list ref) x :
  NoDup (done_ ++ x :: rest) →
  indexOf x (done_ ++ x :: rest) = Z.of_nat (length done_).
Proof.
  intros Hnd. unfold indexOf. rewrite indexOfFrom_NoDup; [lia|].
  apply NoDup_app in Hnd as (_ & Hdis & _).
  intros Hin. apply (Hdis x Hin). left.
Qed.

(** Once the position to splice has passed the end of the array, the
    remaining turns of the loop of lines 292-296 remove nothing. *)
Lemma splice_beyond (key done_ rest live : list ref) :
  NoDup key → key = done_ ++ rest → (length live ≤ length done_)%nat →
  foldl (λ live x, splice1 (indexOf x key) live) live rest = live.
Proof.
  intros Hnd. revert done_.
  induction rest as [|x rest IH]; intros done_ Hkey Hlen; [done|].
  cbn [foldl]. subst key.
  rewrite indexOf_key, splice1_nat, delete_beyond by done.
  apply (IH (done_ ++ [x])); [by rewrite <- app_assoc|].
  rewrite length_app. simpl. lia.
Qed.

(** The turns of that loop splice positions j, j+1, ... of an array whose
    first j elements are [pre]. *)
Lemma splice_run (key done_ rest pre l : list ref) :
  NoDup key → key = done_ ++ rest → length pre = length done_ →
  foldl (λ live x, splice1 (indexOf x key) live) (pre ++ l) rest
  = pre ++ everyOther (length rest) l.
Proof.
  intros Hnd. revert done_ pre l.
  induction rest as [|x rest IH]; intros done_ pre l Hkey Hlen; [done|].
  cbn [foldl length].
  assert (indexOf x key = Z.of_nat (length pre)) as ->
    by (subst key; rewrite indexOf_key by done; lia).
  rewrite splice1_nat.
  assert (key = (done_ ++ [x]) ++ rest) as Hkey'
    by (by rewrite <- app_assoc).
  destruct l as [|a [|b l]].
  - cbn [everyOther]. rewrite !app_nil_r, delete_beyond by lia.
    apply (splice_beyond key (done_ ++ [x])); [done|done|].
    rewrite length_app. simpl. lia.
  - rewrite delete_middle. cbn [everyOther]. rewrite !app_nil_r.
    apply (splice_beyond key (done_ ++ [x])); [done|done|].
    rewrite !length_app. simpl. lia.
  - rewrite delete_middle. cbn [everyOther].
    rewrite (cons_middle b pre l), app_assoc.
    rewrite (IH (done_ ++ [x]) (pre ++ [b]) l Hkey').
    + by rewrite <- app_assoc.
    + rewrite !length_app. simpl. lia.
Qed.

Lemma flushByStagedIndex_everyOther (staged live : list ref) :
  NoDup staged →
  flushByStagedIndex staged live = everyOther (length staged) live.
Proof.
  intros Hnd. unfold flushByStagedIndex.
  apply (splice_run staged [] staged [] live); done.
Qed.

(** X17: the flush of the dead hazards does not look at which hazards are
    dead, only at how many: with k distinct hazards staged it removes the
    first live hazard, keeps the second, removes the third, and so on k
    times over, and keeps the rest. *)
Theorem dead_hazard_flush_removes_every_other_hazard w :
  NoDup (deadBlackHoles w) →
  blackHoles (removeDeadBlackHoles w)
  = everyOther (length (deadBlackHoles w)) (blackHoles w) ∧
  deadBlackHoles (removeDeadBlackHoles w) = [].
Proof.
  intros Hnd. rewrite removeDeadBlackHoles_blackHoles.
  split; [by apply flushByStagedIndex_everyOther|].
  rewrite removeDeadBlackHoles_eq. by destruct w.
Qed.

Lemma filter_ext_in {A} (P Q : A → Prop) `{!∀ x, Decision (P x)}
    `{!∀ x, Decision (Q x)} (l : list A) :
  (∀ x, x ∈ l → P x ↔ Q x) → filter P l = filter Q l.
Proof.
  induction l as [|a l IH]; intros Hext; [done|].
  rewrite !filter_cons.
  rewrite IH by (intros x Hx; apply Hext; by right).
  destruct (decide (P a)) as [Hp|Hp], (decide (Q a)) as [Hq|Hq]; try done.
  - destruct Hq. apply Hext; [left|done].
  - destruct Hp. apply Hext; [left|done].
Qed.

Lemma suckPellets_hazards b w :
  (holeObj (suckPellets b w), deadBlackHoles (suckPellets b w))
  = (holeObj w, deadBlackHoles w).
Proof.
  unfold suckPellets.
  apply (forEach_keeps (λ w, (holeObj w, deadBlackHoles w))).
  intros p w0. unfold suckPelletIfCan, BlackHole_suckPellet.
  repeat case_match; reflexivity.
Qed.

Lemma suckSprites_hazards b w :
  (holeObj (suckSprites drain b w), deadBlackHoles (suckSprites drain b w))
  = (holeObj w, deadBlackHoles w).
Proof.
  unfold suckSprites.
  apply (forEach_keeps (λ w, (holeObj w, deadBlackHoles w))).
  intros s w0. unfold suckSpriteIfCan, BlackHole_suckSprite. cbv zeta.
  repeat case_match; reflexivity.
Qed.

(** One turn of the loop over the hazards: display() on the hazard, and
    the hazard staged if that left it out of life. *)
Lemma controlBlackHole_hazards b w :
  holeObj (controlBlackHole displayHole drain b w)
  = alter displayHole b (holeObj w) ∧
  deadBlackHoles (controlBlackHole displayHole drain b w)
  = deadBlackHoles w
    ++ (if diesNow displayHole (holeObj w) b then [b] else []).
Proof.
  unfold controlBlackHole, diesNow. cbv zeta.
  set (w1 := set_holeObj _ w).
  set (W := suckSprites drain b (suckPellets b w1)).
  assert ((holeObj W, deadBlackHoles W)
          = (alter displayHole b (holeObj w), deadBlackHoles w)) as H
    by (subst W; rewrite suckSprites_hazards, suckPellets_hazards; reflexivity).
  apply pair_equal_spec in H as [Ho Hd]. clearbody W.
  rewrite Ho, lookup_alter_eq.
  destruct (holeObj w !! b) as [bh|]; simpl.
  - destruct (BlackHole.isDead (displayHole bh)); simpl.
    + by rewrite <- Ho, <- Hd.
    + by rewrite app_nil_r.
  - by rewrite app_nil_r.
Qed.

Lemma forEach_controlBlackHole l w :
  NoDup l →
  let w' := forEach l (controlBlackHole displayHole drain) w in
  (∀ b, holeObj w' !! b
        = if decide (b ∈ l) then displayHole <$> holeObj w !! b
          else holeObj w !! b) ∧
  deadBlackHoles w'
  = deadBlackHoles w ++ filter (λ b, diesNow displayHole (holeObj w) b) l.
Proof.
  cbv zeta. revert w.
  induction l as [|x l IH]; intros w Hnd.
  - split; [done|]. by rewrite app_nil_r.
  - apply NoDup_cons in Hnd as [Hx Hnd].
    change (forEach (x :: l) (controlBlackHole displayHole drain) w)
      with (forEach l (controlBlackHole displayHole drain)
              (controlBlackHole displayHole drain x w)).
    destruct (IH (controlBlackHole displayHole drain x w) Hnd) as [Ho Hd].
    destruct (controlBlackHole_hazards x w) as [Ho1 Hd1].
    rewrite Ho1 in Ho, Hd. rewrite Hd1 in Hd. split.
    + intros b. rewrite Ho.
      destruct (decide (b = x)) as [->|Hne].
      * rewrite decide_False by done. rewrite decide_True by left.
        apply lookup_alter_eq.
      * rewrite lookup_alter_ne by done.
        destruct (decide (b ∈ l)) as [Hin|Hout].
        -- by rewrite decide_True by (by right).
        -- rewrite decide_False; [done|].
           intros Hin. by apply elem_of_cons in Hin as [?|?].
    + rewrite Hd, <- app_assoc. f_equal.
      rewrite filter_cons.
      rewrite (filter_ext_in
                 (λ b, diesNow displayHole (alter displayHole x (holeObj w)) b)
                 (λ b, diesNow displayHole (holeObj w) b)).
      * destruct (diesNow displayHole (holeObj w) x) eqn:E.
        -- by rewrite decide_True by done.
        -- by rewrite decide_False by (by intros []).
      * intros b Hb. unfold diesNow.
        rewrite lookup_alter_ne; [done|]. by intros ->.
Qed.

(** After the loop over the hazards nothing in a tick touches a hazard
    object. *)
Lemma holeObj_after_hazards w :
  holeObj (Tick w)
  = holeObj (controlBlackHoles displayHole drain
               (spawnBlackHole random
                  (BlackHolesData.spawnInterval
                     (GameData.blackHoles (data w))) w)).
Proof.
  unfold tick. cbv zeta.
  set (W2 := controlBlackHoles displayHole drain _).
  set (W3 := removeDeadBlackHoles W2).
  set (W4 := removeEatenPellets W3).
  set (W5 := controlSprites control W4).
  set (W6 := spritesEatPellets growth W5).
  set (W7 := removeEatenPellets W6).
  set (W8 := spritesEatSprites W7).
  set (W9 := removeEatenSprites W8).
  assert (holeObj W3 = holeObj W2) as H3
    by (subst W3; rewrite removeDeadBlackHoles_eq; by destruct W2).
  assert (holeObj W4 = holeObj W3) as H4
    by (subst W4; rewrite removeEatenPellets_eq; by destruct W3).
  assert (holeObj W5 = holeObj W4) as H5
    by (subst W5; unfold controlSprites; by apply forEach_keeps).
  assert (holeObj W6 = holeObj W5) as H6.
  { subst W6. unfold spritesEatPellets.
    apply forEach_keeps. intros. apply forEach_keeps. intros.
    unfold eatPelletIfCan, Sprite_eatPellet. cbv zeta.
    repeat case_match; reflexivity. }
  assert (holeObj W7 = holeObj W6) as H7
    by (subst W7; rewrite removeEatenPellets_eq; by destruct W6).
  assert (holeObj W8 = holeObj W7) as H8.
  { subst W8. unfold spritesEatSprites.
    apply forEachFrom_keeps. intros. apply forEach_keeps. intros.
    unfold eatOrBeEaten, valueThenEat, Sprite_eatOtherSprite. cbv zeta.
    repeat case_match; reflexivity. }
  assert (holeObj W9 = holeObj W8) as H9
    by (subst W9; rewrite removeEatenSprites_eq; by destruct W8).
  clearbody W2 W3 W4 W5 W6 W7 W8 W9.
  destruct (placeNewPellets_eq
              (PelletsData.newQuantity (GameData.pellets (data W9))) W9)
    as (fresh & po & n & sd & -> & _).
  destruct (supplied_fields fresh po n sd W9)
    as (_ & _ & _ & _ & _ & _ & _ & _ & _ & -> & _).
  congruence.
Qed.

Lemma spawnBlackHole_hazards w :
  let W :=
    spawnBlackHole random
      (BlackHolesData.spawnInterval (GameData.blackHoles (data w))) w in
  let cfg := GameData.blackHoles (data w) in
  blackHoles W = blackHoles w ++ spawned w ∧
  (∀ b, b ≠ nextRef w → holeObj W !! b = holeObj w !! b) ∧
  (spawned w = [nextRef w] →
   holeObj W !! nextRef w
   = Some (BlackHole.spawn (random (seed w) (env_width w))
             (random (S (seed w)) (env_height w))
             (BlackHole.new (BlackHolesData.size cfg)
                (BlackHolesData.power cfg) (BlackHolesData.lifeSpan cfg)))).
Proof.
  unfold spawnBlackHole, spawned, roundRandom. cbv zeta.
  destruct (remIsZero _ _); simpl.
  - split; [done|]. split.
    + intros b Hb. rewrite lookup_alter_ne, lookup_insert_ne by done. done.
    + intros _. by rewrite lookup_alter_eq, lookup_insert_eq.
  - split; [by rewrite app_nil_r|]. split; [done|]. intros [=].
Qed.

Lemma tidy_after_spawn w :
  tidy w → NoDup (blackHoles w ++ spawned w).
Proof.
  intros (_ & _ & Hbh & _ & Bbh).
  apply NoDup_app. split; [done|]. split; [|apply spawned_NoDup].
  intros b Hb Hs. apply spawned_fresh in Hs as ->.
  specialize (Bbh _ Hb). lia.
Qed.

(** X18: in a tick every hazard that was live gets display() exactly
    once, and the game itself changes it in no other way; with suckPellet
    and suckSprite as modelled, leaving the hazard alone, the hazard at the
    end of the tick is the hazard display() returned. *)
Theorem every_hazard_is_displayed_once w b :
  running w → tidy w → b ∈ blackHoles w →
  holeObj (Run w) !! b = displayHole <$> holeObj w !! b.
Proof.
  intros Hr Ht Hb. rewrite (run_running w Hr), holeObj_after_hazards.
  destruct (spawnBlackHole_hazards w) as (Hl & Hold & _).
  pose proof (tidy_after_spawn w Ht) as Hnd. rewrite <- Hl in Hnd.
  unfold controlBlackHoles.
  destruct (forEach_controlBlackHole _ (spawnBlackHole random
              (BlackHolesData.spawnInterval (GameData.blackHoles (data w))) w)
              Hnd) as [Ho _].
  rewrite Ho, Hl. rewrite decide_True by (apply elem_of_app; by left).
  rewrite Hold; [done|].
  destruct Ht as (_ & _ & _ & _ & Bbh). specialize (Bbh _ Hb). lia.
Qed.

(** X19: the hazards the loop over the hazards stages as dead are, in
    order, the live hazards that isDead finds out of life after this
    tick's display(), whatever they sucked (suckPellet and suckSprite as
    modelled leave the hazard alone). *)
Theorem hazards_out_of_life_are_staged w :
  NoDup (blackHoles w) →
  deadBlackHoles (controlBlackHoles displayHole drain w)
  = deadBlackHoles w
    ++ filter (λ b, diesNow displayHole (holeObj w) b) (blackHoles w).
Proof.
  intros Hnd. unfold controlBlackHoles.
  by destruct (forEach_controlBlackHole (blackHoles w) w Hnd) as [_ H].
Qed.

(** X20: on a frame the spawn interval divides, the tick makes one hazard
    with the configured size, power and life span, spawns it at a random
    position, and has called display() on it once when the tick ends. *)
Theorem spawned_hazard_is_configured_and_displayed w :
  running w → tidy w →
  remIsZero (frameCount w)
    (BlackHolesData.spawnInterval (GameData.blackHoles (data w))) = true →
  let cfg := GameData.blackHoles (data w) in
  holeObj (Run w) !! nextRef w
  = Some (displayHole
            (BlackHole.spawn (random (seed w) (env_width w))
               (random (S (seed w)) (env_height w))
               (BlackHole.new (BlackHolesData.size cfg)
                  (BlackHolesData.power cfg) (BlackHolesData.lifeSpan cfg)))).
Proof.
  intros Hr Ht Hz. cbv zeta.
  rewrite (run_running w Hr), holeObj_after_hazards.
  assert (spawned w = [nextRef w]) as Hs by (unfold spawned; by rewrite Hz).
  destruct (spawnBlackHole_hazards w) as (Hl & _ & Hnew).
  specialize (Hnew Hs).
  pose proof (tidy_after_spawn w Ht) as Hnd. rewrite <- Hl in Hnd.
  unfold controlBlackHoles.
  destruct (forEach_controlBlackHole _ (spawnBlackHole random
              (BlackHolesData.spawnInterval (GameData.blackHoles (data w))) w)
              Hnd) as [Ho _].
  rewrite Ho, Hl, Hs.
  rewrite decide_True by (apply elem_of_app; right; left).
  by rewrite Hnew.
Qed.

(** ** The players of a tick *)

(** X21: the control loop calls control() exactly once on every player
    and touches no other sprite. *)
Theorem every_player_is_controlled_once w s :
  NoDup (players w) →
  spriteObj (controlSprites control w) !! s
  = if decide (s ∈ players w) then control <$> spriteObj w !! s
    else spriteObj w !! s.
Proof.
  unfold controlSprites, forEach.
  generalize (players w) as l. intros l. revert w.
  induction l as [|x l IH]; intros w Hnd; [done|].
  apply NoDup_cons in Hnd as [Hx Hnd].
  cbn [foldl]. rewrite IH by done.
  change (spriteObj (set_spriteObj (alter control x (spriteObj w)) w))
    with (alter control x (spriteObj w)).
  destruct (decide (s = x)) as [->|Hne].
  - rewrite decide_False by done. rewrite decide_True by left.
    apply lookup_alter_eq.
  - rewrite lookup_alter_ne by done.
    destruct (decide (s ∈ l)) as [Hin|Hout].
    + by rewrite decide_True by (by right).
    + rewrite decide_False; [done|].
      intros Hin. by apply elem_of_cons in Hin as [?|?].
Qed.

(** ** Setting a game up *)

Section Lifecycle.

Context (chooseColors : nat → nat * bool).

Local Abbreviation Reachable :=
  (reachable random chooseColors control displayHole growth drain).

Lemma addPlayer_cases coloured player w :
  match addPlayer chooseColors coloured player w with
  | Returned w' =>
      w' = set_seed (seed w') (set_players (players w ++ [player]) w) ∧
      (coloured = true → seed w' = seed w)
  | Threw w' => coloured = false ∧ w' = set_seed (seed w') w
  end.
Proof.
  unfold addPlayer, chooseColorsForSprite.
  destruct coloured.
  - split; [by destruct w|done].
  - destruct (chooseColors (seed w)) as [sd [|]].
    + split; [by destruct w|done].
    + split; [done|by destruct w].
Qed.

Lemma addPlayer_Returned coloured player w w' :
  addPlayer chooseColors coloured player w = Returned w' →
  w' = set_seed (seed w') (set_players (players w ++ [player]) w).
Proof.
  intros E. pose proof (addPlayer_cases coloured player w) as H.
  rewrite E in H. apply H.
Qed.

Lemma addPlayer_Threw coloured player w w' :
  addPlayer chooseColors coloured player w = Threw w' →
  w' = set_seed (seed w') w.
Proof.
  intros E. pose proof (addPlayer_cases coloured player w) as H.
  rewrite E in H. apply H.
Qed.

(** X22: addPlayer() does not check whether the sprite is a player
    already: adding the same sprite twice leaves it in the players
    twice. *)
Theorem addPlayer_does_not_check_for_duplicates c1 c2 player w w1 w2 :
  addPlayer chooseColors c1 player w = Returned w1 →
  addPlayer chooseColors c2 player w1 = Returned w2 →
  players w2 = players w ++ [player; player].
Proof.
  intros E1%addPlayer_Returned E2%addPlayer_Returned.
  rewrite E2, E1. destruct w. simpl. by rewrite <- app_assoc.
Qed.

(** *** placePlayers *)

Lemma placePlayer_frame s w :
  (summary (placePlayer random s w), holeObj (placePlayer random s w),
   nextRef (placePlayer random s w), dom (spriteObj (placePlayer random s w)))
  = (summary w, holeObj w, nextRef w, dom (spriteObj w)).
Proof.
  unfold placePlayer, roundRandom. cbv zeta.
  apply pair_equal_spec. split; [reflexivity|]. cbn. apply dom_alter_L.
Qed.

Lemma forEach_placePlayer_seed l w :
  seed (forEach l (placePlayer random) w) = (seed w + 2 * length l)%nat.
Proof.
  unfold forEach. revert w.
  induction l as [|s l IH]; intros w; simpl; [lia|].
  rewrite IH. unfold placePlayer, roundRandom. simpl. lia.
Qed.

(** X23: placePlayers() moves sprites and draws two random numbers for
    each player; it creates and deletes no sprite and changes nothing
    else of the game. *)
Theorem placePlayers_draws_twice_per_player w :
  let w' := placePlayers random w in
  summary w' = summary w ∧ holeObj w' = holeObj w ∧ nextRef w' = nextRef w ∧
  dom (spriteObj w') = dom (spriteObj w) ∧
  seed w' = (seed w + 2 * length (players w))%nat.
Proof.
  cbv zeta. unfold placePlayers.
  pose proof (forEach_keeps
    (λ w, (summary w, holeObj w, nextRef w, dom (spriteObj w)))
    (players w) (placePlayer random) w placePlayer_frame) as H.
  cbv beta in H.
  repeat match type of H with
         | (_, _) = (_, _) => apply pair_equal_spec in H as [H ?]
         end.
  repeat split; try done. apply forEach_placePlayer_seed.
Qed.

(** X24: placePlayers() touches only the players: a sprite that is not in
    the game is where it was. *)
Theorem placePlayers_touches_only_players w s :
  s ∉ players w →
  spriteObj (placePlayers random w) !! s = spriteObj w !! s.
Proof.
  unfold placePlayers, forEach.
  generalize (players w) as l. intros l. revert w.
  induction l as [|x l IH]; intros w Hs; simpl; [done|].
  apply not_elem_of_cons in Hs as [Hne Hs].
  rewrite IH by done. unfold placePlayer, roundRandom. simpl.
  by rewrite lookup_alter_ne.
Qed.

(** *** From the constructor to a running game *)

(** X25: a new game has no players and no pellets, and its started and
    paused flags are not assigned: start() only prints the warning, and
    run() does nothing. *)
Theorem new_game_does_not_run cw ch d page :
  let g := Game_new cw ch d page in
  tidy g ∧ flushed g ∧
  start g = set_console (console page ++ [warning]) g ∧
  started (start g) = None ∧
  Run g = g ∧ Run (start g) = start g.
Proof.
  cbv zeta. split; [|split].
  - unfold tidy. simpl.
    repeat split; try apply NoDup_nil_2; intros ? H; by apply elem_of_nil in H.
  - done.
  - rewrite start_refused by (by left). done.
Qed.

(** X26: a game with a player added and a positive number of pellets
    placed starts: after start() the game is running and run() ticks. *)
Theorem set_up_game_runs coloured player qty w w' :
  addPlayer chooseColors coloured player w = Returned w' → 0 < qty →
  let g := start (placePellets random qty w') in
  running g ∧ Run g = Tick g.
Proof.
  intros E%addPlayer_Returned Hq. cbv zeta.
  assert (running (start (placePellets random qty w'))) as Hr.
  { destruct (placePellets_exact qty w') as (po & sd & -> & _).
    rewrite start_ok.
    - by split.
    - destruct (supplied_fields (seq (nextRef w') (Z.to_nat qty)) po
                  (nextRef w' + Z.to_nat qty)%nat sd w')
        as (_ & _ & _ & -> & _).
      rewrite E. destruct w. simpl. by destruct players0.
    - destruct (supplied_fields (seq (nextRef w') (Z.to_nat qty)) po
                  (nextRef w' + Z.to_nat qty)%nat sd w')
        as (-> & _).
      replace (Z.to_nat qty) with (S (Z.to_nat qty - 1)) by lia.
      simpl. by destruct (pellets w'). }
  split; [done|]. by apply run_running.
Qed.

(** *** What every reachable game satisfies *)

Lemma sound_same w w' :
  players w' = players w → pellets w' = pellets w →
  blackHoles w' = blackHoles w → nextRef w' = nextRef w →
  eatenPellets w' = eatenPellets w → eatenSprites w' = eatenSprites w →
  deadBlackHoles w' = deadBlackHoles w →
  tidy w ∧ flushed w → tidy w' ∧ flushed w'.
Proof. unfold tidy, flushed. by intros -> -> -> -> -> -> ->. Qed.

Lemma flushed_tick w : flushed (Tick w).
Proof.
  pose proof (tick_eq w) as H. cbv zeta in H.
  destruct H as (e_h & e_p & e_m & so & po & ho & n & sd & fresh
                 & _ & _ & _ & _ & ->).
  done.
Qed.

Lemma sound_run w : tidy w ∧ flushed w → tidy (Run w) ∧ flushed (Run w).
Proof.
  intros [Ht Hf].
  destruct (run_cases w) as [-> | [_ ->]]; [done|].
  split; [by apply tidy_tick|apply flushed_tick].
Qed.

Lemma sound_placePellets qty w :
  tidy w ∧ flushed w →
  tidy (placePellets random qty w) ∧ flushed (placePellets random qty w).
Proof.
  intros [(Hps & Hpl & Hbh & Bpl & Bbh) Hf].
  destruct (placePellets_exact qty w) as (po & sd & -> & _).
  unfold tidy, flushed.
  destruct (supplied_fields (seq (nextRef w) (Z.to_nat qty)) po
              (nextRef w + Z.to_nat qty)%nat sd w)
    as (-> & -> & _ & -> & -> & -> & -> & -> & _).
  split; [|done]. repeat split; try done.
  - apply NoDup_app. split; [done|]. split; [|apply NoDup_seq].
    intros p Hin Hseq. apply elem_of_seq in Hseq.
    specialize (Bpl p Hin). lia.
  - intros p Hin. apply elem_of_app in Hin as [Hin|Hin].
    + specialize (Bpl p Hin). lia.
    + apply elem_of_seq in Hin. lia.
  - intros b Hin. specialize (Bbh b Hin). lia.
Qed.

Lemma sound_placePlayers w :
  tidy w ∧ flushed w →
  tidy (placePlayers random w) ∧ flushed (placePlayers random w).
Proof.
  pose proof (forEach_keeps
    (λ w, (players w, pellets w, blackHoles w, nextRef w, eatenPellets w,
           eatenSprites w, deadBlackHoles w))
    (players w) (placePlayer random) w (λ _ _, eq_refl)) as H.
  cbv beta in H.
  repeat match type of H with
         | (_, _) = (_, _) => apply pair_equal_spec in H as [H ?]
         end.
  by apply sound_same.
Qed.

Lemma sound_start w : tidy w ∧ flushed w → tidy (start w) ∧ flushed (start w).
Proof. apply sound_same; unfold start; by case_match. Qed.

(** X27: whatever a driver does with a game through its methods (make it,
    add sprites that are not players yet, place players and pellets,
    start, pause, continue, update, run, with the animation loop counting
    on), between two calls no player, pellet or hazard is held twice,
    every pellet and hazard is older than the next object to be made, and
    the three staging arrays are empty. *)
Theorem reachable_games_are_well_formed w : Reachable w → tidy w ∧ flushed w.
Proof.
  induction 1 as
    [cw ch d page
    |coloured player w w' _ IH Hnew E
    |coloured player w w' _ IH E
    |w _ IH|qty w _ IH|w _ IH|w _ IH|w _ IH|n w _ IH|n w _ IH|w _ IH].
  - split; [|done]. unfold tidy. simpl.
    repeat split; try apply NoDup_nil_2; intros ? H; by apply elem_of_nil in H.
  - apply addPlayer_Returned in E.
    destruct IH as [(Hps & Hpl & Hbh & Bpl & Bbh) Hf].
    rewrite E. split; [|by destruct w].
    unfold tidy. destruct w. simpl in *. repeat split; try done.
    apply NoDup_app. split; [done|]. split; [|apply NoDup_singleton].
    intros p Hin Hp. apply list_elem_of_singleton in Hp as ->. done.
  - apply addPlayer_Threw in E. rewrite E.
    revert IH. apply sound_same; by destruct w.
  - by apply sound_placePlayers.
  - by apply sound_placePellets.
  - by apply sound_start.
  - revert IH. by apply sound_same.
  - revert IH. by apply sound_same.
  - revert IH. by apply sound_same.
  - revert IH. by apply sound_same.
  - by apply sound_run.
Qed.

(** ** Hazards run out oldest first *)

Lemma ascending_ext ho ho' lo hi l :
  (∀ b, b ∈ l → ho' !! b = ho !! b) →
  ascending ho lo hi l → ascending ho' lo hi l.
Proof.
  revert lo. induction l as [|x l IH]; intros lo Hext; simpl; [done|].
  intros (bh & Hb & Hr & Hrest). exists bh.
  split; [rewrite Hext; [done|left]|]. split; [done|].
  apply IH; [|done]. intros b Hin. apply Hext. by right.
Qed.

Lemma ascending_weaken ho lo lo' hi hi' l :
  lo' ≤ lo → hi ≤ hi' → ascending ho lo hi l → ascending ho lo' hi' l.
Proof.
  intros Hlo Hhi. destruct l as [|x l]; simpl; [done|].
  intros (bh & Hb & Hr & Hrest). exists bh.
  split; [done|]. split; [lia|].
  clear Hb Hr. revert Hrest. generalize (BlackHole.lifeSpan bh) as r.
  induction l as [|y l IH]; intros r; simpl; [done|].
  intros (bh' & Hb' & Hr' & Hrest'). exists bh'.
  split; [done|]. split; [lia|]. by apply IH.
Qed.

Lemma ascending_elem ho lo hi l b :
  ascending ho lo hi l → b ∈ l →
  ∃ bh, ho !! b = Some bh ∧ lo < BlackHole.lifeSpan bh < hi.
Proof.
  revert lo. induction l as [|x l IH]; intros lo Hasc Hin.
  - by apply elem_of_nil in Hin.
  - destruct Hasc as (bh & Hb & Hr & Hrest).
    apply elem_of_cons in Hin as [->|Hin]; [by exists bh|].
    destruct (IH _ Hrest Hin) as (bh' & Hb' & Hr').
    exists bh'. split; [done|lia].
Qed.

Lemma ascending_snoc ho lo hi l b bh :
  ascending ho lo (BlackHole.lifeSpan bh) l → ho !! b = Some bh →
  lo < BlackHole.lifeSpan bh < hi → ascending ho lo hi (l ++ [b]).
Proof.
  revert lo. induction l as [|x l IH]; intros lo Hasc Hb Hr; simpl.
  - by exists bh.
  - destruct Hasc as (bx & Hx & Hrx & Hrest). exists bx.
    split; [done|]. split; [lia|]. apply IH; [done|done|lia].
Qed.

Lemma diesNow_countdown (ho : gmap ref BlackHole.t) b bh :
  countsDown displayHole → ho !! b = Some bh →
  diesNow displayHole ho b = (BlackHole.lifeSpan bh - 1 <=? 0).
Proof.
  intros Hcount Hb. unfold diesNow. rewrite Hb.
  unfold BlackHole.isDead. by rewrite Hcount.
Qed.

(** The hazards display() leaves with life, in the store after the
    display() calls. *)
Lemma ascending_survivors (ho ho' : gmap ref BlackHole.t) lo hi l :
  countsDown displayHole →
  (∀ b, b ∈ l → ho' !! b = displayHole <$> ho !! b) →
  ascending ho lo hi l →
  ascending ho' (Z.max (lo - 1) 0) (hi - 1)
    (filter (λ b, ¬ diesNow displayHole ho b) l).
Proof.
  intros Hcount. revert lo.
  induction l as [|x l IH]; intros lo Hext; simpl; [done|].
  intros (bh & Hb & Hr & Hrest). rewrite filter_cons.
  assert (∀ b, b ∈ l → ho' !! b = displayHole <$> ho !! b) as Hext'
    by (intros b Hin; apply Hext; by right).
  specialize (IH _ Hext' Hrest).
  pose proof (diesNow_countdown ho x bh Hcount Hb) as E.
  destruct (diesNow displayHole ho x) eqn:D; symmetry in E.
  - apply Z.leb_le in E.
    rewrite decide_False by (intros H; by apply H).
    by replace (Z.max (lo - 1) 0) with (Z.max (BlackHole.lifeSpan bh - 1) 0)
      by lia.
  - apply Z.leb_gt in E.
    rewrite decide_True by (by intros []).
    simpl. exists (displayHole bh).
    split; [rewrite Hext, Hb; [done|left]|].
    rewrite Hcount. split; [lia|].
    by replace (Z.max (BlackHole.lifeSpan bh - 1) 0)
      with (BlackHole.lifeSpan bh - 1) in IH by lia.
Qed.

Lemma filter_not_staged (dies : ref → bool) (l : list ref) :
  filter (λ b, b ∉ filter (λ b, dies b) l) l = filter (λ b, ¬ dies b) l.
Proof.
  apply filter_ext_in. intros b Hb. rewrite list_elem_of_filter. tauto.
Qed.

(** Above a life span of one nothing runs out in this tick. *)
Lemma none_dies_above ho lo hi l :
  countsDown displayHole → 1 ≤ lo → ascending ho lo hi l →
  filter (λ b, diesNow displayHole ho b) l = [].
Proof.
  intros Hcount. revert lo.
  induction l as [|x l IH]; intros lo Hlo; simpl; [done|].
  intros (bh & Hb & Hr & Hrest). rewrite filter_cons.
  pose proof (diesNow_countdown ho x bh Hcount Hb) as E.
  destruct (diesNow displayHole ho x) eqn:D; symmetry in E;
    [apply Z.leb_le in E; lia|].
  rewrite decide_False by (by intros []).
  apply (IH (BlackHole.lifeSpan bh)); [lia|done].
Qed.

(** The flush of lines 292-298 when only the first hazard can have run
    out: it removes what is staged and nothing else. *)
Lemma flushByStagedIndex_first (dies : ref → bool) x rest :
  NoDup (x :: rest) → filter (λ b, dies b) rest = [] →
  flushByStagedIndex (filter (λ b, dies b) (x :: rest)) (x :: rest)
  = filter (λ b, b ∉ filter (λ b, dies b) (x :: rest)) (x :: rest).
Proof.
  intros Hnd Hrest. apply NoDup_cons in Hnd as [Hx Hnd].
  rewrite filter_cons, Hrest. destruct (dies x) eqn:E.
  - rewrite decide_True by done.
    unfold flushByStagedIndex, indexOf. cbn [foldl indexOfFrom].
    rewrite decide_True by done. rewrite (splice1_nat 0).
    change (delete 0%nat (x :: rest)) with rest.
    rewrite filter_cons_False by (intros H; apply H; left).
    clear Hrest Hnd.
    induction rest as [|y rest IH]; [done|].
    apply not_elem_of_cons in Hx as [Hne Hx].
    rewrite filter_cons_True
      by (intros H; apply list_elem_of_singleton in H; congruence).
    by rewrite <- IH.
  - rewrite decide_False by (by intros []).
    unfold flushByStagedIndex. cbn [foldl].
    generalize (x :: rest) as l. intros l.
    induction l as [|y l IH]; [done|].
    rewrite filter_cons_True by apply not_elem_of_nil. by rewrite <- IH.
Qed.

(** ** The hazards through a tick *)

Lemma Shape_trace (Q : list event → Prop) w w' :
  Shape Q w w' →
  ∃ evs, Q evs ∧ trace w' = trace w ++ evs ∧
         deadBlackHoles w' = deadBlackHoles w ++ omap holeOf evs.
Proof.
  intros (evs & so & ho & n & sd & -> & _ & HQ). exists evs.
  split; [done|]. rewrite logged_eq. split; by destruct w.
Qed.

Lemma steady_blackHoles w w' :
  steady w' = steady w → blackHoles w' = blackHoles w.
Proof.
  unfold steady. intros H.
  repeat match type of H with
         | (_, _) = (_, _) => apply pair_equal_spec in H as [H ?]
         end.
  done.
Qed.

(** After the flush of the dead hazards nothing in a tick touches
    blackHoles. *)
Lemma blackHoles_after_flush w :
  blackHoles (Tick w)
  = blackHoles (removeDeadBlackHoles
                  (controlBlackHoles displayHole drain
                     (spawnBlackHole random
                        (BlackHolesData.spawnInterval
                           (GameData.blackHoles (data w))) w))).
Proof.
  unfold tick. cbv zeta.
  set (W3 := removeDeadBlackHoles _).
  set (W4 := removeEatenPellets W3).
  set (W5 := controlSprites control W4).
  set (W6 := spritesEatPellets growth W5).
  set (W7 := removeEatenPellets W6).
  set (W8 := spritesEatSprites W7).
  set (W9 := removeEatenSprites W8).
  assert (blackHoles W4 = blackHoles W3) as H4
    by (subst W4; rewrite removeEatenPellets_eq; by destruct W3).
  assert (blackHoles W5 = blackHoles W4) as H5
    by apply steady_blackHoles, controlSprites_steady.
  assert (blackHoles W6 = blackHoles W5) as H6
    by apply steady_blackHoles, spritesEatPellets_steady.
  assert (blackHoles W7 = blackHoles W6) as H7
    by (subst W7; rewrite removeEatenPellets_eq; by destruct W6).
  assert (blackHoles W8 = blackHoles W7) as H8
    by apply steady_blackHoles, spritesEatSprites_steady.
  assert (blackHoles W9 = blackHoles W8) as H9
    by (subst W9; rewrite removeEatenSprites_eq; by destruct W8).
  clearbody W3 W4 W5 W6 W7 W8 W9.
  destruct (placeNewPellets_eq
              (PelletsData.newQuantity (GameData.pellets (data W9))) W9)
    as (fresh & po & n & sd & -> & _).
  destruct (supplied_fields fresh po n sd W9)
    as (_ & _ & _ & _ & -> & _).
  congruence.
Qed.

(** The hazards staged in a tick, as the trace has them, are what
    deadBlackHoles holds when the loop over the hazards is through. *)
Lemma staged_in_tick w :
  deadBlackHoles w = [] →
  omap holeOf (newEvents w (Tick w))
  = deadBlackHoles
      (controlBlackHoles displayHole drain
         (spawnBlackHole random
            (BlackHolesData.spawnInterval (GameData.blackHoles (data w))) w)).
Proof.
  intros Hd. unfold tick. cbv zeta.
  set (i := BlackHolesData.spawnInterval (GameData.blackHoles (data w))).
  destruct (Shape_trace _ _ _ (spawnBlackHole_Shape i w))
    as (e_s & Q1 & T1 & D1).
  set (W1 := spawnBlackHole random i w) in *.
  destruct (Shape_trace _ _ _ (controlBlackHoles_Shape W1))
    as (e_h & _ & T2 & D2).
  set (W2 := controlBlackHoles displayHole drain W1) in *.
  set (W3 := removeDeadBlackHoles W2).
  assert (trace W3 = trace W2) as T3
    by (subst W3; rewrite removeDeadBlackHoles_eq; by destruct W2).
  set (W4 := removeEatenPellets W3).
  assert (trace W4 = trace W3) as T4
    by (subst W4; rewrite removeEatenPellets_eq; by destruct W3).
  destruct (Shape_trace _ _ _ (controlSprites_Shape W4))
    as (e_c & -> & T5 & _).
  set (W5 := controlSprites control W4) in *.
  destruct (Shape_trace _ _ _ (spritesEatPellets_Shape W5))
    as (e_p & [Q6 _] & T6 & _).
  set (W6 := spritesEatPellets growth W5) in *.
  set (W7 := removeEatenPellets W6).
  assert (trace W7 = trace W6) as T7
    by (subst W7; rewrite removeEatenPellets_eq; by destruct W6).
  destruct (Shape_trace _ _ _ (spritesEatSprites_Shape W7))
    as (e_m & Q8 & T8 & _).
  set (W8 := spritesEatSprites W7) in *.
  set (W9 := removeEatenSprites W8).
  assert (trace W9 = trace W8) as T9
    by (subst W9; rewrite removeEatenSprites_eq; by destruct W8).
  clearbody W1 W2 W3 W4 W5 W6 W7 W8 W9.
  destruct (placeNewPellets_eq
              (PelletsData.newQuantity (GameData.pellets (data W9))) W9)
    as (fresh & po & n & sd & -> & _).
  destruct (supplied_fields fresh po n sd W9)
    as (_ & _ & _ & _ & _ & _ & _ & _ & _ & _ & T10).
  rewrite (newEvents_app w _ (e_s ++ e_h ++ e_p ++ e_m)).
  - rewrite !omap_app.
    destruct (pelletMeal_pushes _ _ Q6) as (_ & _ & -> & _).
    destruct (mealLog_pushes _ _ _ Q8) as (_ & _ & ->).
    assert (omap holeOf e_s = []) as ->
      by (rewrite Q1; by destruct (remIsZero _ _)).
    rewrite D2, D1, Hd. assert (omap holeOf e_s = []) as ->
      by (rewrite Q1; by destruct (remIsZero _ _)).
    by rewrite !app_nil_r.
  - rewrite T10, T9, T8, T7, T6, T5, T4, T3, T2, T1, app_nil_r.
    by rewrite <- !(app_assoc _ _ _).
Qed.

Lemma spawnBlackHole_staging w :
  deadBlackHoles
    (spawnBlackHole random
       (BlackHolesData.spawnInterval (GameData.blackHoles (data w))) w)
  = deadBlackHoles w.
Proof.
  unfold spawnBlackHole, roundRandom. cbv zeta. by destruct (remIsZero _ _).
Qed.

Lemma orderly_live w : orderly w → NoDup (blackHoles w ++ spawned w).
Proof.
  intros (Hnd & Hb & _). apply NoDup_app.
  split; [done|]. split; [|apply spawned_NoDup].
  intros b Hin Hs. apply spawned_fresh in Hs as ->.
  specialize (Hb _ Hin). lia.
Qed.

(** What one tick does to the hazards of a game that display() counts
    down: it stages the live hazards that run out, the flush removes
    them and no other, every live hazard has been displayed once, and
    the hazards are in order again. *)
Lemma hazards_tick w :
  countsDown displayHole → orderly w →
  let W1 :=
    spawnBlackHole random
      (BlackHolesData.spawnInterval (GameData.blackHoles (data w))) w in
  let live := blackHoles w ++ spawned w in
  let staged := filter (λ b, diesNow displayHole (holeObj W1) b) live in
  omap holeOf (newEvents w (Tick w)) = staged ∧
  blackHoles (Tick w) = filter (λ b, b ∉ staged) live ∧
  (∀ b, b ∈ live → holeObj (Tick w) !! b = displayHole <$> holeObj W1 !! b) ∧
  orderly (Tick w).
Proof.
  intros Hcount Hord. cbv zeta.
  pose proof (orderly_live w Hord) as Hnd.
  destruct Hord as (Hnd0 & Hbound & Hdead & Hasc).
  set (W1 := spawnBlackHole random _ w).
  destruct (spawnBlackHole_hazards w) as (Hl & Hold & Hnew). fold W1 in Hl, Hold, Hnew.
  rewrite <- Hl in Hnd |- *.
  destruct (forEach_controlBlackHole _ W1 Hnd) as [Ho Hd].
  fold (controlBlackHoles displayHole drain W1) in Ho, Hd.
  assert (deadBlackHoles W1 = []) as Hd1
    by (subst W1; by rewrite spawnBlackHole_staging).
  rewrite Hd1 in Hd. simpl in Hd.
  (* the hazards after the spawn, in order *)
  assert (ascending (holeObj W1) (Z.min 0 (lifeSpanOf w - 1))
            (lifeSpanOf w + 1) (blackHoles W1)) as Hasc1.
  { assert (ascending (holeObj W1) 0 (lifeSpanOf w) (blackHoles w)) as Hasc0.
    { eapply ascending_ext; [|exact Hasc].
      intros b Hin. apply Hold. specialize (Hbound _ Hin). lia. }
    rewrite Hl. unfold spawned in *.
    destruct (remIsZero _ _).
    - specialize (Hnew eq_refl).
      eapply ascending_snoc; [|exact Hnew|].
      + eapply ascending_weaken; [| |exact Hasc0]; [lia|].
        unfold BlackHole.spawn, BlackHole.new. simpl. unfold lifeSpanOf. lia.
      + unfold BlackHole.spawn, BlackHole.new, lifeSpanOf. simpl. lia.
    - rewrite app_nil_r. eapply ascending_weaken; [| |exact Hasc0]; lia. }
  (* only the first can run out *)
  assert (flushByStagedIndex
            (filter (λ b, diesNow displayHole (holeObj W1) b) (blackHoles W1))
            (blackHoles W1)
          = filter (λ b, b ∉ filter (λ b, diesNow displayHole (holeObj W1) b)
                              (blackHoles W1)) (blackHoles W1)) as Hflush.
  { destruct (blackHoles W1) as [|x rest] eqn:El; [done|].
    apply flushByStagedIndex_first; [done|].
    destruct (blackHoles w) as [|y l'] eqn:E0.
    - rewrite app_nil_l in Hl. unfold spawned in Hl.
      destruct (remIsZero _ _); [|done]. by injection Hl as _ ->.
    - simpl in Hl. injection Hl as -> ->.
      destruct Hasc1 as (bh & Hb & Hr & Hrest).
      destruct Hasc as (bh0 & Hb0 & Hr0 & _).
      assert (holeObj W1 !! y = Some bh0) as Hb1.
      { rewrite Hold; [done|]. specialize (Hbound y). 
        assert (y < nextRef w)%nat by (apply Hbound; left). lia. }
      assert (bh = bh0) as -> by congruence.
      eapply none_dies_above; [done| |exact Hrest]. lia. }
  split; [|split; [|split]].
  - by rewrite staged_in_tick.
  - rewrite blackHoles_after_flush, removeDeadBlackHoles_blackHoles.
    fold W1. rewrite (steady_blackHoles _ _ (controlBlackHoles_steady W1)).
    by rewrite Hd.
  - intros b Hb. rewrite holeObj_after_hazards. fold W1.
    rewrite Ho. by rewrite decide_True.
  - assert (blackHoles (Tick w)
            = filter (λ b, ¬ diesNow displayHole (holeObj W1) b)
                (blackHoles W1)) as Hbh.
    { rewrite blackHoles_after_flush, removeDeadBlackHoles_blackHoles.
      fold W1. rewrite (steady_blackHoles _ _ (controlBlackHoles_steady W1)).
      rewrite Hd, Hflush. apply filter_not_staged. }
    destruct (tick_made w) as (kept & _ & _ & _ & _ & Hn & Hfix & _).
    split; [|split; [|split]].
    + rewrite Hbh. by apply NoDup_filter.
    + intros b Hin. rewrite Hbh in Hin.
      apply list_elem_of_filter in Hin as [_ Hin]. rewrite Hl in Hin.
      rewrite Hn. apply elem_of_app in Hin as [Hin|Hin].
      * specialize (Hbound _ Hin). lia.
      * pose proof (spawned_fresh _ _ Hin) as ->.
        assert (0 < length (spawned w))%nat
          by (destruct (spawned w); [by apply elem_of_nil in Hin|simpl; lia]).
        lia.
    + apply flushed_tick.
    + rewrite Hbh.
      assert (lifeSpanOf (Tick w) = lifeSpanOf w) as ->
        by (unfold lifeSpanOf; by rewrite (fixed_data _ _ Hfix)).
      eapply ascending_weaken;
        [| |eapply (ascending_survivors (holeObj W1)); [done| |exact Hasc1]].
      * lia.
      * lia.
      * intros b Hin. rewrite holeObj_after_hazards. fold W1.
        rewrite Ho. by rewrite decide_True.
Qed.

(** ** The hazards of a driven game *)

Local Abbreviation Call := (call random chooseColors).
Local Abbreviation Driven :=
  (driven random chooseColors control displayHole growth drain).
Local Abbreviation Played :=
  (played random chooseColors control displayHole growth drain).

(** No method but run() touches the hazards or the configuration. *)
Lemma call_keeps w w' :
  Call w w' →
  blackHoles w' = blackHoles w ∧ holeObj w' = holeObj w ∧ data w' = data w ∧
  deadBlackHoles w' = deadBlackHoles w ∧ (nextRef w ≤ nextRef w')%nat.
Proof.
  destruct 1 as [c p w w' E|c p w w' E|w|qty w|w|w|w|n w|n w].
  - apply addPlayer_Returned in E. rewrite E. by destruct w.
  - apply addPlayer_Threw in E. rewrite E. by destruct w.
  - pose proof (forEach_keeps
      (λ w, (blackHoles w, holeObj w, data w, deadBlackHoles w, nextRef w))
      (players w) (placePlayer random) w (λ _ _, eq_refl)) as H.
    cbv beta in H. fold (placePlayers random w) in H.
    repeat match type of H with
           | (_, _) = (_, _) => apply pair_equal_spec in H as [H ?]
           end.
    repeat split; try done. lia.
  - destruct (placePellets_exact qty w) as (po & sd & -> & _).
    pose proof (fixed_data _ _ (fixed_supplied (seq (nextRef w) (Z.to_nat qty))
                                 po (nextRef w + Z.to_nat qty)%nat sd w)) as Hd.
    destruct (supplied_fields (seq (nextRef w) (Z.to_nat qty)) po
                (nextRef w + Z.to_nat qty)%nat sd w)
      as (_ & -> & _ & _ & -> & _ & _ & -> & _ & -> & _).
    repeat split; try done. lia.
  - unfold start. case_match; by repeat split.
  - by repeat split.
  - by repeat split.
  - by repeat split.
  - by repeat split.
Qed.

Lemma orderly_same w w' :
  blackHoles w' = blackHoles w → holeObj w' = holeObj w → data w' = data w →
  deadBlackHoles w' = deadBlackHoles w → (nextRef w ≤ nextRef w')%nat →
  orderly w → orderly w'.
Proof.
  unfold orderly, lifeSpanOf. intros -> -> -> -> Hn (H1 & H2 & H3 & H4).
  repeat split; try done. intros b Hb. specialize (H2 b Hb). lia.
Qed.

Lemma orderly_call w w' : Call w w' → orderly w → orderly w'.
Proof.
  intros (H1 & H2 & H3 & H4 & H5)%call_keeps. by apply orderly_same.
Qed.

Lemma orderly_run w :
  countsDown displayHole → orderly w → orderly (Run w).
Proof.
  intros Hcount Hord. destruct (run_cases w) as [-> | [_ ->]]; [done|].
  by destruct (hazards_tick w Hcount Hord) as (_ & _ & _ & H).
Qed.

Lemma driven_orderly w : countsDown displayHole → Driven w → orderly w.
Proof.
  intros Hcount. induction 1 as [cw ch d page|w w' _ IH Hcall|w _ IH].
  - unfold orderly. simpl. split; [apply NoDup_nil_2|].
    split; [|done]. intros b Hb. by apply elem_of_nil in Hb.
  - by eapply orderly_call.
  - by apply orderly_run.
Qed.

(** One hazard through one tick: displayed once, and still live after the
    tick exactly if it came with more than one tick of life. *)
Lemma hazard_after_tick w b bh :
  countsDown displayHole → orderly w →
  b ∈ blackHoles w ++ spawned w →
  holeObj (spawnBlackHole random
             (BlackHolesData.spawnInterval (GameData.blackHoles (data w))) w)
    !! b = Some bh →
  holeObj (Tick w) !! b = Some (displayHole bh) ∧
  (b ∈ blackHoles (Tick w) ↔ 1 < BlackHole.lifeSpan bh).
Proof.
  intros Hcount Hord Hin Hb.
  destruct (hazards_tick w Hcount Hord) as (_ & Hbh & Ho & _).
  split; [by rewrite (Ho b Hin), Hb|].
  rewrite Hbh, !list_elem_of_filter.
  pose proof (diesNow_countdown _ b bh Hcount Hb) as E.
  destruct (diesNow displayHole _ b) eqn:D; symmetry in E.
  - apply Z.leb_le in E. split; [|lia].
    intros [Hout _]. destruct Hout. by split.
  - apply Z.leb_gt in E. split; [lia|]. intros _.
    split; [|done]. by intros [[] _].
Qed.

Lemma hazard_stays_out w b :
  b ∉ blackHoles w → (b < nextRef w)%nat → b ∉ blackHoles (Run w).
Proof.
  intros Hout Hb Hin.
  destruct (run_cases w) as [E | [_ E]]; rewrite E in Hin; [done|].
  destruct (tick_made w) as (kept & _ & _ & _ & C & _).
  apply (elem_of_sublist _ _ _ Hin) in C.
  apply elem_of_app in C as [?|Hs]; [done|].
  apply spawned_fresh in Hs. lia.
Qed.

Lemma nextRef_run w : (nextRef w ≤ nextRef (Run w))%nat.
Proof.
  destruct (run_cases w) as [-> | [_ ->]]; [done|].
  destruct (tick_made w) as (kept & _ & _ & _ & _ & -> & _). lia.
Qed.

(** A spawned hazard from the end of its first tick on: how much life it
    has left while it is live, and that it is live as long as it has. *)
Lemma spawned_hazard_played w b k w' :
  countsDown displayHole → orderly w → running w → spawned w = [b] →
  Played k (Run w) w' →
  orderly w' ∧ data w' = data w ∧ (b < nextRef w')%nat ∧
  (b ∈ blackHoles w' →
   ∃ bh, holeObj w' !! b = Some bh ∧
         BlackHole.lifeSpan bh = lifeSpanOf w - 1 - Z.of_nat k) ∧
  (Z.of_nat k + 1 < lifeSpanOf w → b ∈ blackHoles w').
Proof.
  intros Hcount Hord Hr Hs Hplay.
  remember (Run w) as w1 eqn:E1.
  induction Hplay as [w1|k w1 w2 w3 _ IH Hcall|k w1 w2 _ IH Hidle
                     |k w1 w2 _ IH Hrun].
  - (* the tick that spawns the hazard *)
    subst w1. rewrite (run_running w Hr).
    assert (b = nextRef w) as ->
      by (apply spawned_fresh; rewrite Hs; left).
    destruct (spawnBlackHole_hazards w) as (_ & _ & Hnew).
    specialize (Hnew Hs).
    set (bhNew := BlackHole.spawn _ _ _) in Hnew.
    assert (BlackHole.lifeSpan bhNew = lifeSpanOf w) as HlN by reflexivity.
    clearbody bhNew.
    assert (nextRef w ∈ blackHoles w ++ spawned w) as Hin
      by (rewrite Hs; apply elem_of_app; right; left).
    destruct (hazard_after_tick w _ _ Hcount Hord Hin Hnew) as [Ho Hlive].
    destruct (hazards_tick w Hcount Hord) as (_ & _ & _ & Hord').
    destruct (tick_made w) as (kept & _ & _ & _ & _ & Hn & Hfix & _).
    split; [done|]. split; [by apply fixed_data|].
    split; [rewrite Hn, Hs; cbn [length]; lia|].
    rewrite HlN in Hlive.
    split.
    + intros _. eexists. split; [exact Ho|].
      rewrite Hcount, HlN. lia.
    + intros Hk. apply Hlive. lia.
  - (* a call of another method *)
    destruct (IH E1) as (Hord2 & Hd2 & Hn2 & Hlife & Hlive).
    destruct (call_keeps _ _ Hcall) as (Hb & Ho & Hd & _ & Hn).
    split; [by eapply orderly_call|]. split; [congruence|].
    split; [lia|]. rewrite Hb, Ho. by split.
  - (* run() returning at the guard *)
    destruct (run_cases w2) as [-> | [? _]]; [by apply IH|done].
  - (* a tick *)
    destruct (IH E1) as (Hord2 & Hd2 & Hn2 & Hlife & Hlive).
    assert (lifeSpanOf w2 = lifeSpanOf w) as HN
      by (unfold lifeSpanOf; by rewrite Hd2).
    split; [by apply orderly_run|].
    split; [by rewrite (fixed_data _ _ (fixed_run w2))|].
    split; [pose proof (nextRef_run w2); lia|].
    destruct (decide (b ∈ blackHoles w2)) as [Hin|Hout].
    + destruct (Hlife Hin) as (bh & Hb & Hl).
      rewrite (run_running w2 Hrun).
      destruct (spawnBlackHole_hazards w2) as (_ & Hold & _).
      assert (b ∈ blackHoles w2 ++ spawned w2) as Hin'
        by (apply elem_of_app; by left).
      rewrite <- Hold in Hb by lia.
      destruct (hazard_after_tick w2 _ _ Hcount Hord2 Hin' Hb) as [Ho Hl'].
      split.
      * intros _. eexists. split; [exact Ho|]. rewrite Hcount. lia.
      * intros Hk. apply Hl'. lia.
    + pose proof (hazard_stays_out w2 b Hout Hn2) as Hout'.
      split; [done|]. intros Hk. destruct Hout. apply Hlive. lia.
Qed.

Lemma running_run w : running w → running (Run w).
Proof.
  intros [Hs Hp]. pose proof (fixed_run w) as H. unfold fixed in H.
  repeat match type of H with
         | (_, _) = (_, _) => apply pair_equal_spec in H as [H ?]
         end.
  unfold running. by rewrite H3, H2.
Qed.

Lemma running_iter w j : running w → running (Nat.iter j Run w).
Proof.
  intros Hr. induction j as [|j IH]; [done|].
  change (Nat.iter (S j) Run w) with (Run (Nat.iter j Run w)).
  by apply running_run.
Qed.

Lemma iter_played w j :
  running w → Played j (Run w) (Nat.iter (S j) Run w).
Proof.
  intros Hr. induction j as [|j IH]; [apply played_none|].
  change (Nat.iter (S (S j)) Run w) with (Run (Nat.iter (S j) Run w)).
  apply played_tick; [done|]. by apply running_iter.
Qed.

(** With run() called over and over, in which of the later ticks the
    spawned hazard takes part. *)
Lemma takesPart_later w b j :
  countsDown displayHole → orderly w → running w → spawned w = [b] →
  takesPart b (Nat.iter (S j) Run w)
  = bool_decide (Z.of_nat j + 1 < lifeSpanOf w).
Proof.
  intros Hcount Hord Hr Hs.
  destruct (spawned_hazard_played w b j _ Hcount Hord Hr Hs (iter_played w j Hr))
    as (_ & _ & Hn & Hlife & Hlive).
  destruct (running_iter w (S j) Hr) as [Hst Hpa].
  unfold takesPart. rewrite Hst, Hpa. cbn [negb andb].
  apply bool_decide_ext. rewrite elem_of_app. split.
  - intros [Hin|Hsp].
    + destruct (Hlife Hin) as (bh & Hb & Hl).
      destruct (spawned_hazard_played w b j _ Hcount Hord Hr Hs
                  (iter_played w j Hr)) as ((_ & _ & _ & Hasc) & _).
      destruct (ascending_elem _ _ _ _ _ Hasc Hin) as (bh' & Hb' & Hpos & _).
      assert (bh' = bh) as -> by congruence. lia.
    + apply spawned_fresh in Hsp. lia.
  - intros Hk. left. by apply Hlive.
Qed.

Lemma ticksPresent_later w b n j :
  countsDown displayHole → orderly w → running w → spawned w = [b] →
  Z.of_nat (ticksPresent random control displayHole growth drain b n
              (Nat.iter (S j) Run w))
  = Z.max 0 (Z.min (Z.of_nat (S j + n)) (lifeSpanOf w) - Z.of_nat (S j)).
Proof.
  intros Hcount Hord Hr Hs. revert j.
  induction n as [|n IH]; intros j; [cbn [ticksPresent]; lia|].
  cbn [ticksPresent].
  change (Run (Nat.iter (S j) Run w)) with (Nat.iter (S (S j)) Run w).
  rewrite Nat2Z.inj_add, IH, (takesPart_later w b j Hcount Hord Hr Hs).
  destruct (bool_decide_reflect (Z.of_nat j + 1 < lifeSpanOf w)); lia.
Qed.

(** With run() called over and over from the tick that spawns the hazard,
    the ticks it takes part in. *)
Lemma ticksPresent_spawned w b n :
  countsDown displayHole → orderly w → running w → spawned w = [b] →
  Z.of_nat (ticksPresent random control displayHole growth drain b n w)
  = Z.min (Z.of_nat n) (Z.max (lifeSpanOf w) 1).
Proof.
  intros Hcount Hord Hr Hs.
  destruct n as [|n]; [cbn [ticksPresent]; lia|].
  cbn [ticksPresent].
  assert (takesPart b w = true) as ->.
  { destruct Hr as [Hst Hpa]. unfold takesPart. rewrite Hst, Hpa, Hs.
    cbn [negb andb]. apply bool_decide_eq_true.
    apply elem_of_app. right. left. }
  change (Run w) with (Nat.iter 1 Run w).
  rewrite Nat2Z.inj_add, (ticksPresent_later w b n 0 Hcount Hord Hr Hs).
  lia.
Qed.

(** As long as the life span is 1 or more, the claim's wording holds of
    a driven game. *)
Lemma presentForLifeSpan_positive w :
  countsDown displayHole → Driven w → 1 ≤ lifeSpanOf w →
  presentForLifeSpan random control displayHole growth drain w.
Proof.
  intros Hcount Hdr HN b Hr Hs.
  pose proof (driven_orderly w Hcount Hdr) as Hord.
  exists (Z.to_nat (lifeSpanOf w)). intros n Hn.
  rewrite (ticksPresent_spawned w b n Hcount Hord Hr Hs). lia.
Qed.


End Lifecycle.

End Properties.

(** ** The claims on the concrete game *)

Section Concrete.

Import Demo.

(** start() on a game without pellets: the warning, and nothing else. *)
Example start_without_pellets_warns :
  start noPellets = set_console [warning] noPellets ∧
  started (start noPellets) = None.
Proof. split; reflexivity. Qed.

(** The first scenario: after one tick the pellet is gone, the player
    has grown by the pellet's value and eatenPellets is empty again. *)
Example scenario_pellet_eaten :
  pellets (Demo.run onPellet) = [] ∧
  Sprite.actualSize <$> spriteObj (Demo.run onPellet) !! 0%nat = Some 21 ∧
  eatenPellets (Demo.run onPellet) = [].
Proof. vm_compute. repeat split. Qed.

(** The second scenario: after one tick the drained sprite and the
    expired hazard are both gone. *)
Example scenario_sprite_drained :
  players (Demo.run drained) = [] ∧ blackHoles (Demo.run drained) = [].
Proof. vm_compute. repeat split. Qed.

(** Outside the games a driver brings about, the flush of the dead
    hazards is not the removal of the staged hazards: on a state built
    by hand, with hazards 0 and 1 live and only the younger hazard 1
    out of life, the tick stages hazard 1, and the flush then removes
    hazard 0, which has four ticks left, and leaves hazard 1 in
    blackHoles: the index looked up is the one in deadBlackHoles, not
    the one in blackHoles. *)
Example dead_hazard_flush_removes_live_hazard :
  blackHoles twoHazards = [0%nat; 1%nat] ∧
  omap holeOf (newEvents twoHazards (Demo.run twoHazards)) = [1%nat] ∧
  blackHoles (Demo.run twoHazards) = [1%nat] ∧
  BlackHole.lifeSpan <$> holeObj (Demo.run twoHazards) !! 0%nat = Some 4 ∧
  BlackHole.isDead <$> holeObj (Demo.run twoHazards) !! 1%nat = Some true ∧
  deadBlackHoles (Demo.run twoHazards) = [].
Proof. vm_compute. repeat split. Qed.

(** C4 (the code departs from it): the game's own counter framesElapsed
    is 120, a multiple of the spawn interval 60, yet the tick spawns no
    hazard, because the test reads the animation loop's frameCount, 121. *)
Theorem spawn_ignores_framesElapsed :
  running countersApart ∧
  remIsZero (framesElapsed countersApart)
    (BlackHolesData.spawnInterval (GameData.blackHoles (data countersApart)))
  = true ∧
  omap spawnOf (newEvents countersApart (Demo.run countersApart)) = [] ∧
  blackHoles (Demo.run countersApart) = blackHoles countersApart.
Proof. vm_compute. repeat split. Qed.

Lemma start_iff_players_and_pellets_witness :
  (players ready ≠ [] ∧ pellets ready ≠ []) ∧
  started (start ready) = Some true ∧ paused (start ready) = Some false ∧
  console (start ready) = console ready.
Proof.
  assert (players ready ≠ [] ∧ pellets ready ≠ []) as H by (by split).
  split; [exact H|].
  exact (proj1 (start_iff_players_and_pellets ready) H).
Defined.

Lemma start_resumes_paused_game_witness :
  (players pausedGame ≠ [] ∧ pellets pausedGame ≠ []) ∧
  paused (start pausedGame) = Some false ∧
  (started pausedGame = Some true → start pausedGame = continue pausedGame).
Proof.
  assert (players pausedGame ≠ []) as Hp by done.
  assert (pellets pausedGame ≠ []) as Hq by done.
  split; [by split|].
  exact (start_resumes_paused_game pausedGame Hp Hq).
Defined.

Lemma run_unchanged_unless_running_witness :
  truthy (started ready) = false ∧ Demo.run ready = ready.
Proof.
  split; [reflexivity|].
  apply (run_unchanged_unless_running random control countdown growth drain
           ready).
  left. reflexivity.
Defined.

Lemma staging_sets_empty_after_run_witness :
  (eatenPellets drained = [] ∧ eatenSprites drained = [] ∧
   deadBlackHoles drained = []) ∧
  eatenPellets (Demo.run drained) = [] ∧
  eatenSprites (Demo.run drained) = [] ∧
  deadBlackHoles (Demo.run drained) = [].
Proof.
  split; [repeat split|].
  apply (proj1 (staging_sets_empty_after_run random control countdown growth
                  drain drained)); reflexivity.
Defined.

Lemma NoDup_two : NoDup [0%nat; 1%nat].
Proof.
  apply NoDup_cons. split; [|apply NoDup_singleton].
  intros H. apply list_elem_of_singleton in H. discriminate.
Defined.

Lemma one_meal_per_pair_witness :
  NoDup (players duel) ∧
  NoDup (unordered <$> meals (newEvents duel (Demo.run duel))) ∧
  meals (newEvents duel (Demo.run duel)) = [(0%nat, 1%nat)].
Proof.
  split; [exact NoDup_two|]. split; [|by vm_compute].
  pose proof (one_meal_per_pair random control countdown growth drain duel)
    as (_ & _ & _ & _ & H).
  exact (proj1 (proj2 (proj2 (H NoDup_two)))).
Defined.

Lemma value_assigned_from_size_before_meal_witness :
  spriteObj duel !! 1%nat = Some (Sprite.mk 410 300 10 30 0) ∧
  ∃ w1,
    valueThenEat 0%nat 1%nat duel
    = emit (AteSprite 0%nat 1%nat) (Sprite_eatOtherSprite 0%nat 1%nat w1) ∧
    spriteObj w1 !! 1%nat
    = Some (Sprite.set_value
              (SpritesData.value (GameData.sprites (data duel)) 10)
              (Sprite.mk 410 300 10 30 0)).
Proof.
  assert (spriteObj duel !! 1%nat = Some (Sprite.mk 410 300 10 30 0)) as H
    by reflexivity.
  split; [exact H|].
  exact (proj2 (value_assigned_from_size_before_meal random control countdown
                  growth drain duel) duel 0%nat 1%nat _ H).
Defined.

Lemma drained_sprite_removed_by_end_of_tick_witness :
  NoDup (players drained) ∧
  SuckedSprite 0%nat 0%nat (-50) ∈ newEvents drained (Demo.run drained) ∧
  0%nat ∉ players (Demo.run drained).
Proof.
  assert (NoDup (players drained)) as Hnd by apply NoDup_singleton.
  assert (SuckedSprite 0%nat 0%nat (-50)
            ∈ newEvents drained (Demo.run drained)) as Hin
    by (vm_compute; left).
  split; [exact Hnd|]. split; [exact Hin|].
  apply (proj1 (drained_sprite_removed_by_end_of_tick random control
                  countdown growth drain drained Hnd) 0%nat 0%nat (-50) Hin).
  lia.
Defined.



(** C3 as worded fails: sprite 1 keeps its actualSize of 30 all through
    the tick and no hazard touches it, yet the flush of eatenSprites
    removes it, because sprite 0 ate it. *)
Lemma eaten_sprite_removed_with_positive_size :
  ¬ onlyDrainedRemoved duel (Demo.run duel).
Proof.
  intros H. specialize (H 1%nat).
  assert (1%nat ∈ players (Demo.run duel)) as Hin.
  { apply H.
    - right. left.
    - split; [|split].
      + exists (Sprite.mk 410 300 10 30 0). split; [reflexivity|]. simpl. lia.
      + exists (Sprite.mk 410 300 10 30 10).
        split; [by vm_compute|]. simpl. lia.
      + intros after Hd. vm_compute in Hd. by apply elem_of_nil in Hd. }
  vm_compute in Hin. apply list_elem_of_singleton in Hin. discriminate.
Qed.

(** C5 as worded fails: sprite 1 has nominal size 10 and actualSize 30
    when sprite 0 eats it, and the value assigned is that of 10. *)
Lemma value_not_from_actualSize :
  ¬ eachPreceded isMeal
      (valuedByActualSize (SpritesData.value (GameData.sprites (data duel))))
      (newEvents duel (Demo.run duel)).
Proof.
  intros H.
  destruct (H [ValueSet 1%nat (Sprite.mk 410 300 10 30 0) 10]
              (AteSprite 0%nat 1%nat) [])
    as (pre' & e0 & Hpre & (winner & victim & vic & _ & ->)).
  - by vm_compute.
  - by exists 0%nat, 1%nat.
  - destruct pre' as [|x [|y pre']]; [|done|done].
    injection Hpre as _ <- Hv. simpl in Hv. discriminate.
Qed.

End Concrete.

(** ** The further properties on concrete games *)

Section Played.

Ltac by_computation := apply (bool_decide_unpack _); vm_compute; exact I.

Lemma begun_running : running Play.begun.
Proof. split; vm_compute; reflexivity. Defined.

Lemma begun_tidy : tidy Play.begun.
Proof.
  unfold tidy.
  assert (players Play.begun = [0%nat]) as -> by (vm_compute; reflexivity).
  assert (pellets Play.begun = [0%nat; 1%nat]) as ->
    by (vm_compute; reflexivity).
  assert (blackHoles Play.begun = []) as -> by (vm_compute; reflexivity).
  assert (nextRef Play.begun = 2%nat) as -> by (vm_compute; reflexivity).
  repeat split; try by_computation; intros p Hp; set_unfold; lia.
Defined.

Lemma run_supplies_pellets_witness :
  running Play.begun ∧
  ∃ kept,
    kept `sublist_of` pellets Play.begun ∧
    pellets (Demo.run Play.begun)
    = kept ++ seq (nextRef Play.begun + length (spawned Play.begun))
                (supply Play.begun) ∧
    nextRef (Demo.run Play.begun)
    = (nextRef Play.begun + length (spawned Play.begun)
       + supply Play.begun)%nat.
Proof.
  split; [exact begun_running|].
  exact (run_supplies_pellets Demo.random Demo.control Demo.countdown
           Demo.growth Demo.drain Play.begun begun_running).
Defined.

Lemma run_never_alters_a_pellet_witness :
  (0 < nextRef Demo.onPellet)%nat ∧
  pelletObj (Demo.run Demo.onPellet) !! 0%nat
  = pelletObj Demo.onPellet !! 0%nat.
Proof.
  assert (0 < nextRef Demo.onPellet)%nat as H by (simpl; lia).
  split; [exact H|].
  exact (run_never_alters_a_pellet Demo.random Demo.control Demo.countdown
           Demo.growth Demo.drain Demo.onPellet 0%nat H).
Defined.

Lemma run_supplies_configured_pellets_witness :
  running Play.begun ∧
  3%nat ∈ seq (nextRef Play.begun + length (spawned Play.begun))
            (supply Play.begun) ∧
  ∃ pl, pelletObj (Demo.run Play.begun) !! 3%nat = Some pl ∧
        asConfigured (GameData.pellets (data Play.begun)) pl.
Proof.
  assert (3%nat ∈ seq (nextRef Play.begun + length (spawned Play.begun))
                    (supply Play.begun)) as H by by_computation.
  split; [exact begun_running|]. split; [exact H|].
  exact (run_supplies_configured_pellets Demo.random Demo.control
           Demo.countdown Demo.growth Demo.drain Play.begun 3%nat
           begun_running H).
Defined.

Lemma run_keeps_collections_duplicate_free_witness :
  tidy Play.begun ∧ tidy (Demo.run Play.begun).
Proof.
  split; [exact begun_tidy|].
  exact (run_keeps_collections_duplicate_free Demo.random Demo.control
           Demo.countdown Demo.growth Demo.drain Play.begun begun_tidy).
Defined.

Lemma continue_undoes_pause_witness :
  paused Demo.onPellet = Some false ∧
  continue (pause Demo.onPellet) = Demo.onPellet ∧
  Demo.run (continue (pause Demo.onPellet)) = Demo.run Demo.onPellet.
Proof.
  split; [reflexivity|].
  exact (continue_undoes_pause Demo.random Demo.control Demo.countdown
           Demo.growth Demo.drain Demo.onPellet eq_refl).
Defined.

Lemma continue_does_not_start_witness :
  truthy (started Demo.ready) = false ∧
  Demo.run (continue Demo.ready) = continue Demo.ready.
Proof.
  split; [reflexivity|].
  exact (continue_does_not_start Demo.random Demo.control Demo.countdown
           Demo.growth Demo.drain Demo.ready eq_refl).
Defined.

Lemma placePellets_nonpositive_witness :
  -3 ≤ 0 ∧ placePellets Demo.random (-3) Play.joined = Play.joined.
Proof.
  assert (-3 ≤ 0) as H by lia.
  split; [exact H|].
  exact (placePellets_nonpositive Demo.random (-3) Play.joined H).
Defined.

Lemma placePellets_configures_new_pellets_witness :
  1%nat ∈ seq (nextRef Play.joined) (Z.to_nat 2) ∧
  ∃ pl, pelletObj (placePellets Demo.random 2 Play.joined) !! 1%nat = Some pl ∧
        asConfigured (GameData.pellets (data Play.joined)) pl.
Proof.
  assert (1%nat ∈ seq (nextRef Play.joined) (Z.to_nat 2)) as H
    by by_computation.
  split; [exact H|].
  exact (placePellets_configures_new_pellets Demo.random 2 Play.joined 1%nat H).
Defined.

Lemma placePellets_in_two_goes_witness :
  0 ≤ 1 ∧ 0 ≤ 2 ∧
  placePellets Demo.random 2 (placePellets Demo.random 1 Play.joined)
  = placePellets Demo.random (1 + 2) Play.joined.
Proof.
  assert (0 ≤ 1) as Ha by lia. assert (0 ≤ 2) as Hb by lia.
  split; [exact Ha|]. split; [exact Hb|].
  exact (placePellets_in_two_goes Demo.random 1 2 Play.joined Ha Hb).
Defined.

Lemma flush_takes_staged_then_from_the_end_witness :
  NoDup (pellets Play.midTick) ∧ NoDup (players Play.midTick) ∧
  pellets (removeEatenPellets Play.midTick)
  = take (length (pellets Play.midTick) - length (eatenPellets Play.midTick))
      (filter (λ p, p ∉ eatenPellets Play.midTick) (pellets Play.midTick)) ∧
  players (removeEatenSprites Play.midTick)
  = take (length (players Play.midTick) - length (eatenSprites Play.midTick))
      (filter (λ s, s ∉ eatenSprites Play.midTick) (players Play.midTick)).
Proof.
  assert (NoDup (pellets Play.midTick)) as Hp by by_computation.
  assert (NoDup (players Play.midTick)) as Hs by by_computation.
  split; [exact Hp|]. split; [exact Hs|].
  exact (flush_takes_staged_then_from_the_end Play.midTick Hp Hs).
Defined.

Lemma dead_hazard_flush_removes_every_other_hazard_witness :
  NoDup (deadBlackHoles Play.midTick) ∧
  blackHoles (removeDeadBlackHoles Play.midTick)
  = everyOther (length (deadBlackHoles Play.midTick))
      (blackHoles Play.midTick) ∧
  deadBlackHoles (removeDeadBlackHoles Play.midTick) = [].
Proof.
  assert (NoDup (deadBlackHoles Play.midTick)) as H by by_computation.
  split; [exact H|].
  exact (dead_hazard_flush_removes_every_other_hazard Play.midTick H).
Defined.

Lemma twoHazards_running : running Demo.twoHazards.
Proof. split; reflexivity. Defined.

Lemma twoHazards_tidy : tidy Demo.twoHazards.
Proof.
  unfold tidy. simpl.
  repeat split; try by_computation; intros p Hp; set_unfold; lia.
Defined.

Lemma every_hazard_is_displayed_once_witness :
  running Demo.twoHazards ∧ tidy Demo.twoHazards ∧
  0%nat ∈ blackHoles Demo.twoHazards ∧
  holeObj (Demo.run Demo.twoHazards) !! 0%nat
  = Demo.countdown <$> holeObj Demo.twoHazards !! 0%nat.
Proof.
  assert (0%nat ∈ blackHoles Demo.twoHazards) as H by by_computation.
  split; [exact twoHazards_running|]. split; [exact twoHazards_tidy|].
  split; [exact H|].
  exact (every_hazard_is_displayed_once Demo.random Demo.control
           Demo.countdown Demo.growth Demo.drain Demo.twoHazards 0%nat
           twoHazards_running twoHazards_tidy H).
Defined.

Lemma spawned_hazard_is_configured_and_displayed_witness :
  running Play.begun ∧ tidy Play.begun ∧
  remIsZero (frameCount Play.begun)
    (BlackHolesData.spawnInterval (GameData.blackHoles (data Play.begun)))
  = true ∧
  holeObj (Demo.run Play.begun) !! nextRef Play.begun
  = Some (Demo.countdown
            (BlackHole.spawn
               (Demo.random (seed Play.begun) (env_width Play.begun))
               (Demo.random (S (seed Play.begun)) (env_height Play.begun))
               (BlackHole.new
                  (BlackHolesData.size (GameData.blackHoles (data Play.begun)))
                  (BlackHolesData.power (GameData.blackHoles (data Play.begun)))
                  (BlackHolesData.lifeSpan
                     (GameData.blackHoles (data Play.begun)))))).
Proof.
  assert (remIsZero (frameCount Play.begun)
            (BlackHolesData.spawnInterval
               (GameData.blackHoles (data Play.begun))) = true) as H
    by (vm_compute; reflexivity).
  split; [exact begun_running|]. split; [exact begun_tidy|].
  split; [exact H|].
  exact (spawned_hazard_is_configured_and_displayed Demo.random Demo.control
           Demo.countdown Demo.growth Demo.drain Play.begun
           begun_running begun_tidy H).
Defined.

Lemma every_player_is_controlled_once_witness :
  NoDup (players Demo.duel) ∧
  spriteObj (controlSprites Demo.control Demo.duel) !! 1%nat
  = if decide (1%nat ∈ players Demo.duel)
    then Demo.control <$> spriteObj Demo.duel !! 1%nat
    else spriteObj Demo.duel !! 1%nat.
Proof.
  assert (NoDup (players Demo.duel)) as H by by_computation.
  split; [exact H|].
  exact (every_player_is_controlled_once Demo.control Demo.duel 1%nat H).
Defined.

Lemma hazards_out_of_life_are_staged_witness :
  NoDup (blackHoles Demo.twoHazards) ∧
  deadBlackHoles (controlBlackHoles Demo.countdown Demo.drain Demo.twoHazards)
  = deadBlackHoles Demo.twoHazards
    ++ filter (λ b, diesNow Demo.countdown (holeObj Demo.twoHazards) b)
         (blackHoles Demo.twoHazards).
Proof.
  assert (NoDup (blackHoles Demo.twoHazards)) as H by by_computation.
  split; [exact H|].
  exact (hazards_out_of_life_are_staged Demo.countdown Demo.drain
           Demo.twoHazards H).
Defined.

Lemma addPlayer_does_not_check_for_duplicates_witness :
  let w1 := set_players [0%nat] Play.fresh in
  let w2 := set_players [0%nat; 0%nat] Play.fresh in
  addPlayer Play.chooseColors true 0%nat Play.fresh = Returned w1 ∧
  addPlayer Play.chooseColors true 0%nat w1 = Returned w2 ∧
  players w2 = players Play.fresh ++ [0%nat; 0%nat].
Proof.
  cbv zeta.
  assert (addPlayer Play.chooseColors true 0%nat Play.fresh
          = Returned (set_players [0%nat] Play.fresh)) as H1 by reflexivity.
  assert (addPlayer Play.chooseColors true 0%nat
            (set_players [0%nat] Play.fresh)
          = Returned (set_players [0%nat; 0%nat] Play.fresh)) as H2
    by reflexivity.
  split; [exact H1|]. split; [exact H2|].
  exact (addPlayer_does_not_check_for_duplicates Play.chooseColors true true
           0%nat Play.fresh _ _ H1 H2).
Defined.

Lemma placePlayers_touches_only_players_witness :
  (1%nat ∉ players Play.joined) ∧
  spriteObj (placePlayers Demo.random Play.joined) !! 1%nat
  = spriteObj Play.joined !! 1%nat.
Proof.
  assert (1%nat ∉ players Play.joined) as H by by_computation.
  split; [exact H|].
  exact (placePlayers_touches_only_players Demo.random Play.joined 1%nat H).
Defined.

Lemma joined_returned :
  addPlayer Play.chooseColors false 0%nat Play.fresh = Returned Play.joined.
Proof. reflexivity. Defined.

Lemma set_up_game_runs_witness :
  addPlayer Play.chooseColors false 0%nat Play.fresh = Returned Play.joined ∧
  0 < 2 ∧
  running (start (placePellets Demo.random 2 Play.joined)) ∧
  Demo.run (start (placePellets Demo.random 2 Play.joined))
  = tick Demo.random Demo.control Demo.countdown Demo.growth Demo.drain
      (start (placePellets Demo.random 2 Play.joined)).
Proof.
  assert (0 < 2) as Hq by lia.
  split; [exact joined_returned|]. split; [exact Hq|].
  exact (set_up_game_runs Demo.random Demo.control Demo.countdown Demo.growth
           Demo.drain Play.chooseColors false 0%nat 2 Play.fresh Play.joined
           joined_returned Hq).
Defined.

Lemma begun_reachable :
  reachable Demo.random Play.chooseColors Demo.control Demo.countdown
    Demo.growth Demo.drain Play.begun.
Proof.
  apply reach_start, reach_placePellets.
  apply (reach_addPlayer _ _ _ _ _ _ false 0%nat Play.fresh).
  - apply reach_new.
  - by_computation.
  - exact joined_returned.
Defined.

Lemma reachable_games_are_well_formed_witness :
  reachable Demo.random Play.chooseColors Demo.control Demo.countdown
    Demo.growth Demo.drain (Demo.run Play.begun) ∧
  tidy (Demo.run Play.begun) ∧ flushed (Demo.run Play.begun).
Proof.
  assert (reachable Demo.random Play.chooseColors Demo.control Demo.countdown
            Demo.growth Demo.drain (Demo.run Play.begun)) as H
    by apply reach_run, begun_reachable.
  split; [exact H|].
  exact (reachable_games_are_well_formed Demo.random Demo.control
           Demo.countdown Demo.growth Demo.drain Play.chooseColors _ H).
Defined.

(** *** The hazards of a driven game, and a sprite added twice *)

Lemma countdown_countsDown : countsDown Demo.countdown.
Proof. by intros []. Defined.

Lemma begun_driven :
  driven Demo.random Play.chooseColors Demo.control Demo.countdown
    Demo.growth Demo.drain Play.begun.
Proof.
  eapply driven_call; [|apply call_start].
  eapply driven_call; [|apply call_placePellets].
  eapply driven_call;
    [apply driven_new|apply (call_addPlayer _ _ false 0%nat); reflexivity].
Defined.



(** C6 as worded fails: with sprite 0 added twice the loops visit sprites
    0 and 1 as the pair of positions 0 and 1 and again as the pair of
    positions 1 and 2, and sprite 0 eats sprite 1 both times. *)
Lemma pair_eats_twice_when_sprite_added_twice :
  driven Demo.random Play.chooseColors Demo.control Demo.countdown
    Demo.growth Demo.drain Play.doubled ∧
  players Play.doubled = [0%nat; 1%nat; 0%nat] ∧
  meals (newEvents Play.doubled (Demo.run Play.doubled))
  = [(0%nat, 1%nat); (0%nat, 1%nat)] ∧
  ¬ pairwiseExclusive Play.doubled (Demo.run Play.doubled).
Proof.
  split; [|split; [by vm_compute|split; [by vm_compute|]]].
  - eapply driven_call; [|apply call_start].
    eapply driven_call; [|apply call_placePellets].
    eapply driven_call;
      [|apply (call_addPlayer _ _ true 0%nat); reflexivity].
    eapply driven_call;
      [|apply (call_addPlayer _ _ true 1%nat); reflexivity].
    eapply driven_call;
      [apply driven_new|apply (call_addPlayer _ _ true 0%nat); reflexivity].
  - intros H. specialize (H 0%nat 1%nat).
    assert (0%nat ∈ players Play.doubled) as H0 by by_computation.
    assert (1%nat ∈ players Play.doubled) as H1 by by_computation.
    specialize (H H0 H1 ltac:(done)). vm_compute in H. lia.
Qed.

End Played.
